(** * ore-rounds-tracker: the two-phase round-collection engine

    A shallow embedding of the collector's computation services
    (rng-calculator, ev-calculator, tile-ranker), of the board decoder and
    the BoardWatcher state machine, of the SQLite round repository and of the
    two use cases collectPreFin and completePostFin, with the properties the
    specification states about them.

    Conventions.
    - A JavaScript [bigint] is a [Z].  A [Buffer] is a [list byte].
    - An integral JavaScript [number] (slot counts, indices, ranks, time
      stamps) is a [Z]; the conversion [Number(bigint)] is written out with
      its rounding to 53 significant bits.
    - A real-valued JavaScript [number] (prices, EV ratios) is a [JsNum]: an
      exact rational extended with the IEEE special values.  Rounding of the
      arithmetic operations and overflow are outside this model; a property
      that they would change is stated for inputs in a range where nothing
      overflows, and up to ties of the rounded values.
    - Asynchronous code is run to completion: a use case is a function of the
      world (store, notifier outbox, log, clock) in an exception monad. *)

From Stdlib Require Import ZArith QArith Qround Lia Lqa Bool List String Ascii Sorted Permutation.
From Stdlib.Strings Require Import Byte.
From Stdlib Require Import DecimalString.
From stdpp Require Import base option list gmap sorting.

Local Open Scope Z_scope.

(** ** JavaScript numbers *)

Module Js.

(** [Number(z)] for a bigint [z]: the double nearest to [z], ties to even.
    Doubles carry 53 significant bits, so integers of magnitude below 2^53
    are kept and larger ones are rounded at bit [log2 |z| - 52]. *)
Definition Number (z : Z) : Z :=
  let a := Z.abs z in
  if a <? 2 ^ 53 then z
  else
    let e := Z.log2 a - 52 in
    let q := a / 2 ^ e in
    let r := a mod 2 ^ e in
    let half := 2 ^ (e - 1) in
    let q' := if (half <? r) || ((r =? half) && Z.odd q) then q + 1 else q in
    Z.sgn z * (q' * 2 ^ e).

(** A real-valued [number]. *)
Inductive JsNum : Type :=
| NaN
| PosInf
| NegInf
| Fin (q : Q).

Definition isFinite (x : JsNum) : bool :=
  match x with Fin _ => true | _ => false end.

Definition isNaN (x : JsNum) : bool :=
  match x with NaN => true | _ => false end.

Definition Qsgn (q : Q) : Z := Z.sgn (Qnum q).

(** [x + y] *)
Definition add (x y : JsNum) : JsNum :=
  match x, y with
  | NaN, _ | _, NaN => NaN
  | PosInf, NegInf | NegInf, PosInf => NaN
  | PosInf, _ | _, PosInf => PosInf
  | NegInf, _ | _, NegInf => NegInf
  | Fin a, Fin b => Fin (a + b)
  end.

(** [- x] *)
Definition neg (x : JsNum) : JsNum :=
  match x with
  | NaN => NaN
  | PosInf => NegInf
  | NegInf => PosInf
  | Fin a => Fin (- a)
  end.

(** [x - y] *)
Definition sub (x y : JsNum) : JsNum := add x (neg y).

Definition inf_of_sign (s : Z) : JsNum :=
  match s with
  | Z0 => NaN
  | Zpos _ => PosInf
  | Zneg _ => NegInf
  end.

Definition sign (x : JsNum) : Z :=
  match x with
  | NaN => 0
  | PosInf => 1
  | NegInf => -1
  | Fin a => Qsgn a
  end.

(** [x * y]; zero times an infinity is NaN. *)
Definition mul (x y : JsNum) : JsNum :=
  match x, y with
  | NaN, _ | _, NaN => NaN
  | Fin a, Fin b => Fin (a * b)
  | _, _ => inf_of_sign (sign x * sign y)
  end.

(** [x / y]; a finite value over an infinity is zero, a non-zero value over
    zero is an infinity of the dividend's sign (the zero taken as positive). *)
Definition div (x y : JsNum) : JsNum :=
  match x, y with
  | NaN, _ | _, NaN => NaN
  | Fin a, Fin b =>
      if Qeq_bool b 0 then inf_of_sign (Qsgn a) else Fin (a / b)
  | Fin _, _ => Fin 0
  | _, Fin b => inf_of_sign (sign x * (if Qeq_bool b 0 then 1 else Qsgn b))
  | _, _ => NaN
  end.

(** [x <= y], [x < y], [x === y], [x !== y]: every comparison with NaN is
    false, except [!==]. *)
Definition leb (x y : JsNum) : bool :=
  match x, y with
  | NaN, _ | _, NaN => false
  | NegInf, _ => true
  | _, PosInf => true
  | PosInf, _ => false
  | _, NegInf => false
  | Fin a, Fin b => Qle_bool a b
  end.

Definition ltb (x y : JsNum) : bool :=
  match x, y with
  | NaN, _ | _, NaN => false
  | NegInf, NegInf => false
  | PosInf, PosInf => false
  | NegInf, _ => true
  | _, PosInf => true
  | PosInf, _ => false
  | _, NegInf => false
  | Fin a, Fin b => negb (Qle_bool b a)
  end.

Definition eqb (x y : JsNum) : bool :=
  match x, y with
  | PosInf, PosInf => true
  | NegInf, NegInf => true
  | Fin a, Fin b => Qeq_bool a b
  | _, _ => false
  end.

Definition neqb (x y : JsNum) : bool := negb (eqb x y).

(** [Math.max(x, y)] *)
Definition max (x y : JsNum) : JsNum :=
  match x, y with
  | NaN, _ | _, NaN => NaN
  | _, _ => if leb x y then y else x
  end.

(** An integral number as a real-valued one. *)
Definition ofZ (z : Z) : JsNum := Fin (inject_Z z).

(** [BigInt(Math.floor(x))]: a RangeError for NaN and the infinities. *)
Definition floorToBigInt (x : JsNum) : option Z :=
  match x with
  | Fin a => Some (Qfloor a)
  | _ => None
  end.

(** The message of that RangeError. *)
Definition rangeErrorOfBigInt (x : JsNum) : string :=
  ("The number "
   ++ match x with
      | PosInf => "Infinity"
      | NegInf => "-Infinity"
      | _ => "NaN"
      end
   ++ " cannot be converted to a BigInt because it is not an integer")%string.

End Js.

(** ** Exceptions *)

(** The outcome of a call that may throw an [Error] with a message. *)
Inductive outcome (A : Type) : Type :=
| Return (a : A)
| Throw (message : string).
Arguments Return {A} a.
Arguments Throw {A} message.

(** Decimal rendering of a number inside a message or a log line. *)
Definition showZ (z : Z) : string := NilZero.string_of_int (Z.to_int z).
Definition showNat (n : nat) : string := showZ (Z.of_nat n).

(** ** Buffers *)

Module Buffer.

Definition byteAt (buf : list byte) (i : nat) : option Z :=
  match nth_error buf i with
  | Some b => Some (Z.of_N (Byte.to_N b))
  | None => None
  end.

(** [buf.readUInt16LE(offset)]; out of range is [None] (a RangeError). *)
Definition readUInt16LE (buf : list byte) (offset : nat) : option Z :=
  match byteAt buf offset, byteAt buf (offset + 1) with
  | Some first, Some last => Some (first + last * 2 ^ 8)
  | _, _ => None
  end.

(** [buf.readBigUInt64LE(offset)]: the low and the high 32-bit halves are
    assembled from their bytes, then [lo + (hi << 32)]. *)
Definition readBigUInt64LE (buf : list byte) (offset : nat) : option Z :=
  match byteAt buf offset, byteAt buf (offset + 1), byteAt buf (offset + 2),
        byteAt buf (offset + 3), byteAt buf (offset + 4), byteAt buf (offset + 5),
        byteAt buf (offset + 6), byteAt buf (offset + 7) with
  | Some b0, Some b1, Some b2, Some b3, Some b4, Some b5, Some b6, Some b7 =>
      let lo := b0 + b1 * 2 ^ 8 + b2 * 2 ^ 16 + b3 * 2 ^ 24 in
      let hi := b4 + b5 * 2 ^ 8 + b6 * 2 ^ 16 + b7 * 2 ^ 24 in
      Some (lo + Z.shiftl hi 32)
  | _, _, _, _, _, _, _, _ => None
  end.

(** [buf.every(b => b === v)] *)
Definition every (v : Z) (buf : list byte) : bool :=
  forallb (fun b => Z.of_N (Byte.to_N b) =? v) buf.

(** [buf.subarray(first, last)] for [first <= last]: a bound past the end is
    the end. *)
Definition subarray (buf : list byte) (first last : nat) : list byte :=
  firstn (last - first) (skipn first buf).

End Buffer.

(** ** application/services/rng-calculator.ts *)

Module RngCalculator.

(** computeRng: XOR of the four u64 chunks of the slot hash. *)
Definition computeRng (slotHash : list byte) : outcome Z :=
  if negb (Nat.eqb (length slotHash) 32) then
    Throw ("Invalid slot hash length: " ++ showNat (length slotHash) ++ ", expected 32")
  else
    match Buffer.readBigUInt64LE slotHash 0, Buffer.readBigUInt64LE slotHash 8,
          Buffer.readBigUInt64LE slotHash 16, Buffer.readBigUInt64LE slotHash 24 with
    | Some u64_0, Some u64_1, Some u64_2, Some u64_3 =>
        Return (Z.lxor (Z.lxor (Z.lxor u64_0 u64_1) u64_2) u64_3)
    | _, _, _, _ => Throw "The value of offset is out of range"
    end.

(** computeWinningTile: [Number(rng % 25n)]. *)
Definition computeWinningTile (slotHash : list byte) : outcome Z :=
  match computeRng slotHash with
  | Return rng => Return (Js.Number (Z.rem rng 25))
  | Throw e => Throw e
  end.

(** shouldSplitReward: XOR of the four u16 values of the first eight bytes
    is even. *)
Definition shouldSplitReward (slotHash : list byte) : outcome bool :=
  if negb (Nat.eqb (length slotHash) 32) then Return false
  else
    match Buffer.readUInt16LE slotHash 0, Buffer.readUInt16LE slotHash 2,
          Buffer.readUInt16LE slotHash 4, Buffer.readUInt16LE slotHash 6 with
    | Some u16_0, Some u16_1, Some u16_2, Some u16_3 =>
        let xored := Z.lxor (Z.lxor (Z.lxor u16_0 u16_1) u16_2) u16_3 in
        Return (Z.rem xored 2 =? 0)
    | _, _, _, _ => Throw "The value of offset is out of range"
    end.

(** reverseBits64: the loop over the bit positions [i], [i + 1], ... *)
Fixpoint reverseBitsFrom (steps : nat) (i : Z) (value result : Z) : Z :=
  match steps with
  | O => result
  | S steps' =>
      reverseBitsFrom steps' (i + 1) value
        (Z.lor (Z.shiftl result 1) (Z.land (Z.shiftr value i) 1))
  end.

Definition reverseBits64 (value : Z) : Z := reverseBitsFrom 64 0 value 0.

(** isMotherlodeTriggered: the reversed rng is a multiple of 625. *)
Definition isMotherlodeTriggered (slotHash : list byte) : outcome bool :=
  match computeRng slotHash with
  | Return rng => Return (Z.rem (reverseBits64 rng) 625 =? 0)
  | Throw e => Throw e
  end.

End RngCalculator.

(** ** infrastructure/solana/decoders/board.decoder.ts *)

Module BoardDecoder.

Record BoardAccount : Type := {
  roundId : Z;
  startSlot : Z;
  endSlot : Z
}.

Definition U64_MAX : Z := 18446744073709551615.

(** isRoundActive: u64::MAX marks a round that has not started. *)
Definition isRoundActive (board : BoardAccount) : bool :=
  negb (endSlot board =? U64_MAX).

(** getRemainingSlots *)
Definition getRemainingSlots (board : BoardAccount) (currentSlot : Z) : Z :=
  if negb (isRoundActive board) then -1
  else
    let remaining := endSlot board - currentSlot in
    if 0 <? remaining then Js.Number remaining else 0.

Definition ACCOUNT_DISCRIMINATOR_SIZE : nat := 8.
Definition U64_SIZE : nat := 8.

(** readU64LE; a read past the end of the buffer throws a RangeError. *)
Definition readU64LE (buffer : list byte) (offset : nat) : outcome Z :=
  match Buffer.readBigUInt64LE buffer offset with
  | Some value => Return value
  | None => Throw "The value of offset is out of range"
  end.

(** decodeBoardAccount: round_id, start_slot and end_slot follow the
    discriminator. *)
Definition decodeBoardAccount (data : list byte) : outcome BoardAccount :=
  let minSize := (ACCOUNT_DISCRIMINATOR_SIZE + U64_SIZE * 3)%nat in
  if (length data <? minSize)%nat then
    Throw ("Board account data too small: " ++ showNat (length data)
           ++ " < " ++ showNat minSize)%string
  else
    let offset := ACCOUNT_DISCRIMINATOR_SIZE in
    match readU64LE data offset with
    | Throw e => Throw e
    | Return roundId =>
        let offset := (offset + U64_SIZE)%nat in
        match readU64LE data offset with
        | Throw e => Throw e
        | Return startSlot =>
            let offset := (offset + U64_SIZE)%nat in
            match readU64LE data offset with
            | Throw e => Throw e
            | Return endSlot =>
                Return {| roundId := roundId; startSlot := startSlot; endSlot := endSlot |}
            end
        end
    end.

End BoardDecoder.

(** ** Public keys (@solana/web3.js) *)

Module PublicKey.

(** A public key is its 32 bytes. *)
Definition t := list byte.

Definition alphabet : list ascii :=
  list_ascii_of_string "123456789ABCDEFGHJKLMNPQRSTUVWXYZabcdefghijkmnopqrstuvwxyz".

Definition byteZ (b : byte) : Z := Z.of_N (Byte.to_N b).

(** Big-endian value of a byte string. *)
Definition beValue (bs : list byte) : Z :=
  fold_left (fun acc b => acc * 256 + byteZ b) bs 0.

Fixpoint leadingZeros (bs : list byte) : nat :=
  match bs with
  | b :: bs' => if byteZ b =? 0 then S (leadingZeros bs') else O
  | [] => O
  end.

Fixpoint digits58 (fuel : nat) (n : Z) (acc : list ascii) : list ascii :=
  match fuel with
  | O => acc
  | S fuel' =>
      if n =? 0 then acc
      else digits58 fuel' (n / 58) (nth (Z.to_nat (n mod 58)) alphabet "1"%char :: acc)
  end.

(** [key.toBase58()] *)
Definition toBase58 (key : list byte) : string :=
  string_of_list_ascii
    (repeat "1"%char (leadingZeros key) ++ digits58 (2 * length key) (beValue key) []).

Fixpoint indexOf (c : ascii) (l : list ascii) (i : Z) : option Z :=
  match l with
  | [] => None
  | d :: l' => if Ascii.eqb c d then Some i else indexOf c l' (i + 1)
  end.

Fixpoint value58 (cs : list ascii) (acc : Z) : option Z :=
  match cs with
  | [] => Some acc
  | c :: cs' =>
      match indexOf c alphabet 0 with
      | Some d => value58 cs' (acc * 58 + d)
      | None => None
      end
  end.

Fixpoint beBytes (n : nat) (v : Z) (acc : list byte) : list byte :=
  match n with
  | O => acc
  | S n' =>
      match Byte.of_N (Z.to_N (v mod 256)) with
      | Some b => beBytes n' (v / 256) (b :: acc)
      | None => acc
      end
  end.

(** [new PublicKey(text)] for a base58 text of a 32-byte key. *)
Definition fromBase58 (text : string) : option (list byte) :=
  match value58 (list_ascii_of_string text) 0 with
  | Some v => if v <? 2 ^ 256 then Some (beBytes 32 v []) else None
  | None => None
  end.

(** [a.equals(b)] *)
Definition equals (a b : list byte) : bool :=
  bool_decide (map byteZ a = map byteZ b).

(** [new PublicKey(bytes)]: the bytes are read as a big-endian number, which
    must fit 32 bytes; the key is that number on 32 bytes. *)
Definition ofBytes (bytes : list byte) : outcome (list byte) :=
  let value := beValue bytes in
  if value <? 2 ^ 256 then Return (beBytes 32 value [])
  else Throw "Invalid public key input".

End PublicKey.

(** ** infrastructure/solana/constants.ts *)

Module Constants.

(** SPLIT_ADDRESS: the top-miner key that marks a split reward. *)
Definition SPLIT_ADDRESS : list byte :=
  Eval vm_compute in
    match PublicKey.fromBase58 "SpLiT11111111111111111111111111111111111112" with
    | Some k => k
    | None => []
    end.

End Constants.

(** ** shared/types.ts *)

Module SharedTypes.

Definition LAMPORTS_PER_SOL : Js.JsNum := Js.ofZ 1000000000.
Definition ORE_DECIMALS : Js.JsNum := Js.ofZ 100000000000.

(** [Number(x)] of an array element that may be missing ([undefined]). *)
Definition NumberOf (x : option Z) : Js.JsNum :=
  match x with
  | Some z => Js.ofZ (Js.Number z)
  | None => Js.NaN
  end.

(** lamportsToSol *)
Definition lamportsToSol (lamports : option Z) : Js.JsNum :=
  Js.div (NumberOf lamports) LAMPORTS_PER_SOL.

End SharedTypes.

(** ** infrastructure/solana/decoders/round.decoder.ts *)

Module RoundDecoder.

(** The decoded round account.  [deployed] and [counts] are read by index;
    an index past the end reads [undefined], here [None]. *)
Record RoundAccount : Type := {
  id : Z;
  deployed : list Z;
  slotHash : list byte;
  counts : list Z;
  expiresAt : Z;
  motherlode : Z;
  rentPayer : list byte;
  topMiner : list byte;
  topMinerReward : Z;
  totalDeployed : Z;
  totalVaulted : Z;
  totalWinnings : Z
}.

(** isSlotHashValid: all zeros and all 255s are invalid. *)
Definition isSlotHashValid (slotHash : list byte) : bool :=
  let allZeros := Buffer.every 0 slotHash in
  let allOnes := Buffer.every 255 slotHash in
  negb allZeros && negb allOnes.

(** getTotalMiners *)
Definition getTotalMiners (round : RoundAccount) : Z :=
  fold_left (fun sum count => sum + count) (counts round) 0.

Definition ACCOUNT_DISCRIMINATOR_SIZE : nat := 8.
Definition U64_SIZE : nat := 8.
Definition PUBKEY_SIZE : nat := 32.
Definition SLOT_HASH_SIZE : nat := 32.
Definition TILES_COUNT : nat := 25.

(** readU64LE; a read past the end of the buffer throws a RangeError. *)
Definition readU64LE (buffer : list byte) (offset : nat) : outcome Z :=
  match Buffer.readBigUInt64LE buffer offset with
  | Some value => Return value
  | None => Throw "The value of offset is out of range"
  end.

(** A step of the decoder followed by the rest of it. *)
Definition andThen {A B : Type} (o : outcome A) (k : A -> outcome B) : outcome B :=
  match o with
  | Return a => k a
  | Throw e => Throw e
  end.

(** The loop that pushes [count] u64 values read from [offset] on. *)
Fixpoint readU64Array (data : list byte) (offset : nat) (count : nat) : outcome (list Z) :=
  match count with
  | O => Return []
  | S count' =>
      andThen (readU64LE data offset) (fun value =>
      andThen (readU64Array data (offset + U64_SIZE) count') (fun values =>
      Return (value :: values)))
  end.

(** decodeRoundAccount; the offsets are those of the account layout. *)
Definition decodeRoundAccount (data : list byte) : outcome RoundAccount :=
  let offset := ACCOUNT_DISCRIMINATOR_SIZE in
  andThen (readU64LE data offset) (fun id =>
  let offset := (offset + U64_SIZE)%nat in
  andThen (readU64Array data offset TILES_COUNT) (fun deployed =>
  let offset := (offset + TILES_COUNT * U64_SIZE)%nat in
  let slotHash := Buffer.subarray data offset (offset + SLOT_HASH_SIZE) in
  let offset := (offset + SLOT_HASH_SIZE)%nat in
  andThen (readU64Array data offset TILES_COUNT) (fun counts =>
  let offset := (offset + TILES_COUNT * U64_SIZE)%nat in
  andThen (readU64LE data offset) (fun expiresAt =>
  let offset := (offset + U64_SIZE)%nat in
  andThen (readU64LE data offset) (fun motherlode =>
  let offset := (offset + U64_SIZE)%nat in
  andThen (PublicKey.ofBytes (Buffer.subarray data offset (offset + PUBKEY_SIZE)))
    (fun rentPayer =>
  let offset := (offset + PUBKEY_SIZE)%nat in
  andThen (PublicKey.ofBytes (Buffer.subarray data offset (offset + PUBKEY_SIZE)))
    (fun topMiner =>
  let offset := (offset + PUBKEY_SIZE)%nat in
  andThen (readU64LE data offset) (fun topMinerReward =>
  let offset := (offset + U64_SIZE)%nat in
  andThen (readU64LE data offset) (fun totalDeployed =>
  let offset := (offset + U64_SIZE)%nat in
  andThen (readU64LE data offset) (fun totalVaulted =>
  let offset := (offset + U64_SIZE)%nat in
  andThen (readU64LE data offset) (fun totalWinnings =>
  Return {| id := id;
            deployed := deployed;
            slotHash := slotHash;
            counts := counts;
            expiresAt := expiresAt;
            motherlode := motherlode;
            rentPayer := rentPayer;
            topMiner := topMiner;
            topMinerReward := topMinerReward;
            totalDeployed := totalDeployed;
            totalVaulted := totalVaulted;
            totalWinnings := totalWinnings |}))))))))))).

End RoundDecoder.

(** ** domain/entities *)

Module PriceQuote.
Record t : Type := {
  oreSol : Js.JsNum;
  solUsd : Js.JsNum;
  oreUsd : Js.JsNum;
  fetchedAt : Z
}.
End PriceQuote.

Module MiningCostData.
Record t : Type := {
  evPercent : Js.JsNum;
  fetchedAt : Z
}.
End MiningCostData.

Module TilePreFin.
Record t : Type := {
  tileIndex : Z;
  deployed : Z;
  minersCount : option Z;
  othersStake : Z;
  evRatio : Js.JsNum;
  maxProfitable : Z;
  rankEv : Z
}.
End TilePreFin.

Module TilePostFin.
Record t : Type := {
  tileIndex : Z;
  deployedFinal : option Z;
  countFinal : option Z
}.
End TilePostFin.

Module RoundPreFin.
Record t : Type := {
  roundId : Z;
  tsPre : Z;
  slotPre : Z;
  remainingSlots : Z;
  boardStartSlot : Z;
  boardEndSlot : Z;
  price : PriceQuote.t;
  totalDeployed : Z;
  totalMiners : Z;
  latencyFetchMs : Z;
  latencyEvMs : Z;
  miningCostPct : Js.JsNum;
  tiles : list TilePreFin.t
}.
End RoundPreFin.

Module RoundPostFin.
Record t : Type := {
  roundId : Z;
  tsPost : Z;
  slotHash : list byte;
  rngU64 : Z;
  winningTile : Z;
  splitTopMiner : bool;
  topMinerReward : Z;
  motherlodePaid : Z;
  numWinners : option Z;
  totalWinnings : Z;
  totalVaulted : Z;
  rentPayer : string;
  topMinerPubkey : string;
  tiles : list TilePostFin.t
}.
End RoundPostFin.

(** ** application/services/ev-calculator.ts *)

Module EvCalculator.

Import RoundDecoder.

Definition PROBABILITY_OF_WIN : Js.JsNum := Js.div (Js.ofZ 1) (Js.ofZ 25).
Definition SOL_PAYOUT_FEE_FACTOR : Js.JsNum := Js.Fin (9 # 10).
Definition MOTHERLODE_TRIGGER_PROBABILITY : Js.JsNum := Js.div (Js.ofZ 1) (Js.ofZ 625).
Definition EV_DENOMINATOR : Js.JsNum :=
  Js.sub (Js.ofZ 1) (Js.mul PROBABILITY_OF_WIN SOL_PAYOUT_FEE_FACTOR).

Record TileEvResult : Type := {
  tileIndex : Z;
  deployed : Z;
  minersCount : option Z;
  othersStake : Z;
  evRatio : Js.JsNum;
  maxProfitable : Z
}.

(** computeNetOreValueSol *)
Definition computeNetOreValueSol (round : RoundAccount) (priceQuote : PriceQuote.t) : Js.JsNum :=
  let motherlodeOre := Js.div (Js.ofZ (Js.Number (motherlode round))) SharedTypes.ORE_DECIMALS in
  let netOreValueInSol := Js.mul (PriceQuote.oreSol priceQuote) SOL_PAYOUT_FEE_FACTOR in
  Js.mul netOreValueInSol
    (Js.add (Js.ofZ 1)
       (Js.mul MOTHERLODE_TRIGGER_PROBABILITY (Js.max motherlodeOre (Js.ofZ 0)))).

(** computePotFromOthers *)
Definition computePotFromOthers (round : RoundAccount) : Z :=
  fold_left (fun acc deployed => acc + deployed) (RoundDecoder.deployed round) 0.

(** computeEvRatio *)
Definition computeEvRatio
    (othersStakeSol potFromOthersSol exposureBeforeSol stakeSol netOreValueSol : Js.JsNum)
    : Js.JsNum :=
  let denominator := Js.add othersStakeSol stakeSol in
  if Js.leb denominator (Js.ofZ 0) then Js.PosInf
  else
    let numerator :=
      Js.mul PROBABILITY_OF_WIN
        (Js.add
           (Js.mul SOL_PAYOUT_FEE_FACTOR
              (Js.add (Js.add potFromOthersSol exposureBeforeSol) stakeSol))
           netOreValueSol) in
    Js.div numerator denominator.

(** solveMaxProfitableStake *)
Definition solveMaxProfitableStake
    (othersStakeSol potFromOthersSol exposureBeforeSol netOreValueSol : Js.JsNum)
    : Js.JsNum :=
  let numerator :=
    Js.sub
      (Js.mul PROBABILITY_OF_WIN
         (Js.add
            (Js.mul SOL_PAYOUT_FEE_FACTOR (Js.add potFromOthersSol exposureBeforeSol))
            netOreValueSol))
      othersStakeSol in
  if Js.leb numerator (Js.ofZ 0) then Js.ofZ 0
  else Js.div numerator EV_DENOMINATOR.

(** The probe stake [Math.max(0.001, Number.EPSILON)]. *)
Definition minStakeSol : Js.JsNum :=
  Js.max (Js.Fin (1 # 1000)) (Js.Fin (1 # 4503599627370496)).

(** One turn of the loop of calculateAllTileEvs.  A missing [deployed] entry
    makes the stake NaN, and [BigInt] of the NaN maximal stake throws. *)
Definition tileEv (round : RoundAccount) (potFromOthersSol netOreValueSol : Js.JsNum)
    (tileIndex : nat) : outcome TileEvResult :=
  let deployed := nth_error (RoundDecoder.deployed round) tileIndex in
  let minersCount := nth_error (counts round) tileIndex in
  let othersStake := deployed in
  let othersStakeSol := SharedTypes.lamportsToSol othersStake in
  let exposureBeforeSol := Js.ofZ 0 in
  let evRatio :=
    computeEvRatio othersStakeSol potFromOthersSol exposureBeforeSol minStakeSol netOreValueSol in
  let maxProfitableSol :=
    solveMaxProfitableStake othersStakeSol potFromOthersSol exposureBeforeSol netOreValueSol in
  let scaled := Js.mul maxProfitableSol (Js.ofZ 1000000000) in
  match Js.floorToBigInt scaled, deployed with
  | Some maxProfitable, Some d =>
      Return {| tileIndex := Z.of_nat tileIndex;
                deployed := d;
                minersCount := minersCount;
                othersStake := d;
                evRatio := evRatio;
                maxProfitable := maxProfitable |}
  | _, _ => Throw (Js.rangeErrorOfBigInt scaled)
  end.

(** The loop over the tile indices, stopped by the first exception. *)
Fixpoint tileLoop (f : nat -> outcome TileEvResult) (indices : list nat)
    : outcome (list TileEvResult) :=
  match indices with
  | [] => Return []
  | i :: rest =>
      match f i with
      | Throw e => Throw e
      | Return r =>
          match tileLoop f rest with
          | Throw e => Throw e
          | Return rs => Return (r :: rs)
          end
      end
  end.

(** calculateAllTileEvs *)
Definition calculateAllTileEvs (round : RoundAccount) (priceQuote : PriceQuote.t)
    : outcome (list TileEvResult) :=
  let potFromOthers := computePotFromOthers round in
  let potFromOthersSol := SharedTypes.lamportsToSol (Some potFromOthers) in
  let netOreValueSol := computeNetOreValueSol round priceQuote in
  tileLoop (tileEv round potFromOthersSol netOreValueSol) (seq 0 25).

End EvCalculator.

(** ** application/services/tile-ranker.ts *)

Module TileRanker.

Import EvCalculator.

(** The comparator handed to [sort]. *)
Definition compareTiles (a b : TileEvResult) : Js.JsNum :=
  if negb (Js.isFinite (evRatio b)) && Js.isFinite (evRatio a) then Js.ofZ 1
  else if negb (Js.isFinite (evRatio a)) && Js.isFinite (evRatio b) then Js.ofZ (-1)
  else if Js.neqb (evRatio b) (evRatio a) then Js.sub (evRatio b) (evRatio a)
  else Js.ofZ (Js.Number (maxProfitable b - maxProfitable a)).

(** [Array.prototype.sort(cmp)] as a stable insertion sort: [a] stays before
    [b] unless [cmp(a, b) > 0] (a NaN result counts as zero).  ECMAScript
    fixes the order this way whenever [cmp] is a consistent ordering. *)
Fixpoint insertSorted {A : Type} (cmp : A -> A -> Js.JsNum) (x : A) (l : list A) : list A :=
  match l with
  | [] => [x]
  | y :: l' =>
      if Js.ltb (Js.ofZ 0) (cmp x y) then y :: insertSorted cmp x l'
      else x :: l
  end.

Definition sortBy {A : Type} (cmp : A -> A -> Js.JsNum) (l : list A) : list A :=
  fold_right (insertSorted cmp) [] l.

(** [sorted.map((tile, index) => ...)] from a start index. *)
Fixpoint assignRanks (index : Z) (sorted : list TileEvResult) : list TilePreFin.t :=
  match sorted with
  | [] => []
  | tile :: rest =>
      {| TilePreFin.tileIndex := tileIndex tile;
         TilePreFin.deployed := deployed tile;
         TilePreFin.minersCount := minersCount tile;
         TilePreFin.othersStake := othersStake tile;
         TilePreFin.evRatio := evRatio tile;
         TilePreFin.maxProfitable := maxProfitable tile;
         TilePreFin.rankEv := index + 1 |} :: assignRanks (index + 1) rest
  end.

(** rankTilesByEv *)
Definition rankTilesByEv (tiles : list TileEvResult) : list TilePreFin.t :=
  let sorted := sortBy compareTiles tiles in
  assignRanks 0 sorted.

(** getBestTile: the first tile of rank 1, or null. *)
Definition getBestTile (tiles : list TilePreFin.t) : option TilePreFin.t :=
  find (fun t => TilePreFin.rankEv t =? 1) tiles.

(** getTilesAboveThreshold: the tiles with [evRatio >= minEv], in their order. *)
Definition getTilesAboveThreshold (tiles : list TilePreFin.t) (minEv : Js.JsNum)
    : list TilePreFin.t :=
  List.filter (fun t => Js.leb minEv (TilePreFin.evRatio t)) tiles.

End TileRanker.

(** ** infrastructure/database: schema and SqliteRoundRepository *)

Module Sqlite.

(** A row of table [rounds]; the post-fin columns are nullable. *)
Record RoundRow : Type := {
  ts_pre : Z;
  ts_post : option Z;
  slot_pre : Z;
  remaining_slots : Z;
  board_start_slot : Z;
  board_end_slot : Z;
  price_ore_sol : Js.JsNum;
  price_sol_usd : Js.JsNum;
  price_ore_usd : Js.JsNum;
  price_fetched_at : Z;
  total_deployed : Z;
  total_miners : Z;
  latency_fetch_ms : Z;
  latency_ev_ms : Z;
  mining_cost_pct : Js.JsNum;
  slot_hash : option (list byte);
  rng_u64 : option Z;
  winning_tile : option Z;
  split_top_miner : option Z;
  top_miner_reward : option Z;
  motherlode_paid : option Z;
  num_winners : option Z;
  total_winnings : option Z;
  total_vaulted : option Z;
  rent_payer : option string;
  top_miner_pubkey : option string
}.

(** A row of table [tiles], keyed by (round_id, tile_index). *)
Record TileRow : Type := {
  deployed : Z;
  miners_count : Z;
  others_stake : Z;
  ev_ratio : Js.JsNum;
  max_profitable : Z;
  rank_ev : Z;
  deployed_final : option Z;
  count_final : option Z
}.

(** The database: [rounds] by primary key round_id, [tiles] by primary key
    (round_id, tile_index). *)
Record Db : Type := {
  rounds : gmap Z RoundRow;
  tiles : gmap (Z * Z) TileRow
}.

Definition emptyDb : Db := {| rounds := ∅; tiles := ∅ |}.

(** FOREIGN KEY (round_id) REFERENCES rounds(round_id): every tile row has
    its round row. *)
Definition foreignKeysHold (db : Db) : Prop :=
  forall (rid idx : Z) (row : TileRow),
    tiles db !! (rid, idx) = Some row -> is_Some (rounds db !! rid).

(** A statement runs on the database and may fail on a constraint. *)
Definition Stmt : Type := Db -> outcome Db.

(** A number that the INTEGER PRIMARY KEY of [rounds] takes.  The key is
    bound as a double, and the engine turns a double into a row id when it
    is a whole number strictly between -2^63 and 2^63; 2^63, the double
    next to the largest round ids of 64 bits, is refused. *)
Definition fitsRowid (key : Z) : bool := (- 2 ^ 63 <? key) && (key <? 2 ^ 63).

(** INSERT INTO rounds (...), the post-fin columns left to their defaults.
    A NaN bound to a REAL column is stored as NULL.  The engine converts the
    key first, then tests NOT NULL in the order of the columns, then the
    primary key. *)
Definition stmtInsertRound (data : RoundPreFin.t) : Stmt := fun db =>
  let key := Js.Number (RoundPreFin.roundId data) in
  let price := RoundPreFin.price data in
  if negb (fitsRowid key) then Throw "datatype mismatch"
  else if Js.isNaN (PriceQuote.oreSol price) then
    Throw "NOT NULL constraint failed: rounds.price_ore_sol"
  else if Js.isNaN (PriceQuote.solUsd price) then
    Throw "NOT NULL constraint failed: rounds.price_sol_usd"
  else if Js.isNaN (PriceQuote.oreUsd price) then
    Throw "NOT NULL constraint failed: rounds.price_ore_usd"
  else if Js.isNaN (RoundPreFin.miningCostPct data) then
    Throw "NOT NULL constraint failed: rounds.mining_cost_pct"
  else
    match rounds db !! key with
    | Some _ => Throw "UNIQUE constraint failed: rounds.round_id"
    | None =>
        let row := {|
          ts_pre := RoundPreFin.tsPre data;
          ts_post := None;
          slot_pre := Js.Number (RoundPreFin.slotPre data);
          remaining_slots := RoundPreFin.remainingSlots data;
          board_start_slot := Js.Number (RoundPreFin.boardStartSlot data);
          board_end_slot := Js.Number (RoundPreFin.boardEndSlot data);
          price_ore_sol := PriceQuote.oreSol price;
          price_sol_usd := PriceQuote.solUsd price;
          price_ore_usd := PriceQuote.oreUsd price;
          price_fetched_at := PriceQuote.fetchedAt price;
          total_deployed := Js.Number (RoundPreFin.totalDeployed data);
          total_miners := Js.Number (RoundPreFin.totalMiners data);
          latency_fetch_ms := RoundPreFin.latencyFetchMs data;
          latency_ev_ms := RoundPreFin.latencyEvMs data;
          mining_cost_pct := RoundPreFin.miningCostPct data;
          slot_hash := None;
          rng_u64 := None;
          winning_tile := None;
          split_top_miner := Some 0;
          top_miner_reward := None;
          motherlode_paid := None;
          num_winners := None;
          total_winnings := None;
          total_vaulted := None;
          rent_payer := None;
          top_miner_pubkey := None
        |} in
        Return {| rounds := <[key := row]> (rounds db); tiles := tiles db |}
  end.

(** INSERT INTO tiles (...).  The engine tests NOT NULL in the order of
    the columns, then the CHECK constraints, then the primary key, and the
    foreign key last. *)
Definition stmtInsertTile (roundId : Z) (tile : TilePreFin.t) : Stmt := fun db =>
  let key := (Js.Number roundId, TilePreFin.tileIndex tile) in
  match TilePreFin.minersCount tile with
  | None => Throw "NOT NULL constraint failed: tiles.miners_count"
  | Some minersCount =>
      if Js.isNaN (TilePreFin.evRatio tile) then
        Throw "NOT NULL constraint failed: tiles.ev_ratio"
      else if negb ((0 <=? TilePreFin.tileIndex tile) && (TilePreFin.tileIndex tile <=? 24)) then
        Throw "CHECK constraint failed: tile_index >= 0 AND tile_index <= 24"
      else if negb ((1 <=? TilePreFin.rankEv tile) && (TilePreFin.rankEv tile <=? 25)) then
        Throw "CHECK constraint failed: rank_ev >= 1 AND rank_ev <= 25"
      else
        match tiles db !! key, rounds db !! Js.Number roundId with
        | Some _, _ => Throw "UNIQUE constraint failed: tiles.round_id, tiles.tile_index"
        | None, None => Throw "FOREIGN KEY constraint failed"
        | None, Some _ =>
            let row := {|
              deployed := Js.Number (TilePreFin.deployed tile);
              miners_count := Js.Number minersCount;
              others_stake := Js.Number (TilePreFin.othersStake tile);
              ev_ratio := TilePreFin.evRatio tile;
              max_profitable := Js.Number (TilePreFin.maxProfitable tile);
              rank_ev := TilePreFin.rankEv tile;
              deployed_final := None;
              count_final := None
            |} in
            Return {| rounds := rounds db; tiles := <[key := row]> (tiles db) |}
        end
  end.

(** UPDATE rounds SET ... WHERE round_id = @roundId; no row matched is no
    change.  The CHECK constraints are tested on the updated row. *)
Definition stmtUpdateRoundPostFin (data : RoundPostFin.t) : Stmt := fun db =>
  let key := Js.Number (RoundPostFin.roundId data) in
  match rounds db !! key with
  | None => Return db
  | Some old =>
      if negb ((0 <=? RoundPostFin.winningTile data) && (RoundPostFin.winningTile data <=? 24)) then
        Throw "CHECK constraint failed: winning_tile IS NULL OR (winning_tile >= 0 AND winning_tile <= 24)"
      else if negb (Nat.eqb (length (RoundPostFin.slotHash data)) 32) then
        Throw "CHECK constraint failed: slot_hash IS NULL OR length(slot_hash) = 32"
      else
        let row := {|
          ts_pre := ts_pre old;
          ts_post := Some (RoundPostFin.tsPost data);
          slot_pre := slot_pre old;
          remaining_slots := remaining_slots old;
          board_start_slot := board_start_slot old;
          board_end_slot := board_end_slot old;
          price_ore_sol := price_ore_sol old;
          price_sol_usd := price_sol_usd old;
          price_ore_usd := price_ore_usd old;
          price_fetched_at := price_fetched_at old;
          total_deployed := total_deployed old;
          total_miners := total_miners old;
          latency_fetch_ms := latency_fetch_ms old;
          latency_ev_ms := latency_ev_ms old;
          mining_cost_pct := mining_cost_pct old;
          slot_hash := Some (RoundPostFin.slotHash data);
          rng_u64 := Some (Js.Number (RoundPostFin.rngU64 data));
          winning_tile := Some (RoundPostFin.winningTile data);
          split_top_miner := Some (if RoundPostFin.splitTopMiner data then 1 else 0);
          top_miner_reward := Some (Js.Number (RoundPostFin.topMinerReward data));
          motherlode_paid := Some (Js.Number (RoundPostFin.motherlodePaid data));
          num_winners := option_map Js.Number (RoundPostFin.numWinners data);
          total_winnings := Some (Js.Number (RoundPostFin.totalWinnings data));
          total_vaulted := Some (Js.Number (RoundPostFin.totalVaulted data));
          rent_payer := Some (RoundPostFin.rentPayer data);
          top_miner_pubkey := Some (RoundPostFin.topMinerPubkey data)
        |} in
        Return {| rounds := <[key := row]> (rounds db); tiles := tiles db |}
  end.

(** UPDATE tiles SET deployed_final, count_final WHERE round_id AND tile_index *)
Definition stmtUpdateTilePostFin (roundId : Z) (tile : TilePostFin.t) : Stmt := fun db =>
  let key := (Js.Number roundId, TilePostFin.tileIndex tile) in
  match tiles db !! key with
  | None => Return db
  | Some old =>
      let row := {|
        deployed := deployed old;
        miners_count := miners_count old;
        others_stake := others_stake old;
        ev_ratio := ev_ratio old;
        max_profitable := max_profitable old;
        rank_ev := rank_ev old;
        deployed_final := option_map Js.Number (TilePostFin.deployedFinal tile);
        count_final := option_map Js.Number (TilePostFin.countFinal tile)
      |} in
      Return {| rounds := rounds db; tiles := <[key := row]> (tiles db) |}
  end.

(** DELETE FROM rounds WHERE round_id = ?, with ON DELETE CASCADE on tiles;
    the result is the number of round rows deleted. *)
Definition stmtDeleteRound (roundId : Z) (db : Db) : Db * Z :=
  let key := Js.Number roundId in
  match rounds db !! key with
  | None => (db, 0)
  | Some _ =>
      ({| rounds := delete key (rounds db);
          tiles := filter (fun entry => fst (fst entry) <> key) (tiles db) |}, 1)
  end.

(** SELECT 1 FROM rounds WHERE round_id = ? *)
Definition stmtExistsRound (roundId : Z) (db : Db) : bool :=
  match rounds db !! Js.Number roundId with
  | Some _ => true
  | None => false
  end.

(** Statements in sequence, stopped by the first failure. *)
Fixpoint runAll (stmts : list Stmt) : Stmt := fun db =>
  match stmts with
  | [] => Return db
  | stmt :: rest =>
      match stmt db with
      | Throw e => Throw e
      | Return db' => runAll rest db'
      end
  end.

(** [client.transaction(fn)]: committed when [fn] returns, rolled back (the
    database as it was) when it throws.  [fault] is a failure of the engine
    itself inside the transaction (disk, lock), which rolls back as well. *)
Definition transaction (fault : option string) (body : Stmt) (db : Db) : outcome Db * Db :=
  match fault with
  | Some e => (Throw e, db)
  | None =>
      match body db with
      | Return db' => (Return db', db')
      | Throw e => (Throw e, db)
      end
  end.

(** The body of the transaction of insertPreFin. *)
Definition insertPreFinBody (data : RoundPreFin.t) : Stmt :=
  runAll (stmtInsertRound data
          :: map (stmtInsertTile (RoundPreFin.roundId data)) (RoundPreFin.tiles data)).

(** The body of the transaction of completePostFin. *)
Definition completePostFinBody (data : RoundPostFin.t) : Stmt :=
  runAll (stmtUpdateRoundPostFin data
          :: map (stmtUpdateTilePostFin (RoundPostFin.roundId data)) (RoundPostFin.tiles data)).

End Sqlite.

(** ** The world of a use case: store, notifier, logger, clock *)

Module World.

(** A value of a log line's data object. *)
Inductive LogValue : Type :=
| VStr (s : string)
| VInt (z : Z)
| VBool (b : bool)
| VFixed (digits : nat) (x : Js.JsNum).

Inductive Level : Type := LevelDebug | LevelInfo | LevelWarn | LevelError.

Record LogLine : Type := {
  level : Level;
  channel : string;
  message : string;
  data : list (string * LogValue)
}.

(** A call of [notifier.notifyFailure(roundId, reason, details)]. *)
Record Notification : Type := {
  roundId : option Z;
  reason : string;
  details : list (string * LogValue)
}.

(** A call made on the repository or on the notifier. *)
Inductive Call : Type :=
| CallExists (roundId : Z)
| CallInsertPreFin (data : RoundPreFin.t)
| CallCompletePostFin (data : RoundPostFin.t)
| CallDeleteRound (roundId : Z)
| CallNotifyFailure (notification : Notification).

(** What the use cases change: the database, the notifications sent, the
    calls made on repository and notifier in their order, the lines logged,
    and the number of readings of the clock taken so far. *)
Record t : Type := {
  db : Sqlite.Db;
  outbox : list Notification;
  calls : list Call;
  logs : list LogLine;
  clockReads : nat
}.

(** What the use cases only read: the clock, the outcome of the on-chain
    fetch per round (all retries done), the outcomes of the two price
    fetchers, and the failures of the database engine inside the two write
    transactions and in the delete. *)
Record Env : Type := {
  clock : nat -> Z;
  fetchRoundState : Z -> outcome RoundDecoder.RoundAccount;
  priceFetch : outcome PriceQuote.t;
  miningCostFetch : outcome MiningCostData.t;
  insertFault : option string;
  completeFault : option string;
  deleteFault : option string
}.

(** A computation with effects on the world that may throw. *)
Definition Eff (A : Type) : Type := t -> outcome A * t.

Definition ret {A : Type} (a : A) : Eff A := fun w => (Return a, w).

Definition throw {A : Type} (e : string) : Eff A := fun w => (Throw e, w).

Definition bind {A B : Type} (m : Eff A) (k : A -> Eff B) : Eff B := fun w =>
  match m w with
  | (Return a, w') => k a w'
  | (Throw e, w') => (Throw e, w')
  end.

(** [try { body } catch (error) { handler(error.message) }] *)
Definition tryCatch {A : Type} (body : Eff A) (handler : string -> Eff A) : Eff A := fun w =>
  match body w with
  | (Return a, w') => (Return a, w')
  | (Throw e, w') => handler e w'
  end.

Definition lift {A : Type} (o : outcome A) : Eff A := fun w => (o, w).

(** [Date.now()] *)
Definition dateNow (env : Env) : Eff Z := fun w =>
  (Return (clock env (clockReads w)),
   {| db := db w; outbox := outbox w; calls := calls w; logs := logs w;
      clockReads := S (clockReads w) |}).

(** [logger.<level>(message, data)] of the logger of a channel. *)
Definition log (lvl : Level) (chan msg : string) (d : list (string * LogValue)) : Eff unit :=
  fun w =>
    (Return tt,
     {| db := db w; outbox := outbox w; calls := calls w;
        logs := logs w ++ [{| level := lvl; channel := chan; message := msg; data := d |}];
        clockReads := clockReads w |}).

(** The call is noted in the trace. *)
Definition called (c : Call) : Eff unit := fun w =>
  (Return tt,
   {| db := db w; outbox := outbox w; calls := calls w ++ [c]; logs := logs w;
      clockReads := clockReads w |}).

(** [notifier.notifyFailure]: the notification is handed to the sink, which
    swallows its own failures. *)
Definition notifyFailure (rid : option Z) (why : string) (d : list (string * LogValue))
    : Eff unit := fun w =>
  let n := {| roundId := rid; reason := why; details := d |} in
  (Return tt,
   {| db := db w; outbox := outbox w ++ [n]; calls := calls w ++ [CallNotifyFailure n];
      logs := logs w; clockReads := clockReads w |}).

Definition setDb (w : t) (d : Sqlite.Db) : t :=
  {| db := d; outbox := outbox w; calls := calls w; logs := logs w;
     clockReads := clockReads w |}.

End World.

Declare Scope eff_scope.
Delimit Scope eff_scope with eff.
Notation "'let*' x ':=' m 'in' k" := (World.bind m (fun x => k))
  (at level 10, x name, m at level 100, k at level 200) : eff_scope.
Notation "m ';;' k" := (World.bind m (fun _ => k))
  (at level 100, k at level 200, right associativity) : eff_scope.

(** ** SqliteRoundRepository *)

Module Repository.

Import World.
Local Open Scope string_scope.
Local Open Scope Z_scope.
Local Open Scope eff_scope.

Definition chan : string := "Collector:Repository".

(** The two transactional writes may throw: on a constraint violation inside
    the transaction, or on a fault of the database engine, which the
    environment decides.  The delete is a single statement; it throws on a
    fault of the engine (a database that is not open, a lock), and then
    deletes nothing.  The queries are taken to succeed. *)

(** insertPreFin *)
Definition insertPreFin (env : Env) (data : RoundPreFin.t) : Eff unit :=
  called (CallInsertPreFin data) ;;
  fun w =>
    match Sqlite.transaction (insertFault env) (Sqlite.insertPreFinBody data) (db w) with
    | (Throw e, d) => (Throw e, setDb w d)
    | (Return _, d) =>
        log LevelInfo chan "Inserted pre-fin data"
          [("roundId", VStr (showZ (RoundPreFin.roundId data)))] (setDb w d)
    end.

(** completePostFin *)
Definition completePostFin (env : Env) (data : RoundPostFin.t) : Eff unit :=
  called (CallCompletePostFin data) ;;
  fun w =>
    match Sqlite.transaction (completeFault env) (Sqlite.completePostFinBody data) (db w) with
    | (Throw e, d) => (Throw e, setDb w d)
    | (Return _, d) =>
        log LevelInfo chan "Completed post-fin data"
          [("roundId", VStr (showZ (RoundPostFin.roundId data)));
           ("winningTile", VInt (RoundPostFin.winningTile data))] (setDb w d)
    end.

(** deleteRound *)
Definition deleteRound (env : Env) (roundId : Z) : Eff bool :=
  called (CallDeleteRound roundId) ;;
  match deleteFault env with
  | Some e => throw e
  | None =>
      fun w =>
        let '(d, changes) := Sqlite.stmtDeleteRound roundId (db w) in
        if 0 <? changes then
          (log LevelWarn chan "Deleted round" [("roundId", VStr (showZ roundId))] ;; ret true)
            (setDb w d)
        else (Return false, setDb w d)
  end.

(** exists *)
Definition exists_ (roundId : Z) : Eff bool :=
  called (CallExists roundId) ;;
  fun w => (Return (Sqlite.stmtExistsRound roundId (db w)), w).

(** getPendingRoundIds: SELECT round_id FROM rounds WHERE ts_post IS NULL,
    in the order of the primary key. *)
Definition getPendingRoundIds : Eff (list Z) := fun w =>
  (Return
     (merge_sort Z.le
        (map fst
           (map_to_list
              (filter (fun entry => Sqlite.ts_post (snd entry) = None)
                 (Sqlite.rounds (db w)))))),
   w).

(** getLatestRoundId: SELECT MAX(round_id) FROM rounds, null on an empty
    table. *)
Definition getLatestRoundId : Eff (option Z) := fun w =>
  (Return
     (fold_right
        (fun key latest =>
           match latest with
           | Some other => Some (Z.max key other)
           | None => Some key
           end)
        None
        (map fst (map_to_list (Sqlite.rounds (db w))))),
   w).

End Repository.

(** ** infrastructure/fetchers/round-state.fetcher.ts *)

Module RoundStateFetcher.

Import World.
Local Open Scope string_scope.
Local Open Scope Z_scope.
Local Open Scope eff_scope.

(** fetchRoundState: the outcome after the retries. *)
Definition fetchRoundState (env : Env) (roundId : Z) : Eff RoundDecoder.RoundAccount :=
  lift (World.fetchRoundState env roundId).

(** fetchRoundStateOrNull *)
Definition fetchRoundStateOrNull (env : Env) (roundId : Z)
    : Eff (option RoundDecoder.RoundAccount) :=
  tryCatch
    (let* roundState := fetchRoundState env roundId in ret (Some roundState))
    (fun _ =>
       log LevelDebug "Collector:RoundStateFetcher" "Round not found"
         [("roundId", VStr (showZ roundId))] ;;
       ret None).

End RoundStateFetcher.

(** ** application/use-cases/complete-post-fin.ts *)

Module CompletePostFin.

Import World.
Local Open Scope string_scope.
Local Open Scope Z_scope.
Local Open Scope eff_scope.

Definition chan : string := "Collector:PostFin".

Record PostFinContext : Type := {
  previousRoundId : Z;
  newBoard : BoardDecoder.BoardAccount
}.

(** handleFailure: delete the incomplete round and notify. *)
Definition handleFailure (env : Env) (roundId : Z) (reason : string) : Eff unit :=
  let* deleted := Repository.deleteRound env roundId in
  (if deleted : bool then
     log LevelWarn chan "Deleted incomplete round" [("roundId", VStr (showZ roundId))]
   else ret tt) ;;
  notifyFailure (Some roundId) reason [].

(** The tile post-fin data of the 25 tiles. *)
Definition buildTiles (roundState : RoundDecoder.RoundAccount) : list TilePostFin.t :=
  map (fun i : nat =>
         {| TilePostFin.tileIndex := Z.of_nat i;
            TilePostFin.deployedFinal := nth_error (RoundDecoder.deployed roundState) i;
            TilePostFin.countFinal := nth_error (RoundDecoder.counts roundState) i |})
      (seq 0 25).

(** The RoundPostFin record derived from the fetched round state. *)
Definition buildPostFin (roundId startTime : Z) (roundState : RoundDecoder.RoundAccount)
    : outcome RoundPostFin.t :=
  match RngCalculator.computeRng (RoundDecoder.slotHash roundState) with
  | Throw e => Throw e
  | Return rngU64 =>
      match RngCalculator.computeWinningTile (RoundDecoder.slotHash roundState) with
      | Throw e => Throw e
      | Return winningTile =>
          let splitTopMiner :=
            PublicKey.equals (RoundDecoder.topMiner roundState) Constants.SPLIT_ADDRESS in
          let tiles := buildTiles roundState in
          Return {|
            RoundPostFin.roundId := roundId;
            RoundPostFin.tsPost := startTime;
            RoundPostFin.slotHash := RoundDecoder.slotHash roundState;
            RoundPostFin.rngU64 := rngU64;
            RoundPostFin.winningTile := winningTile;
            RoundPostFin.splitTopMiner := splitTopMiner;
            RoundPostFin.topMinerReward := RoundDecoder.topMinerReward roundState;
            RoundPostFin.motherlodePaid := RoundDecoder.motherlode roundState;
            RoundPostFin.numWinners :=
              nth_error (RoundDecoder.counts roundState) (Z.to_nat winningTile);
            RoundPostFin.totalWinnings := RoundDecoder.totalWinnings roundState;
            RoundPostFin.totalVaulted := RoundDecoder.totalVaulted roundState;
            RoundPostFin.rentPayer := PublicKey.toBase58 (RoundDecoder.rentPayer roundState);
            RoundPostFin.topMinerPubkey := PublicKey.toBase58 (RoundDecoder.topMiner roundState);
            RoundPostFin.tiles := tiles
          |}
      end
  end.

(** [x.toString()] of a value that may be [undefined]. *)
Definition toStringOf (x : option Z) : Eff string :=
  match x with
  | Some z => ret (showZ z)
  | None => throw "Cannot read properties of undefined (reading 'toString')"
  end.

(** The body of the [try] of completePostFin. *)
Definition completionSequence (env : Env) (roundId startTime : Z) : Eff bool :=
  let* exists_ := Repository.exists_ roundId in
  if negb exists_ then
    log LevelWarn chan "Round not found in DB, skipping post-fin"
      [("roundId", VStr (showZ roundId))] ;;
    ret true
  else
    let* roundState := RoundStateFetcher.fetchRoundStateOrNull env roundId in
    match roundState with
    | None =>
        log LevelError chan "Round account not found on-chain" [("roundId", VStr (showZ roundId))] ;;
        handleFailure env roundId "Round account not found on-chain" ;;
        ret false
    | Some roundState =>
        if negb (RoundDecoder.isSlotHashValid (RoundDecoder.slotHash roundState)) then
          log LevelError chan "Invalid slot hash (all zeros)" [("roundId", VStr (showZ roundId))] ;;
          handleFailure env roundId "Invalid slot hash (refund round)" ;;
          ret false
        else
          let* postFin := lift (buildPostFin roundId startTime roundState) in
          Repository.completePostFin env postFin ;;
          let* finished := dateNow env in
          let totalTime := finished - startTime in
          let* numWinners := toStringOf (RoundPostFin.numWinners postFin) in
          log LevelInfo chan "Post-fin completion successful"
            [("roundId", VStr (showZ roundId));
             ("totalTimeMs", VInt totalTime);
             ("winningTile", VInt (RoundPostFin.winningTile postFin));
             ("numWinners", VStr numWinners);
             ("totalWinnings", VStr (showZ (RoundDecoder.totalWinnings roundState)))] ;;
          ret true
    end.

(** completePostFin *)
Definition completePostFin (env : Env) (context : PostFinContext) : Eff bool :=
  let roundId := previousRoundId context in
  let* startTime := dateNow env in
  log LevelInfo chan "Starting post-fin completion"
    [("roundId", VStr (showZ roundId));
     ("newRoundId", VStr (showZ (BoardDecoder.roundId (newBoard context))))] ;;
  tryCatch (completionSequence env roundId startTime)
    (fun message =>
       log LevelError chan "Post-fin completion failed"
         [("roundId", VStr (showZ roundId)); ("error", VStr message)] ;;
       handleFailure env roundId ("Post-fin completion failed: " ++ message) ;;
       ret false).

(** One turn of the loop of completePendingRounds; [boardFor] builds the
    board handed to completePostFin. *)
Definition completePending (env : Env) (boardFor : Z -> BoardDecoder.BoardAccount)
    (roundId : Z) : Eff unit :=
  tryCatch
    (let* roundState := RoundStateFetcher.fetchRoundStateOrNull env roundId in
     match roundState with
     | None =>
         log LevelWarn chan "Pending round not found on-chain, deleting"
           [("roundId", VStr (showZ roundId))] ;;
         Repository.deleteRound env roundId ;;
         notifyFailure (Some roundId) "Pending round not found on-chain (cleanup)" []
     | Some roundState =>
         if negb (RoundDecoder.isSlotHashValid (RoundDecoder.slotHash roundState)) then
           log LevelWarn chan "Pending round has invalid slot hash, deleting"
             [("roundId", VStr (showZ roundId))] ;;
           Repository.deleteRound env roundId ;;
           notifyFailure (Some roundId) "Pending round has invalid slot hash (refund)" []
         else
           completePostFin env
             {| previousRoundId := roundId; newBoard := boardFor roundId |} ;;
           ret tt
     end)
    (fun message =>
       log LevelError chan "Failed to complete pending round"
         [("roundId", VStr (showZ roundId)); ("error", VStr message)]).

Fixpoint forEach {A : Type} (f : A -> Eff unit) (l : list A) : Eff unit :=
  match l with
  | [] => ret tt
  | x :: rest => f x ;; forEach f rest
  end.

Definition completePendingRoundsWith (env : Env) (boardFor : Z -> BoardDecoder.BoardAccount)
    : Eff unit :=
  let* pendingIds := Repository.getPendingRoundIds in
  if Nat.eqb (length pendingIds) 0 then
    log LevelDebug chan "No pending rounds to complete" []
  else
    log LevelInfo chan "Found pending rounds to complete"
      [("count", VInt (Z.of_nat (length pendingIds)))] ;;
    forEach (completePending env boardFor) pendingIds.

(** The board made up for a pending round: the next round id, slots zero. *)
Definition mockBoard (roundId : Z) : BoardDecoder.BoardAccount :=
  {| BoardDecoder.roundId := roundId + 1;
     BoardDecoder.startSlot := 0;
     BoardDecoder.endSlot := 0 |}.

(** completePendingRounds *)
Definition completePendingRounds (env : Env) : Eff unit :=
  completePendingRoundsWith env mockBoard.

End CompletePostFin.

(** ** application/use-cases/collect-pre-fin.ts *)

Module CollectPreFin.

Import World.
Local Open Scope string_scope.
Local Open Scope Z_scope.
Local Open Scope eff_scope.

Definition chan : string := "Collector:Phase2-EV".

Record PreFinContext : Type := {
  board : BoardDecoder.BoardAccount;
  remainingSlots : Z;
  currentSlot : Z
}.

Record CachedPhase1Data : Type := {
  priceQuote : PriceQuote.t;
  miningCost : MiningCostData.t;
  fetchedAt : Z
}.

(** [Promise.all([priceFetcher.fetch(), miningCostFetcher.fetch()])]: both
    values, or the error of a fetcher that failed. *)
Definition fetchBoth (env : Env) : Eff (PriceQuote.t * MiningCostData.t) :=
  match priceFetch env, miningCostFetch env with
  | Return p, Return m => ret (p, m)
  | Throw e, _ => throw e
  | _, Throw e => throw e
  end.

(** The price data of the collection: the cache of phase 1, or a fetch now.
    The result carries the price fetch latency. *)
Definition obtainPrices (env : Env) (cachedData : option CachedPhase1Data)
    : Eff (PriceQuote.t * MiningCostData.t * Z) :=
  match cachedData with
  | Some cached =>
      let* now := dateNow env in
      log LevelDebug chan "Using cached Phase 1 data" [("cachedAge", VInt (now - fetchedAt cached))] ;;
      ret (priceQuote cached, miningCost cached, 0)
  | None =>
      log LevelWarn chan "No cached prices, fetching now (Phase 1 was missed)" [] ;;
      let* priceFetchStart := dateNow env in
      let* both := fetchBoth env in
      let* priceFetchEnd := dateNow env in
      ret (fst both, snd both, priceFetchEnd - priceFetchStart)
  end.

(** [rankedTiles[0]?.evRatio.toFixed(4)] *)
Definition bestEvRatio (rankedTiles : list TilePreFin.t) : list (string * LogValue) :=
  match rankedTiles with
  | best :: _ => [("bestEvRatio", VFixed 4 (TilePreFin.evRatio best))]
  | [] => []
  end.

(** The body of the [try] of collectPreFin. *)
Definition collectionSequence (env : Env) (context : PreFinContext)
    (cachedData : option CachedPhase1Data) (startTime : Z) : Eff bool :=
  let roundId := BoardDecoder.roundId (board context) in
  let usedCache := match cachedData with Some _ => true | None => false end in
  let* exists_ := Repository.exists_ roundId in
  if exists_ : bool then
    log LevelWarn chan "Round already exists, skipping" [("roundId", VStr (showZ roundId))] ;;
    ret true
  else
    let* prices := obtainPrices env cachedData in
    let '(priceQuote, miningCost, priceFetchLatency) := prices in
    let* roundStateFetchStart := dateNow env in
    let* roundState := RoundStateFetcher.fetchRoundState env roundId in
    let* roundStateFetchEnd := dateNow env in
    let roundStateFetchLatency := roundStateFetchEnd - roundStateFetchStart in
    log LevelDebug chan "Round state fetched"
      [("latencyMs", VInt roundStateFetchLatency);
       ("totalDeployed", VStr (showZ (RoundDecoder.totalDeployed roundState)))] ;;
    let* evStartTime := dateNow env in
    let* tileEvs := lift (EvCalculator.calculateAllTileEvs roundState priceQuote) in
    let* evEndTime := dateNow env in
    let evLatency := evEndTime - evStartTime in
    let rankedTiles := TileRanker.rankTilesByEv tileEvs in
    let preFin := {|
      RoundPreFin.roundId := roundId;
      RoundPreFin.tsPre := startTime;
      RoundPreFin.slotPre := currentSlot context;
      RoundPreFin.remainingSlots := remainingSlots context;
      RoundPreFin.boardStartSlot := BoardDecoder.startSlot (board context);
      RoundPreFin.boardEndSlot := BoardDecoder.endSlot (board context);
      RoundPreFin.price := priceQuote;
      RoundPreFin.totalDeployed := RoundDecoder.totalDeployed roundState;
      RoundPreFin.totalMiners := RoundDecoder.getTotalMiners roundState;
      RoundPreFin.latencyFetchMs := roundStateFetchLatency + priceFetchLatency;
      RoundPreFin.latencyEvMs := evLatency;
      RoundPreFin.miningCostPct := MiningCostData.evPercent miningCost;
      RoundPreFin.tiles := rankedTiles
    |} in
    Repository.insertPreFin env preFin ;;
    let* finished := dateNow env in
    let totalTime := finished - startTime in
    log LevelInfo chan "Phase 2: EV snapshot completed"
      ([("roundId", VStr (showZ roundId));
        ("totalTimeMs", VInt totalTime);
        ("roundStateFetchMs", VInt roundStateFetchLatency);
        ("evLatencyMs", VInt evLatency);
        ("usedCachedPrices", VBool usedCache);
        ("totalDeployed", VStr (showZ (RoundDecoder.totalDeployed roundState)))]
       ++ bestEvRatio rankedTiles)%list ;;
    ret true.

(** collectPreFin *)
Definition collectPreFin (env : Env) (context : PreFinContext)
    (cachedData : option CachedPhase1Data) : Eff bool :=
  let roundId := BoardDecoder.roundId (board context) in
  let usedCache := match cachedData with Some _ => true | None => false end in
  let* startTime := dateNow env in
  log LevelInfo chan "Phase 2: Starting EV snapshot"
    [("roundId", VStr (showZ roundId));
     ("remainingSlots", VInt (remainingSlots context));
     ("usedCachedPrices", VBool usedCache)] ;;
  tryCatch (collectionSequence env context cachedData startTime)
    (fun message =>
       log LevelError chan "Phase 2: EV snapshot failed"
         [("roundId", VStr (showZ roundId)); ("error", VStr message)] ;;
       notifyFailure (Some roundId) ("EV snapshot failed: " ++ message)
         [("remainingSlots", VInt (remainingSlots context));
          ("phase", VStr "Phase 2 (EV Snapshot)")] ;;
       ret false).

End CollectPreFin.

(** ** presentation/board-watcher.ts *)

Module BoardWatcher.

Import BoardDecoder.

(** The callbacks of BoardWatcherEvents, as the events emitted. *)
Inductive Event : Type :=
| OnBoardUpdate (board : BoardAccount)
| OnPostFinTrigger (previousRoundId : Z) (newBoard : BoardAccount)
| OnPricesFetchTrigger (board : BoardAccount) (remainingSlots currentSlot : Z)
| OnEvSnapshotTrigger (board : BoardAccount) (remainingSlots currentSlot : Z).

Record Config : Type := {
  preFinThresholdSlots : Z;
  evSnapshotSlots : Z
}.

(** The fields of the watcher that processBoard reads and writes. *)
Record State : Type := {
  lastBoard : option BoardAccount;
  pricesFetchTriggeredForRound : option Z;
  evSnapshotTriggeredForRound : option Z
}.

Definition initial : State :=
  {| lastBoard := None;
     pricesFetchTriggeredForRound := None;
     evSnapshotTriggeredForRound := None |}.

(** [flag !== roundId] for a flag that is a round id or null. *)
Definition differs (flag : option Z) (roundId : Z) : bool :=
  match flag with
  | Some fired => negb (fired =? roundId)
  | None => true
  end.

(** The post-fin check: a larger round id resets both flags. *)
Definition checkPostFin (previousBoard : option BoardAccount) (board : BoardAccount)
    (s : State) : State * list Event :=
  match previousBoard with
  | Some previous =>
      if BoardDecoder.roundId previous <? BoardDecoder.roundId board then
        ({| lastBoard := lastBoard s;
            pricesFetchTriggeredForRound := None;
            evSnapshotTriggeredForRound := None |},
         [OnPostFinTrigger (BoardDecoder.roundId previous) board])
      else (s, [])
  | None => (s, [])
  end.

(** Phase 1: the prices fetch trigger. *)
Definition checkPricesFetch (cfg : Config) (board : BoardAccount)
    (remainingSlots currentSlot : Z) (s : State) : State * list Event :=
  if (0 <=? remainingSlots) && (remainingSlots <=? preFinThresholdSlots cfg)
     && differs (pricesFetchTriggeredForRound s) (BoardDecoder.roundId board) then
    ({| lastBoard := lastBoard s;
        pricesFetchTriggeredForRound := Some (BoardDecoder.roundId board);
        evSnapshotTriggeredForRound := evSnapshotTriggeredForRound s |},
     [OnPricesFetchTrigger board remainingSlots currentSlot])
  else (s, []).

(** Phase 2: the EV snapshot trigger. *)
Definition checkEvSnapshot (cfg : Config) (board : BoardAccount)
    (remainingSlots currentSlot : Z) (s : State) : State * list Event :=
  if (0 <=? remainingSlots) && (remainingSlots <=? evSnapshotSlots cfg)
     && differs (evSnapshotTriggeredForRound s) (BoardDecoder.roundId board) then
    ({| lastBoard := lastBoard s;
        pricesFetchTriggeredForRound := pricesFetchTriggeredForRound s;
        evSnapshotTriggeredForRound := Some (BoardDecoder.roundId board) |},
     [OnEvSnapshotTrigger board remainingSlots currentSlot])
  else (s, []).

(** processBoard; [currentSlot] is the slot the connection reports when the
    board is processed. *)
Definition processBoard (cfg : Config) (board : BoardAccount) (currentSlot : Z) (s : State)
    : State * list Event :=
  let previousBoard := lastBoard s in
  let s0 := {| lastBoard := Some board;
               pricesFetchTriggeredForRound := pricesFetchTriggeredForRound s;
               evSnapshotTriggeredForRound := evSnapshotTriggeredForRound s |} in
  let '(s1, postFin) := checkPostFin previousBoard board s0 in
  if isRoundActive board then
    let remainingSlots := getRemainingSlots board currentSlot in
    let '(s2, phase1) := checkPricesFetch cfg board remainingSlots currentSlot s1 in
    let '(s3, phase2) := checkEvSnapshot cfg board remainingSlots currentSlot s2 in
    (s3, OnBoardUpdate board :: postFin ++ phase1 ++ phase2)
  else (s1, OnBoardUpdate board :: postFin).

(** The boards delivered to the watcher, each with the current slot at its
    delivery, processed in order. *)
Fixpoint processAll (cfg : Config) (updates : list (BoardAccount * Z)) (s : State)
    : State * list Event :=
  match updates with
  | [] => (s, [])
  | (board, currentSlot) :: rest =>
      let '(s', events) := processBoard cfg board currentSlot s in
      let '(s'', events') := processAll cfg rest s' in
      (s'', events ++ events')
  end.

(** The number of EV snapshot triggers, and of prices fetch triggers, fired
    for a round id. *)
Definition isEvSnapshotFor (roundId : Z) (e : Event) : bool :=
  match e with
  | OnEvSnapshotTrigger board _ _ => BoardDecoder.roundId board =? roundId
  | _ => false
  end.

Definition isPricesFetchFor (roundId : Z) (e : Event) : bool :=
  match e with
  | OnPricesFetchTrigger board _ _ => BoardDecoder.roundId board =? roundId
  | _ => false
  end.

Definition evSnapshotCount (roundId : Z) (events : list Event) : nat :=
  length (List.filter (isEvSnapshotFor roundId) events).

Definition pricesFetchCount (roundId : Z) (events : list Event) : nat :=
  length (List.filter (isPricesFetchFor roundId) events).

(** processAccountInfo: account data that does not decode is logged and
    dropped. *)
Definition processAccountInfo (cfg : Config) (data : list byte) (currentSlot : Z) (s : State)
    : State * list Event :=
  match decodeBoardAccount data with
  | Return board => processBoard cfg board currentSlot s
  | Throw _ => (s, [])
  end.

(** getCurrentBoard *)
Definition getCurrentBoard (s : State) : option BoardAccount := lastBoard s.

End BoardWatcher.

(** ** application/use-cases/handle-failure.ts *)

Module HandleFailure.

Import World.
Local Open Scope string_scope.
Local Open Scope Z_scope.
Local Open Scope eff_scope.

Definition chan : string := "Collector:FailureHandler".

(** handleCollectionFailure: delete the round if its id is known, then
    notify; a failure of either step is logged and goes no further. *)
Definition handleCollectionFailure (env : Env) (roundId : option Z) (reason : string)
    (details : list (string * LogValue)) : Eff unit :=
  log LevelWarn chan "Handling collection failure"
    [("roundId", VStr (match roundId with Some r => showZ r | None => "unknown" end));
     ("reason", VStr reason)] ;;
  match roundId with
  | Some r =>
      tryCatch
        (let* deleted := Repository.deleteRound env r in
         if deleted : bool then
           log LevelInfo chan "Deleted failed round from database" [("roundId", VStr (showZ r))]
         else ret tt)
        (fun message =>
           log LevelError chan "Failed to delete round from database"
             [("roundId", VStr (showZ r)); ("error", VStr message)])
  | None => ret tt
  end ;;
  tryCatch (notifyFailure roundId reason details)
    (fun message =>
       log LevelError chan "Failed to send Discord notification" [("error", VStr message)]).

End HandleFailure.

(** ** shared/retry.ts *)

Module Retry.

Local Open Scope string_scope.
Local Open Scope Z_scope.

Record RetryOptions : Type := {
  retries : Z;
  delayMs : Z;
  name : string;
  silent : bool
}.

(** The defaults of the destructured options. *)
Definition defaults : RetryOptions :=
  {| retries := 3; delayMs := 5000; name := "operation"; silent := false |}.

(** What a run of withRetry does, in its order: a call of [fn], a warning
    logged, a sleep. *)
Inductive Step : Type :=
| Called (attempt : Z)
| Warned (message error : string)
| Slept (ms : Z).

(** The end of a run: a value returned, or [lastError] thrown, which is
    [null] when no attempt was made. *)
Inductive Ending (A : Type) : Type :=
| Returned (a : A)
| Threw (lastError : option string).
Arguments Returned {A} a.
Arguments Threw {A} lastError.

(** The loop [for (attempt = ...; attempt <= retries; attempt++)] with
    [remaining] turns to go.  [fn] gives the outcome of each call by the
    number of the attempt. *)
Fixpoint attempts {A : Type} (fn : Z -> outcome A) (options : RetryOptions)
    (remaining : nat) (attempt : Z) (lastError : option string) : Ending A * list Step :=
  match remaining with
  | O => (Threw lastError, [])
  | S remaining' =>
      match fn attempt with
      | Return a => (Returned a, [Called attempt])
      | Throw error =>
          let warned :=
            if silent options then []
            else [Warned (name options ++ " failed (attempt " ++ showZ attempt ++ "/"
                          ++ showZ (retries options) ++ ")") error] in
          let slept := if attempt <? retries options then [Slept (delayMs options)] else [] in
          let '(ending, steps) :=
            attempts fn options remaining' (attempt + 1) (Some error) in
          (ending, Called attempt :: warned ++ slept ++ steps)
      end
  end.

(** withRetry *)
Definition withRetry {A : Type} (fn : Z -> outcome A) (options : RetryOptions)
    : Ending A * list Step :=
  attempts fn options (Z.to_nat (retries options)) 1 None.

(** The calls of [fn] and the sleeps of a run. *)
Definition callsOf (steps : list Step) : list Z :=
  flat_map (fun step => match step with Called attempt => [attempt] | _ => [] end) steps.

Definition sleepsOf (steps : list Step) : list Z :=
  flat_map (fun step => match step with Slept ms => [ms] | _ => [] end) steps.

End Retry.

(** ** infrastructure/fetchers/base.fetcher.ts *)

Module BaseFetcher.

Import Retry.
Local Open Scope string_scope.
Local Open Scope Z_scope.

(** The retry options of a fetcher: its own over the defaults of the class. *)
Definition retryOptions (name : string) (retries delayMs : option Z) : RetryOptions :=
  {| Retry.retries := match retries with Some r => r | None => 3 end;
     Retry.delayMs := match delayMs with Some d => d | None => 5000 end;
     Retry.name := name;
     Retry.silent := false |}.

(** fetch: doFetch with retries; the last error is wrapped in a FetchError,
    whose message carries the name of the fetcher. *)
Definition fetch {A : Type} (name : string) (options : RetryOptions) (doFetch : Z -> outcome A)
    : outcome A * list Step :=
  match withRetry doFetch options with
  | (Returned a, steps) => (Return a, steps)
  | (Threw (Some message), steps) => (Throw ("[" ++ name ++ "] " ++ message), steps)
  | (Threw None, steps) => (Throw ("[" ++ name ++ "] null"), steps)
  end.

End BaseFetcher.


(** * Vocabulary of the specification *)

(** ** Seeds as little-endian integers *)

Module Spec.

Definition byteValue (b : byte) : Z := Z.of_N (Byte.to_N b).

(** The unsigned integer a byte string spells, least significant byte first. *)
Fixpoint littleEndian (bs : list byte) : Z :=
  match bs with
  | [] => 0
  | b :: rest => byteValue b + 256 * littleEndian rest
  end.

(** The [size] bytes of the seed from [offset] on. *)
Definition chunk (offset size : nat) (seed : list byte) : list byte :=
  firstn size (skipn offset seed).

(** XOR of the four 8-byte little-endian integers at offsets 0, 8, 16, 24. *)
Definition xorOfU64s (seed : list byte) : Z :=
  Z.lxor (Z.lxor (Z.lxor (littleEndian (chunk 0 8 seed)) (littleEndian (chunk 8 8 seed)))
            (littleEndian (chunk 16 8 seed))) (littleEndian (chunk 24 8 seed)).

(** XOR of the four 2-byte little-endian integers at offsets 0, 2, 4, 6. *)
Definition xorOfU16s (seed : list byte) : Z :=
  Z.lxor (Z.lxor (Z.lxor (littleEndian (chunk 0 2 seed)) (littleEndian (chunk 2 2 seed)))
            (littleEndian (chunk 4 2 seed))) (littleEndian (chunk 6 2 seed)).

End Spec.

(** ** Signs of real-valued numbers *)

Module NumberSpec.
Import Js.

(** A finite value that is not negative, and one that is positive. *)
Definition nonneg (x : JsNum) : Prop :=
  match x with Fin q => (0 <= q)%Q | _ => False end.

Definition positive (x : JsNum) : Prop :=
  match x with Fin q => (0 < q)%Q | _ => False end.

End NumberSpec.

(** ** EV ratios *)

Module EvSpec.
Import EvCalculator.

(** The denominator of the EV ratio of a tile: the others' stake on it plus
    the probe stake. *)
Definition denominator (deployed : Z) : Js.JsNum :=
  Js.add (SharedTypes.lamportsToSol (Some deployed)) minStakeSol.

(** The EV ratios of the tiles produced, none when the calculation threw. *)
Definition ratiosOf (o : outcome (list TileEvResult)) : list Js.JsNum :=
  match o with
  | Return tiles => map evRatio tiles
  | Throw _ => []
  end.

End EvSpec.

(** ** The ranking rule *)

Module RankingSpec.
Import Js EvCalculator TileRanker.

(** The ranking rule on (EV ratio, maximal profitable stake): an infinite
    ratio before a finite one; among ratios of one kind the larger first;
    equal ratios by the larger maximal stake. *)
Definition before (ra : JsNum) (ma : Z) (rb : JsNum) (mb : Z) : Prop :=
  (isFinite ra = false /\ isFinite rb = true)
  \/ (isFinite ra = isFinite rb /\ ltb rb ra = true)
  \/ (eqb ra rb = true /\ mb <= ma).

Definition rankedBefore (a b : TilePreFin.t) : Prop :=
  before (TilePreFin.evRatio a) (TilePreFin.maxProfitable a)
         (TilePreFin.evRatio b) (TilePreFin.maxProfitable b).

(** The tile data of a ranked tile, the rank forgotten. *)
Definition unranked (t : TilePreFin.t) : TileEvResult :=
  {| tileIndex := TilePreFin.tileIndex t;
     deployed := TilePreFin.deployed t;
     minersCount := TilePreFin.minersCount t;
     othersStake := TilePreFin.othersStake t;
     evRatio := TilePreFin.evRatio t;
     maxProfitable := TilePreFin.maxProfitable t |}.

(** [a] stays in front of [b]: the comparator does not ask for a swap. *)
Definition keeps (a b : TileEvResult) : Prop :=
  Js.ltb (ofZ 0) (compareTiles a b) = false.

(** The EV ratio of the tile is not NaN. *)
Definition isNumber (t : TileEvResult) : Prop := isNaN (evRatio t) = false.

End RankingSpec.

(** ** Boards delivered to the watcher *)

Module WatcherSpec.
Import BoardDecoder BoardWatcher.

(** The round ids of the boards delivered never decrease. *)
Fixpoint neverDecreaseFrom (previous : option Z) (updates : list (BoardAccount * Z)) : Prop :=
  match updates with
  | [] => True
  | (board, _) :: rest =>
      match previous with
      | Some p => p <= roundId board
      | None => True
      end
      /\ neverDecreaseFrom (Some (roundId board)) rest
  end.

Definition roundIdsNeverDecrease (updates : list (BoardAccount * Z)) : Prop :=
  neverDecreaseFrom None updates.

(** The board is active and its countdown is within [0, threshold]. *)
Definition inWindow (threshold : Z) (board : BoardAccount) (currentSlot : Z) : bool :=
  isRoundActive board
  && (0 <=? getRemainingSlots board currentSlot)
  && (getRemainingSlots board currentSlot <=? threshold).

Definition isPhaseTrigger (e : Event) : bool :=
  match e with
  | OnPricesFetchTrigger _ _ _ | OnEvSnapshotTrigger _ _ _ => true
  | _ => false
  end.

(** The flag a check sees: reset when the round id has grown. *)
Definition afterReset (previousBoard : option BoardAccount) (board : BoardAccount)
    (flag : option Z) : option Z :=
  match previousBoard with
  | Some previous => if roundId previous <? roundId board then None else flag
  | None => flag
  end.

(** The check of a phase fires. *)
Definition fires (threshold : Z) (board : BoardAccount) (currentSlot : Z) (flag : option Z)
    : bool :=
  inWindow threshold board currentSlot && differs flag (roundId board).

Definition lastRoundId (s : State) : option Z :=
  match lastBoard s with
  | Some b => Some (roundId b)
  | None => None
  end.

End WatcherSpec.

(** ** Rounds in the store *)

Module StoreSpec.
Import Sqlite.

(** The round has a row in [rounds]. *)
Definition present (roundId : Z) (db : Db) : Prop :=
  is_Some (rounds db !! Js.Number roundId).

(** The round has no row in [rounds] and no row in [tiles]. *)
Definition absent (roundId : Z) (db : Db) : Prop :=
  rounds db !! Js.Number roundId = None
  /\ forall idx, tiles db !! (Js.Number roundId, idx) = None.

(** All completion columns of a round row are filled. *)
Definition completed (row : RoundRow) : Prop :=
  is_Some (ts_post row) /\ is_Some (slot_hash row) /\ is_Some (rng_u64 row)
  /\ is_Some (winning_tile row) /\ is_Some (split_top_miner row)
  /\ is_Some (top_miner_reward row) /\ is_Some (motherlode_paid row)
  /\ is_Some (num_winners row) /\ is_Some (total_winnings row)
  /\ is_Some (total_vaulted row) /\ is_Some (rent_payer row)
  /\ is_Some (top_miner_pubkey row).

End StoreSpec.

(** ** Failures of the completion *)

Module PostFinSpec.
Import World CompletePostFin.

(** The world at the [try] of completePostFin: the clock read once and the
    opening line logged. *)
Definition atTry (ctx : PostFinContext) (w : World.t) : World.t :=
  {| db := db w; outbox := outbox w; calls := calls w;
     logs := logs w ++
       [{| level := LevelInfo; channel := chan; message := "Starting post-fin completion";
           data := [("roundId"%string, VStr (showZ (previousRoundId ctx)));
                    ("newRoundId"%string,
                     VStr (showZ (BoardDecoder.roundId (newBoard ctx))))] |}];
     clockReads := S (clockReads w) |}.

(** An exception is raised inside the [try] of completePostFin. *)
Definition raises (env : Env) (ctx : PostFinContext) (w : World.t) : Prop :=
  exists message,
    fst (completionSequence env (previousRoundId ctx) (clock env (clockReads w)) (atTry ctx w))
    = Throw message.



(** Symbolic execution of the completion sequence. *)
Ltac runCompletion :=
  unfold completionSequence, Repository.exists_, Repository.completePostFin,
    RoundStateFetcher.fetchRoundStateOrNull, RoundStateFetcher.fetchRoundState,
    toStringOf, tryCatch, bind, called, log, lift, ret, throw, dateNow, setDb;
  cbn [db outbox calls logs clockReads].

(** The split flags of the RoundPostFin records handed to the repository. *)
Definition recordedSplitFlags (cs : list Call) : list bool :=
  flat_map (fun c => match c with
                     | CallCompletePostFin data => [RoundPostFin.splitTopMiner data]
                     | _ => []
                     end) cs.

End PostFinSpec.

(** ** Failures of the collection *)

Module PreFinSpec.
Import World CollectPreFin.

(** The world at the [try] of collectPreFin. *)
Definition atTry (ctx : PreFinContext) (cached : option CachedPhase1Data) (w : World.t)
    : World.t :=
  {| db := db w; outbox := outbox w; calls := calls w;
     logs := logs w ++
       [{| level := LevelInfo; channel := chan; message := "Phase 2: Starting EV snapshot";
           data := [("roundId"%string, VStr (showZ (BoardDecoder.roundId (board ctx))));
                    ("remainingSlots"%string, VInt (remainingSlots ctx));
                    ("usedCachedPrices"%string,
                     VBool (match cached with Some _ => true | None => false end))] |}];
     clockReads := S (clockReads w) |}.

(** An exception is raised inside the [try] of collectPreFin. *)
Definition raises (env : Env) (ctx : PreFinContext) (cached : option CachedPhase1Data)
    (w : World.t) : Prop :=
  exists message,
    fst (collectionSequence env ctx cached (clock env (clockReads w)) (atTry ctx cached w))
    = Throw message.

(** No cached prices, and one of the two price fetchers fails. *)
Definition missingPriceData (env : Env) (cached : option CachedPhase1Data) : Prop :=
  cached = None
  /\ ((exists e, priceFetch env = Throw e) \/ (exists e, miningCostFetch env = Throw e)).

(** The fetch of the round state fails. *)
Definition roundStateFetchFails (env : Env) (roundId : Z) : Prop :=
  exists e, World.fetchRoundState env roundId = Throw e.

(** The price data of the collection, with no effect shown. *)
Definition priceData (env : Env) (cached : option CachedPhase1Data)
    : outcome (PriceQuote.t * MiningCostData.t) :=
  match cached with
  | Some c => Return (priceQuote c, miningCost c)
  | None =>
      match priceFetch env, miningCostFetch env with
      | Return p, Return m => Return (p, m)
      | Throw e, _ => Throw e
      | _, Throw e => Throw e
      end
  end.

(** The EV computation throws on the fetched round state. *)
Definition computationFails (env : Env) (roundId : Z) (cached : option CachedPhase1Data)
    : Prop :=
  exists price cost roundState e,
    priceData env cached = Return (price, cost)
    /\ World.fetchRoundState env roundId = Return roundState
    /\ EvCalculator.calculateAllTileEvs roundState price = Throw e.

(** The database engine fails the insert transaction. *)
Definition storeInsertFails (env : Env) : Prop :=
  exists e, insertFault env = Some e.

(** Symbolic execution of the collection sequence. *)
Ltac runCollection :=
  unfold raises, collectionSequence, obtainPrices, fetchBoth, Repository.exists_,
    Repository.insertPreFin, RoundStateFetcher.fetchRoundState,
    bind, called, log, lift, ret, throw, dateNow, setDb;
  cbn [db outbox calls logs clockReads atTry fst snd].

Ltac thrown := eexists; reflexivity.

End PreFinSpec.

(** ** Effects on store and notifier *)

Module Frame.
Import World.

(** [m] changes neither the database nor the outbox. *)
Definition frame {A : Type} (m : Eff A) : Prop :=
  forall w, db (snd (m w)) = db w /\ outbox (snd (m w)) = outbox w.

(** [m] leaves database and outbox as they were whenever it throws. *)
Definition rollback {A : Type} (m : Eff A) : Prop :=
  forall w e w', m w = (Throw e, w') -> db w' = db w /\ outbox w' = outbox w.

(** [m] never throws. *)
Definition total {A : Type} (m : Eff A) : Prop :=
  forall w, exists a, fst (m w) = Return a.

(** [m] keeps the foreign key of [tiles]. *)
Definition keepsForeignKeys {A : Type} (m : Eff A) : Prop :=
  forall w, Sqlite.foreignKeysHold (db w) -> Sqlite.foreignKeysHold (db (snd (m w))).

End Frame.

(** ** Runs that differ in the log only *)

Module LogBlind.
Import World.

(** Two worlds with the same database, outbox, calls and clock. *)
Definition agree (w1 w2 : World.t) : Prop :=
  db w1 = db w2 /\ outbox w1 = outbox w2 /\ calls w1 = calls w2
  /\ clockReads w1 = clockReads w2.

(** From worlds that agree, [m1] and [m2] give the same result and worlds
    that agree: they differ in what they log at most. *)
Definition alike {A : Type} (m1 m2 : Eff A) : Prop :=
  forall w1 w2, agree w1 w2 ->
    fst (m1 w1) = fst (m2 w2) /\ agree (snd (m1 w1)) (snd (m2 w2)).

Ltac blind :=
  let w1 := fresh "w1" in
  let w2 := fresh "w2" in
  let H := fresh "H" in
  intros w1 w2 H; destruct H as (? & ? & ? & ?);
  cbv beta delta [agree]; cbn [fst snd db outbox calls logs clockReads];
  repeat split; congruence.

End LogBlind.

(** ** Sample rounds, environments and worlds *)

Module Samples.
Import World.
Local Open Scope string_scope.
Local Open Scope Z_scope.

(** A seed whose first byte is 2 and whose other bytes are 0. *)
Definition seed : list byte := x02 :: repeat x00 31.

(** The key of 32 zero bytes. *)
Definition someKey : list byte := repeat x00 32.

(** Round 7 at completion: one SOL on every tile, three miners each. *)
Definition round7 : RoundDecoder.RoundAccount :=
  {| RoundDecoder.id := 7;
     RoundDecoder.deployed := repeat 1000000000 25;
     RoundDecoder.slotHash := seed;
     RoundDecoder.counts := repeat 3 25;
     RoundDecoder.expiresAt := 1000;
     RoundDecoder.motherlode := 0;
     RoundDecoder.rentPayer := someKey;
     RoundDecoder.topMiner := someKey;
     RoundDecoder.topMinerReward := 100000000000;
     RoundDecoder.totalDeployed := 25000000000;
     RoundDecoder.totalVaulted := 0;
     RoundDecoder.totalWinnings := 24000000000 |}.


(** A round nobody has deployed to. *)
Definition emptyRound : RoundDecoder.RoundAccount :=
  {| RoundDecoder.id := 7;
     RoundDecoder.deployed := repeat 0 25;
     RoundDecoder.slotHash := repeat x00 32;
     RoundDecoder.counts := repeat 0 25;
     RoundDecoder.expiresAt := 1000;
     RoundDecoder.motherlode := 0;
     RoundDecoder.rentPayer := someKey;
     RoundDecoder.topMiner := someKey;
     RoundDecoder.topMinerReward := 0;
     RoundDecoder.totalDeployed := 0;
     RoundDecoder.totalVaulted := 0;
     RoundDecoder.totalWinnings := 0 |}.

Definition price : PriceQuote.t :=
  {| PriceQuote.oreSol := Js.Fin 1;
     PriceQuote.solUsd := Js.Fin 150;
     PriceQuote.oreUsd := Js.Fin 150;
     PriceQuote.fetchedAt := 1700000000000 |}.

Definition cost : MiningCostData.t :=
  {| MiningCostData.evPercent := Js.Fin 5;
     MiningCostData.fetchedAt := 1700000000000 |}.

Definition clockOf (n : nat) : Z := 1700000000000 + Z.of_nat n.

(** Every fetch succeeds and the database engine does not fail. *)
Definition env : Env :=
  {| clock := clockOf;
     fetchRoundState := fun _ => Return round7;
     priceFetch := Return price;
     miningCostFetch := Return cost;
     insertFault := None;
     completeFault := None;
     deleteFault := None |}.



(** The database engine fails both write transactions. *)
Definition envDiskError : Env :=
  {| clock := clockOf;
     fetchRoundState := fun _ => Return round7;
     priceFetch := Return price;
     miningCostFetch := Return cost;
     insertFault := Some "disk I/O error";
     completeFault := Some "disk I/O error";
     deleteFault := None |}.

(** The price fetcher fails. *)
Definition envNoPrice : Env :=
  {| clock := clockOf;
     fetchRoundState := fun _ => Return round7;
     priceFetch := Throw "[JupiterPrice] Jupiter API returned 500";
     miningCostFetch := Return cost;
     insertFault := None;
     completeFault := None;
     deleteFault := None |}.

(** The round account is not found on chain, and the delete fails. *)
Definition envLocked : Env :=
  {| clock := clockOf;
     fetchRoundState := fun _ => Throw "Round account not found: round7";
     priceFetch := Return price;
     miningCostFetch := Return cost;
     insertFault := None;
     completeFault := None;
     deleteFault := Some "database is locked" |}.

Definition emptyWorld : World.t :=
  {| db := Sqlite.emptyDb; outbox := []; calls := []; logs := []; clockReads := 0 |}.

Definition board7 : BoardDecoder.BoardAccount :=
  {| BoardDecoder.roundId := 7; BoardDecoder.startSlot := 100; BoardDecoder.endSlot := 250 |}.

Definition board8 : BoardDecoder.BoardAccount :=
  {| BoardDecoder.roundId := 8; BoardDecoder.startSlot := 285; BoardDecoder.endSlot := 435 |}.

Definition preFinContext : CollectPreFin.PreFinContext :=
  {| CollectPreFin.board := board7;
     CollectPreFin.remainingSlots := 5;
     CollectPreFin.currentSlot := 245 |}.

Definition postFinContext : CompletePostFin.PostFinContext :=
  {| CompletePostFin.previousRoundId := 7; CompletePostFin.newBoard := board8 |}.

(** The world after round 7 has been collected. *)
Definition collected : World.t :=
  snd (CollectPreFin.collectPreFin env preFinContext None emptyWorld).

(** The world after round 7 has been collected and completed. *)
Definition settled : World.t :=
  snd (CompletePostFin.completePostFin env postFinContext collected).

(** The tiles of the round nobody has deployed to. *)
Definition emptyTiles : list EvCalculator.TileEvResult :=
  match EvCalculator.calculateAllTileEvs emptyRound price with
  | Return tiles => tiles
  | Throw _ => []
  end.

(** A board of a round, five slots before its end, and the slot it is seen at. *)
Definition inWindowBoard (roundId : Z) : BoardDecoder.BoardAccount * Z :=
  ({| BoardDecoder.roundId := roundId;
      BoardDecoder.startSlot := 100;
      BoardDecoder.endSlot := 250 |}, 248).

Definition thresholds : BoardWatcher.Config :=
  {| BoardWatcher.preFinThresholdSlots := 15; BoardWatcher.evSnapshotSlots := 5 |}.

(** Boards of rounds 5 and 6 in the order of their rounds, each twice. *)
Definition inOrder : list (BoardDecoder.BoardAccount * Z) :=
  [inWindowBoard 5; inWindowBoard 5; inWindowBoard 6; inWindowBoard 6].

(** A board of round 5 that arrives once more after round 6 has begun. *)
Definition outOfOrder : list (BoardDecoder.BoardAccount * Z) :=
  [inWindowBoard 5; inWindowBoard 6; inWindowBoard 5].

(** The tiles of round 7. *)
Definition tiles7 : list EvCalculator.TileEvResult :=
  match EvCalculator.calculateAllTileEvs round7 price with
  | Return tiles => tiles
  | Throw _ => []
  end.

End Samples.

(** ** Account data as bytes *)

Module Layout.
Import Spec BoardDecoder.

(** A value that fits an unsigned 64-bit integer. *)
Definition isU64 (v : Z) : Prop := 0 <= v < 2 ^ 64.

(** The [size] bytes that spell [v], least significant byte first. *)
Fixpoint bytesLE (size : nat) (v : Z) : list byte :=
  match size with
  | O => []
  | S size' =>
      match Byte.of_N (Z.to_N (v mod 256)) with
      | Some b => b
      | None => x00
      end :: bytesLE size' (v / 256)
  end.

(** The account data of a board: the discriminator, the three fields as
    u64, and whatever follows. *)
Definition boardData (discriminator : list byte) (board : BoardAccount) (rest : list byte)
    : list byte :=
  discriminator ++ bytesLE 8 (roundId board) ++ bytesLE 8 (startSlot board)
  ++ bytesLE 8 (endSlot board) ++ rest.

(** The byte of the seed at an index, as a number; 0 past the end. *)
Definition byteOf (seed : list byte) (index : nat) : Z := byteValue (nth index seed x00).

(** The numbers of a round state are unsigned 64-bit integers, as the
    decoder reads them. *)
Definition u64Fields (round : RoundDecoder.RoundAccount) : Prop :=
  isU64 (RoundDecoder.id round)
  /\ List.Forall isU64 (RoundDecoder.deployed round)
  /\ List.Forall isU64 (RoundDecoder.counts round)
  /\ isU64 (RoundDecoder.expiresAt round)
  /\ isU64 (RoundDecoder.motherlode round)
  /\ isU64 (RoundDecoder.topMinerReward round)
  /\ isU64 (RoundDecoder.totalDeployed round)
  /\ isU64 (RoundDecoder.totalVaulted round)
  /\ isU64 (RoundDecoder.totalWinnings round).

End Layout.

(** ** The break-even stake *)

Module StakeSpec.

Local Open Scope Q_scope.

(** A price far inside the range of the doubles: with such a price and
    numbers of 64 bits no operation of the calculator overflows. *)
Definition priceInRange (p : Q) : Prop :=
  inject_Z (- 10 ^ 100) <= p <= inject_Z (10 ^ 100).

(** The numerator of the EV ratio and the numerator of the maximal stake,
    for a pot, a net ORE value and the others' stake on the tile. *)
Definition ratioNumerator (pot net : Q) : Q :=
  (1 # 25) * ((9 # 10) * (pot + inject_Z 0 + (1 # 1000)) + net).

Definition stakeNumerator (pot net others : Q) : Q :=
  (1 # 25) * ((9 # 10) * (pot + inject_Z 0) + net) + - others.

(** The pot of the round in SOL. *)
Definition potSol (round : RoundDecoder.RoundAccount) : Q :=
  inject_Z (Js.Number (EvCalculator.computePotFromOthers round)) / inject_Z 1000000000.

(** The stake of the others on a tile in SOL. *)
Definition othersSol (deployed : Z) : Q :=
  inject_Z (Js.Number deployed) / inject_Z 1000000000.

End StakeSpec.

(** ** Triggers of the watcher *)

Module TriggerSpec.
Import BoardDecoder BoardWatcher.

(** The number of post-fin triggers fired for a round id. *)
Definition isPostFinFor (roundId : Z) (e : Event) : bool :=
  match e with
  | OnPostFinTrigger previousRoundId _ => previousRoundId =? roundId
  | _ => false
  end.

Definition postFinCount (roundId : Z) (events : list Event) : nat :=
  length (List.filter (isPostFinFor roundId) events).

(** The rounds whose prices fetch trigger is among the events, added to
    those [seen] before. *)
Fixpoint seenAfter (seen : list Z) (events : list Event) : list Z :=
  match events with
  | [] => seen
  | OnPricesFetchTrigger board _ _ :: rest => seenAfter (BoardDecoder.roundId board :: seen) rest
  | _ :: rest => seenAfter seen rest
  end.

(** Every EV snapshot trigger among the events comes after a prices fetch
    trigger of its round, among the events or [seen] before. *)
Fixpoint pricesComeFirst (seen : list Z) (events : list Event) : bool :=
  match events with
  | [] => true
  | OnPricesFetchTrigger board _ _ :: rest =>
      pricesComeFirst (BoardDecoder.roundId board :: seen) rest
  | OnEvSnapshotTrigger board _ _ :: rest =>
      existsb (Z.eqb (BoardDecoder.roundId board)) seen && pricesComeFirst seen rest
  | _ :: rest => pricesComeFirst seen rest
  end.

(** Every board of the updates has a round id of at most [r]. *)
Definition roundIdsAtMost (r : Z) (updates : list (BoardAccount * Z)) : Prop :=
  List.Forall (fun update => BoardDecoder.roundId (fst update) <= r) updates.

End TriggerSpec.

(** ** Rounds and tiles in the tables *)

Module RepositorySpec.
Import Sqlite.

(** The round row of the key waits for its completion. *)
Definition pending (key : Z) (db : Db) : Prop :=
  exists row, rounds db !! key = Some row /\ ts_post row = None.


(** Every round id in the table is a number that [Number] gives back as it
    is, as the ids written by the repository are. *)
Definition keysReadBack (db : Db) : Prop :=
  forall key, is_Some (rounds db !! key) -> Js.Number key = key.

(** The rows of all other rounds are the same in both databases. *)
Definition sameElsewhere (roundId : Z) (db db' : Db) : Prop :=
  forall key, key <> Js.Number roundId ->
    rounds db' !! key = rounds db !! key
    /\ forall idx, tiles db' !! (key, idx) = tiles db !! (key, idx).


(** The row that INSERT INTO tiles writes for a tile. *)
Definition tileRowOf (tile : TilePreFin.t) (minersCount : Z) : TileRow :=
  {| deployed := Js.Number (TilePreFin.deployed tile);
     miners_count := Js.Number minersCount;
     others_stake := Js.Number (TilePreFin.othersStake tile);
     ev_ratio := TilePreFin.evRatio tile;
     max_profitable := Js.Number (TilePreFin.maxProfitable tile);
     rank_ev := TilePreFin.rankEv tile;
     deployed_final := None;
     count_final := None |}.

(** The tile of the data has its row, as INSERT INTO tiles writes it. *)
Definition tileStored (roundId : Z) (tile : TilePreFin.t) (db : Db) : Prop :=
  exists minersCount,
    TilePreFin.minersCount tile = Some minersCount
    /\ tiles db !! (Js.Number roundId, TilePreFin.tileIndex tile)
       = Some (tileRowOf tile minersCount).

End RepositorySpec.


(** ** Sequences of calls on the repository and of the use cases *)

Module ReachSpec.
Import World.

(** [m] keeps the property [P] of the database. *)
Definition keeps {A : Type} (P : Sqlite.Db -> Prop) (m : Eff A) : Prop :=
  forall w, P (db w) -> P (db (snd (m w))).

(** No tile row without its round row, and round ids that read back. *)
Definition wellFormed (db : Sqlite.Db) : Prop :=
  Sqlite.foreignKeysHold db /\ RepositorySpec.keysReadBack db.

(** A write on the repository, or a use case. *)
Inductive Operation : Type :=
| OpInsertPreFin (data : RoundPreFin.t)
| OpCompletePostFin (data : RoundPostFin.t)
| OpDeleteRound (roundId : Z)
| OpCollect (context : CollectPreFin.PreFinContext)
    (cachedData : option CollectPreFin.CachedPhase1Data)
| OpComplete (context : CompletePostFin.PostFinContext)
| OpCompletePending
| OpHandleFailure (roundId : option Z) (reason : string) (details : list (string * LogValue)).

(** The world after the operation, its result forgotten. *)
Definition perform (env : Env) (op : Operation) (w : World.t) : World.t :=
  match op with
  | OpInsertPreFin data => snd (Repository.insertPreFin env data w)
  | OpCompletePostFin data => snd (Repository.completePostFin env data w)
  | OpDeleteRound roundId => snd (Repository.deleteRound env roundId w)
  | OpCollect context cachedData => snd (CollectPreFin.collectPreFin env context cachedData w)
  | OpComplete context => snd (CompletePostFin.completePostFin env context w)
  | OpCompletePending => snd (CompletePostFin.completePendingRounds env w)
  | OpHandleFailure roundId reason details =>
      snd (HandleFailure.handleCollectionFailure env roundId reason details w)
  end.

(** Operations in sequence, each in an environment of its own. *)
Definition performAll (steps : list (Env * Operation)) (w : World.t) : World.t :=
  fold_left (fun w step => perform (fst step) (snd step) w) steps w.

End ReachSpec.

(** ** More sample rounds and runs *)

Module Cases.
Import World Samples.
Local Open Scope string_scope.
Local Open Scope Z_scope.

(** A round with i + 1 SOL on tile i. *)
Definition risingRound : RoundDecoder.RoundAccount :=
  {| RoundDecoder.id := 9;
     RoundDecoder.deployed := map (fun i => (Z.of_nat i + 1) * 1000000000) (seq 0 25);
     RoundDecoder.slotHash := seed;
     RoundDecoder.counts := repeat 3 25;
     RoundDecoder.expiresAt := 1000;
     RoundDecoder.motherlode := 0;
     RoundDecoder.rentPayer := someKey;
     RoundDecoder.topMiner := someKey;
     RoundDecoder.topMinerReward := 100000000000;
     RoundDecoder.totalDeployed := 325000000000;
     RoundDecoder.totalVaulted := 0;
     RoundDecoder.totalWinnings := 300000000000 |}.

Definition risingTiles : list EvCalculator.TileEvResult :=
  match EvCalculator.calculateAllTileEvs risingRound price with
  | Return tiles => tiles
  | Throw _ => []
  end.

(** A round state with 24 deployed values only. *)
Definition shortRound : RoundDecoder.RoundAccount :=
  {| RoundDecoder.id := 7;
     RoundDecoder.deployed := repeat 1000000000 24;
     RoundDecoder.slotHash := seed;
     RoundDecoder.counts := repeat 3 25;
     RoundDecoder.expiresAt := 1000;
     RoundDecoder.motherlode := 0;
     RoundDecoder.rentPayer := someKey;
     RoundDecoder.topMiner := someKey;
     RoundDecoder.topMinerReward := 0;
     RoundDecoder.totalDeployed := 24000000000;
     RoundDecoder.totalVaulted := 0;
     RoundDecoder.totalWinnings := 0 |}.

(** A quote whose ORE price is NaN. *)
Definition brokenPrice : PriceQuote.t :=
  {| PriceQuote.oreSol := Js.NaN;
     PriceQuote.solUsd := Js.Fin 150;
     PriceQuote.oreUsd := Js.Fin 150;
     PriceQuote.fetchedAt := 1700000000000 |}.

(** The pre-fin data of round 7, as collectPreFin builds it. *)
Definition preFin7 : RoundPreFin.t :=
  {| RoundPreFin.roundId := 7;
     RoundPreFin.tsPre := 1700000000000;
     RoundPreFin.slotPre := 245;
     RoundPreFin.remainingSlots := 5;
     RoundPreFin.boardStartSlot := 100;
     RoundPreFin.boardEndSlot := 250;
     RoundPreFin.price := price;
     RoundPreFin.totalDeployed := 25000000000;
     RoundPreFin.totalMiners := 75;
     RoundPreFin.latencyFetchMs := 1;
     RoundPreFin.latencyEvMs := 1;
     RoundPreFin.miningCostPct := Js.Fin 5;
     RoundPreFin.tiles := TileRanker.rankTilesByEv tiles7 |}.

(** The world after the pre-fin data of round 7 has been inserted. *)
Definition inserted7 : World.t := snd (Repository.insertPreFin env preFin7 emptyWorld).

(** The post-fin data of a round 7 that won on tile 2. *)
Definition postFin7 : RoundPostFin.t :=
  {| RoundPostFin.roundId := 7;
     RoundPostFin.tsPost := 1700000000100;
     RoundPostFin.slotHash := seed;
     RoundPostFin.rngU64 := 2;
     RoundPostFin.winningTile := 2;
     RoundPostFin.splitTopMiner := false;
     RoundPostFin.topMinerReward := 100000000000;
     RoundPostFin.motherlodePaid := 0;
     RoundPostFin.numWinners := Some 3;
     RoundPostFin.totalWinnings := 24000000000;
     RoundPostFin.totalVaulted := 0;
     RoundPostFin.rentPayer := "11111111111111111111111111111111";
     RoundPostFin.topMinerPubkey := "11111111111111111111111111111111";
     RoundPostFin.tiles := [] |}.

(** The account data of board 7, after a discriminator of zero bytes. *)
Definition board7Data : list byte :=
  Layout.boardData (repeat x00 8) board7 [].

(** A fetch that times out twice and then returns. *)
Definition flaky (attempt : Z) : outcome Z :=
  if attempt <? 3 then Throw "timeout" else Return 42.

(** A fetch that always times out. *)
Definition failing (attempt : Z) : outcome Z := Throw "timeout".

End Cases.


(** * Properties *)


(** ** Number(bigint) *)

Module JsFacts.
Import Js.

Lemma Number_small z : Z.abs z < 2 ^ 53 -> Number z = z.
Proof.
  intros H. unfold Number. destruct (Z.ltb_spec (Z.abs z) (2 ^ 53)); [reflexivity | lia].
Qed.

Lemma Number_le_2_53 z : 0 <= z <= 2 ^ 53 -> Number z = z.
Proof.
  intros [H0 H1]. destruct (Z.eq_dec z (2 ^ 53)) as [-> | Hne].
  - reflexivity.
  - apply Number_small. lia.
Qed.

Lemma Number_pos z : 0 < z -> 0 < Number z.
Proof.
  intros Hz. unfold Number. rewrite (Z.abs_eq z) by lia.
  destruct (Z.ltb_spec z (2 ^ 53)) as [Hlt | Hge]; [assumption |].
  cbv zeta.
  assert (Hlog : 53 <= Z.log2 z) by (apply Z.log2_le_pow2; lia).
  set (e := Z.log2 z - 52).
  assert (He : 0 < e) by (unfold e; lia).
  assert (Hp : 0 < 2 ^ e) by (apply Z.pow_pos_nonneg; lia).
  assert (Hq : 1 <= z / 2 ^ e).
  { apply Z.div_le_lower_bound; [assumption |].
    rewrite Z.mul_1_r. transitivity (2 ^ Z.log2 z).
    - apply Z.pow_le_mono_r; unfold e; lia.
    - apply Z.log2_spec. lia. }
  rewrite (Z.sgn_pos z) by lia.
  destruct ((2 ^ (e - 1) <? z mod 2 ^ e) || ((z mod 2 ^ e =? 2 ^ (e - 1)) && Z.odd (z / 2 ^ e))); nia.
Qed.

Lemma Number_nonneg z : 0 <= z -> 0 <= Number z.
Proof.
  intros Hz. destruct (Z.eq_dec z 0) as [-> | Hne]; [reflexivity |].
  apply Z.lt_le_incl, Number_pos. lia.
Qed.

Lemma Number_neg z : z < 0 -> Number z < 0.
Proof.
  intros Hz. 
  assert (H : Number z = - Number (- z)).
  { unfold Number. rewrite Z.abs_opp. 
    destruct (Z.abs z <? 2 ^ 53); [lia |]. cbv zeta. rewrite Z.sgn_opp. lia. }
  rewrite H. pose proof (Number_pos (- z)). lia.
Qed.

End JsFacts.

(** ** Reading integers from a buffer *)

Module BufferFacts.
Import Buffer Spec.

Lemma byteValue_range b : 0 <= byteValue b < 256.
Proof.
  unfold byteValue. pose proof (Byte.to_N_bounded b). lia.
Qed.

Lemma littleEndian_nonneg bs : 0 <= littleEndian bs.
Proof.
  induction bs as [| b bs IH]; simpl; [lia |].
  pose proof (byteValue_range b). lia.
Qed.

Lemma byteAt_skipn buf offset i :
  byteAt buf (offset + i) = byteAt (skipn offset buf) i.
Proof.
  unfold byteAt. revert buf. induction offset as [| n IH]; intros buf; simpl.
  - reflexivity.
  - destruct buf as [| b buf]; simpl.
    + destruct i; reflexivity.
    + apply IH.
Qed.

Lemma byteAt_0 buf offset : byteAt buf offset = byteAt (skipn offset buf) 0.
Proof. rewrite <- byteAt_skipn. f_equal. lia. Qed.

(** A read of eight bytes inside the buffer is the little-endian value of
    the chunk at that offset. *)
Lemma readBigUInt64LE_chunk buf offset :
  (offset + 8 <= length buf)%nat ->
  readBigUInt64LE buf offset = Some (littleEndian (chunk offset 8 buf)).
Proof.
  intros Hlen. unfold readBigUInt64LE, chunk.
  rewrite (byteAt_0 buf offset), !byteAt_skipn.
  assert (Hs : (8 <= length (skipn offset buf))%nat) by (rewrite length_skipn; lia).
  destruct (skipn offset buf) as [| b0 [| b1 [| b2 [| b3 [| b4 [| b5 [| b6 [| b7 rest]]]]]]]];
    simpl in Hs; try lia.
  unfold byteAt. simpl. f_equal. fold (byteValue b0) (byteValue b1) (byteValue b2)
    (byteValue b3) (byteValue b4) (byteValue b5) (byteValue b6) (byteValue b7).
  rewrite Z.shiftl_mul_pow2 by lia. lia.
Qed.

Lemma readUInt16LE_chunk buf offset :
  (offset + 2 <= length buf)%nat ->
  readUInt16LE buf offset = Some (littleEndian (chunk offset 2 buf)).
Proof.
  intros Hlen. unfold readUInt16LE, chunk.
  rewrite (byteAt_0 buf offset), !byteAt_skipn.
  assert (Hs : (2 <= length (skipn offset buf))%nat) by (rewrite length_skipn; lia).
  destruct (skipn offset buf) as [| b0 [| b1 rest]]; simpl in Hs; try lia.
  unfold byteAt. simpl. f_equal. fold (byteValue b0) (byteValue b1). lia.
Qed.

End BufferFacts.

(** ** The outcome calculator *)

Module RngFacts.
Import RngCalculator Spec.

Lemma lxor_nonneg_both a b : 0 <= a -> 0 <= b -> 0 <= Z.lxor a b.
Proof. intros Ha Hb. apply Z.lxor_nonneg. tauto. Qed.

Lemma xorOfU64s_nonneg seed : 0 <= xorOfU64s seed.
Proof.
  unfold xorOfU64s. repeat apply lxor_nonneg_both; apply BufferFacts.littleEndian_nonneg.
Qed.

Lemma xorOfU16s_nonneg seed : 0 <= xorOfU16s seed.
Proof.
  unfold xorOfU16s. repeat apply lxor_nonneg_both; apply BufferFacts.littleEndian_nonneg.
Qed.

Lemma computeRng_32 seed :
  length seed = 32%nat -> computeRng seed = Return (xorOfU64s seed).
Proof.
  intros Hlen. unfold computeRng. rewrite Hlen. simpl.
  rewrite !BufferFacts.readBigUInt64LE_chunk by lia. reflexivity.
Qed.

Lemma computeWinningTile_32 seed :
  length seed = 32%nat ->
  computeWinningTile seed = Return (xorOfU64s seed mod 25)
  /\ 0 <= xorOfU64s seed mod 25 <= 24.
Proof.
  intros Hlen. pose proof (xorOfU64s_nonneg seed) as Hnn.
  assert (Hr : 0 <= xorOfU64s seed mod 25 < 25) by (apply Z.mod_pos_bound; lia).
  split; [| lia].
  unfold computeWinningTile. rewrite (computeRng_32 seed Hlen).
  rewrite Z.rem_mod_nonneg by lia.
  rewrite JsFacts.Number_small by (rewrite Z.abs_eq; lia). reflexivity.
Qed.

(** C3. For every 32-byte seed, computeWinningTile returns
    (u0 XOR u1 XOR u2 XOR u3) mod 25, the values u0..u3 being the four 8-byte
    little-endian unsigned integers at offsets 0, 8, 16 and 24 of the seed;
    the result lies in [0, 24], and a second run on the same seed returns
    the same value. *)
Theorem computeWinningTile_spec (seed : list byte) :
  length seed = 32%nat ->
  computeWinningTile seed = Return (xorOfU64s seed mod 25)
  /\ 0 <= xorOfU64s seed mod 25 <= 24
  /\ (forall again : list byte, again = seed -> computeWinningTile again = computeWinningTile seed).
Proof.
  intros Hlen. destruct (computeWinningTile_32 seed Hlen) as [Hvalue Hrange].
  split; [exact Hvalue |]. split; [exact Hrange |].
  intros again ->. reflexivity.
Qed.
End RngFacts.

(** ** The countdown of a board *)

Module DecoderFacts.
Import BoardDecoder BoardWatcher WatcherSpec.

Lemma getRemainingSlots_active board currentSlot :
  endSlot board <> U64_MAX ->
  getRemainingSlots board currentSlot = Js.Number (Z.max 0 (endSlot board - currentSlot)).
Proof.
  intros Hne. unfold getRemainingSlots, isRoundActive.
  destruct (Z.eqb_spec (endSlot board) U64_MAX) as [He | _]; [contradiction |]. simpl.
  destruct (Z.ltb_spec 0 (endSlot board - currentSlot)) as [Hpos | Hle].
  - rewrite Z.max_r by lia. reflexivity.
  - rewrite Z.max_l by lia. reflexivity.
Qed.

Lemma getRemainingSlots_nonneg board currentSlot :
  endSlot board <> U64_MAX -> 0 <= getRemainingSlots board currentSlot.
Proof.
  intros Hne. rewrite getRemainingSlots_active by assumption.
  apply JsFacts.Number_nonneg. lia.
Qed.

Lemma getRemainingSlots_sentinel board currentSlot :
  endSlot board = U64_MAX -> getRemainingSlots board currentSlot = -1.
Proof.
  intros He. unfold getRemainingSlots, isRoundActive. rewrite He. reflexivity.
Qed.

Lemma processBoard_inactive cfg board currentSlot s :
  endSlot board = U64_MAX ->
  List.filter isPhaseTrigger (snd (processBoard cfg board currentSlot s)) = [].
Proof.
  intros He. unfold processBoard, isRoundActive. rewrite He. simpl.
  unfold checkPostFin. destruct (lastBoard s) as [previous |]; [| reflexivity].
  destruct (roundId previous <? roundId board); reflexivity.
Qed.

(** C10 (amended). For a board whose end slot is not the u64 sentinel,
    getRemainingSlots returns Number(max(0, endSlot - currentSlot)): it is
    never negative, it is max(0, endSlot - currentSlot) itself whenever the
    difference is at most 2^53, and it is 0, inside every window
    [0, threshold], once the end slot has passed.  For a board whose end slot
    is the sentinel it returns -1, and processBoard fires neither phase
    trigger. *)
Theorem getRemainingSlots_spec (board : BoardAccount) (currentSlot : Z) :
  (endSlot board <> U64_MAX ->
     getRemainingSlots board currentSlot = Js.Number (Z.max 0 (endSlot board - currentSlot))
     /\ 0 <= getRemainingSlots board currentSlot
     /\ (endSlot board - currentSlot <= 2 ^ 53 ->
         getRemainingSlots board currentSlot = Z.max 0 (endSlot board - currentSlot))
     /\ (endSlot board <= currentSlot ->
         getRemainingSlots board currentSlot = 0
         /\ forall threshold, 0 <= threshold -> inWindow threshold board currentSlot = true))
  /\ (endSlot board = U64_MAX ->
      getRemainingSlots board currentSlot = -1
      /\ forall cfg s,
           List.filter isPhaseTrigger
                  (snd (processBoard cfg board currentSlot s)) = []).
Proof.
  split.
  - intros Hne. pose proof (getRemainingSlots_active board currentSlot Hne) as Hact.
    split; [assumption |]. split; [apply getRemainingSlots_nonneg; assumption |]. split.
    + intros Hsmall. rewrite Hact. apply JsFacts.Number_le_2_53. lia.
    + intros Hpast.
      assert (H0 : getRemainingSlots board currentSlot = 0).
      { rewrite Hact, Z.max_l by lia. reflexivity. }
      split; [assumption |]. intros threshold Ht. unfold inWindow. rewrite H0.
      unfold isRoundActive. destruct (Z.eqb_spec (endSlot board) U64_MAX); [contradiction |].
      simpl. apply Z.leb_le. assumption.
  - intros He. split; [apply getRemainingSlots_sentinel; assumption |].
    intros cfg s. apply processBoard_inactive. assumption.
Qed.

Lemma getRemainingSlots_rounds :
  getRemainingSlots {| roundId := 5; startSlot := 0; endSlot := 9007199254740993 |} 0
  = 9007199254740992
  /\ Z.max 0 (9007199254740993 - 0) = 9007199254740993.
Proof. split; reflexivity. Qed.

End DecoderFacts.

(** ** The triggers of the watcher *)

Module WatcherFacts.
Import BoardDecoder BoardWatcher WatcherSpec.

Lemma processBoard_ev cfg board currentSlot s :
  let flag := afterReset (lastBoard s) board (evSnapshotTriggeredForRound s) in
  let fired := fires (evSnapshotSlots cfg) board currentSlot flag in
  lastBoard (fst (processBoard cfg board currentSlot s)) = Some board
  /\ evSnapshotTriggeredForRound (fst (processBoard cfg board currentSlot s))
     = (if fired then Some (roundId board) else flag)
  /\ forall r, evSnapshotCount r (snd (processBoard cfg board currentSlot s))
               = (if fired && (roundId board =? r) then 1%nat else 0%nat).
Proof.
  unfold processBoard, fires, inWindow, afterReset, checkPostFin, checkPricesFetch,
    checkEvSnapshot, evSnapshotCount.
  destruct (lastBoard s) as [previous |]; [destruct (roundId previous <? roundId board) |];
    destruct (isRoundActive board); simpl;
    repeat match goal with
      | |- context [if ?c then _ else _] => destruct c eqn:?; simpl
      end;
    repeat split; intros; simpl;
    repeat match goal with
      | |- context [if ?c then _ else _] => destruct c eqn:?; simpl
      end; try reflexivity; try congruence; try lia.
Qed.

Lemma processBoard_prices cfg board currentSlot s :
  let flag := afterReset (lastBoard s) board (pricesFetchTriggeredForRound s) in
  let fired := fires (preFinThresholdSlots cfg) board currentSlot flag in
  lastBoard (fst (processBoard cfg board currentSlot s)) = Some board
  /\ pricesFetchTriggeredForRound (fst (processBoard cfg board currentSlot s))
     = (if fired then Some (roundId board) else flag)
  /\ forall r, pricesFetchCount r (snd (processBoard cfg board currentSlot s))
               = (if fired && (roundId board =? r) then 1%nat else 0%nat).
Proof.
  unfold processBoard, fires, inWindow, afterReset, checkPostFin, checkPricesFetch,
    checkEvSnapshot, pricesFetchCount.
  destruct (lastBoard s) as [previous |]; [destruct (roundId previous <? roundId board) |];
    destruct (isRoundActive board); simpl;
    repeat match goal with
      | |- context [if ?c then _ else _] => destruct c eqn:?; simpl
      end;
    repeat split; intros; simpl;
    repeat match goal with
      | |- context [if ?c then _ else _] => destruct c eqn:?; simpl
      end; try reflexivity; try congruence; try lia.
Qed.

Lemma processAll_cons cfg board currentSlot rest s :
  processAll cfg ((board, currentSlot) :: rest) s
  = (fst (processAll cfg rest (fst (processBoard cfg board currentSlot s))),
     snd (processBoard cfg board currentSlot s)
     ++ snd (processAll cfg rest (fst (processBoard cfg board currentSlot s)))).
Proof.
  simpl. destruct (processBoard cfg board currentSlot s) as [s1 e1]. cbn [fst snd].
  destruct (processAll cfg rest s1) as [s2 e2]. reflexivity.
Qed.

(** One phase of the watcher: its threshold, its fired-flag and the count
    of its triggers, with what a step does to them. *)
Section Phase.

Variable cfg : Config.
Variable threshold : Z.
Variable flagOf : State -> option Z.
Variable countOf : Z -> list Event -> nat.

Hypothesis countOf_nil : forall r, countOf r [] = 0%nat.

Hypothesis countOf_app :
  forall r e1 e2, countOf r (e1 ++ e2) = (countOf r e1 + countOf r e2)%nat.

Hypothesis step :
  forall board currentSlot s,
    let flag := afterReset (lastBoard s) board (flagOf s) in
    let fired := fires threshold board currentSlot flag in
    lastBoard (fst (processBoard cfg board currentSlot s)) = Some board
    /\ flagOf (fst (processBoard cfg board currentSlot s))
       = (if fired then Some (roundId board) else flag)
    /\ forall r, countOf r (snd (processBoard cfg board currentSlot s))
                 = (if fired && (roundId board =? r) then 1%nat else 0%nat).

(** Once the trigger of round [r] has fired, or a later round has been
    seen, no trigger for [r] follows. *)
Lemma no_more_triggers r updates : forall s b,
  lastBoard s = Some b ->
  neverDecreaseFrom (Some (roundId b)) updates ->
  r < roundId b \/ (r = roundId b /\ flagOf s = Some r) ->
  countOf r (snd (processAll cfg updates s)) = 0%nat.
Proof.
  induction updates as [| [board currentSlot] rest IH]; intros s b Hlast Hmono Hr.
  - simpl. apply countOf_nil.
  - destruct Hmono as [Hle Hrest].
    rewrite processAll_cons. cbn [snd]. rewrite countOf_app.
    destruct (step board currentSlot s) as (Hlast' & Hflag' & Hcount).
    rewrite (Hcount r).
    rewrite (IH _ board Hlast' Hrest).
    + destruct (Z.eqb_spec (roundId board) r) as [Heq | Hne];
        [| rewrite andb_false_r; reflexivity].
      destruct Hr as [Hlt | [Heq' Hfl]]; [lia |].
      unfold afterReset, fires. rewrite Hlast.
      destruct (Z.ltb_spec (roundId b) (roundId board)); [lia |].
      rewrite Hfl. unfold differs. rewrite Heq, Z.eqb_refl. simpl.
      rewrite andb_false_r. reflexivity.
    + destruct (Z.eq_dec (roundId board) r) as [Heq | Hne]; [| left; lia].
      right. split; [lia |]. rewrite Hflag'.
      destruct Hr as [Hlt | [Heq' Hfl]]; [lia |].
      unfold afterReset, fires. rewrite Hlast.
      destruct (Z.ltb_spec (roundId b) (roundId board)); [lia |].
      rewrite Hfl. unfold differs. rewrite Heq, Z.eqb_refl. simpl.
      rewrite andb_false_r. reflexivity.
Qed.

(** At most one trigger per round id. *)
Lemma at_most_once r updates : forall s,
  neverDecreaseFrom (lastRoundId s) updates ->
  (countOf r (snd (processAll cfg updates s)) <= 1)%nat.
Proof.
  induction updates as [| [board currentSlot] rest IH]; intros s Hmono.
  - simpl. rewrite countOf_nil. lia.
  - destruct Hmono as [Hle Hrest].
    rewrite processAll_cons. cbn [snd]. rewrite countOf_app.
    destruct (step board currentSlot s) as (Hlast' & Hflag' & Hcount).
    rewrite (Hcount r).
    destruct (fires threshold board currentSlot
                (afterReset (lastBoard s) board (flagOf s))) eqn:Hfired;
      [destruct (Z.eqb_spec (roundId board) r) as [Heq | Hne] |]; simpl.
    + rewrite (no_more_triggers r rest _ board Hlast' Hrest); [lia |].
      right. split; [lia |]. rewrite Hflag'. congruence.
    + apply IH. unfold lastRoundId. rewrite Hlast'. assumption.
    + apply IH. unfold lastRoundId. rewrite Hlast'. assumption.
Qed.

(** Exactly one trigger for a round id that is seen inside the window. *)
Lemma exactly_once r updates : forall s,
  neverDecreaseFrom (lastRoundId s) updates ->
  flagOf s <> Some r ->
  (exists board currentSlot,
      In (board, currentSlot) updates /\ roundId board = r
      /\ inWindow threshold board currentSlot = true) ->
  countOf r (snd (processAll cfg updates s)) = 1%nat.
Proof.
  induction updates as [| [board currentSlot] rest IH]; intros s Hmono Hflag Hseen.
  - destruct Hseen as (? & ? & [] & _).
  - destruct Hmono as [Hle Hrest].
    rewrite processAll_cons. cbn [snd]. rewrite countOf_app.
    destruct (step board currentSlot s) as (Hlast' & Hflag' & Hcount).
    rewrite (Hcount r).
    assert (Hreset : afterReset (lastBoard s) board (flagOf s) <> Some r).
    { unfold afterReset. destruct (lastBoard s) as [p |]; [| assumption].
      destruct (roundId p <? roundId board); [discriminate | assumption]. }
    destruct (fires threshold board currentSlot
                (afterReset (lastBoard s) board (flagOf s))) eqn:Hfired;
      [destruct (Z.eqb_spec (roundId board) r) as [Heq | Hne] |]; simpl.
    + rewrite (no_more_triggers r rest _ board Hlast' Hrest); [lia |].
      right. split; [lia |]. rewrite Hflag'. congruence.
    + apply IH.
      * unfold lastRoundId. rewrite Hlast'. assumption.
      * rewrite Hflag'. congruence.
      * destruct Hseen as (b & c & [Hhead | Htail] & Hid & Hwin).
        -- congruence.
        -- exists b, c. auto.
    + apply IH.
      * unfold lastRoundId. rewrite Hlast'. assumption.
      * rewrite Hflag'. assumption.
      * destruct Hseen as (b & c & [Hhead | Htail] & Hid & Hwin).
        -- exfalso. injection Hhead as <- <-.
           unfold fires in Hfired. rewrite Hwin in Hfired. simpl in Hfired.
           unfold differs in Hfired.
           destruct (afterReset (lastBoard s) board (flagOf s)) as [f |]; [| discriminate].
           apply negb_false_iff, Z.eqb_eq in Hfired. congruence.
        -- exists b, c. auto.
Qed.

End Phase.

Lemma evSnapshotCount_app r e1 e2 :
  evSnapshotCount r (e1 ++ e2) = (evSnapshotCount r e1 + evSnapshotCount r e2)%nat.
Proof. unfold evSnapshotCount. rewrite List.filter_app, length_app. reflexivity. Qed.

Lemma pricesFetchCount_app r e1 e2 :
  pricesFetchCount r (e1 ++ e2) = (pricesFetchCount r e1 + pricesFetchCount r e2)%nat.
Proof. unfold pricesFetchCount. rewrite List.filter_app, length_app. reflexivity. Qed.

(** C5 (amended). For every sequence of boards whose round ids never
    decrease (duplicates allowed, the countdown values in any order),
    processed from the initial state of the watcher, each of
    onPricesFetchTrigger and onEvSnapshotTrigger fires at most once per round
    id, and onEvSnapshotTrigger fires exactly once for a round id that is
    seen on a board with remainingSlots in [0, evSnapshotSlots]. *)
Theorem triggers_once_per_round (cfg : Config) (updates : list (BoardAccount * Z)) (r : Z) :
  roundIdsNeverDecrease updates ->
  let events := snd (processAll cfg updates initial) in
  (pricesFetchCount r events <= 1)%nat
  /\ (evSnapshotCount r events <= 1)%nat
  /\ ((exists board currentSlot,
         In (board, currentSlot) updates /\ roundId board = r
         /\ inWindow (evSnapshotSlots cfg) board currentSlot = true) ->
      evSnapshotCount r events = 1%nat).
Proof.
  intros Hmono events. subst events. split; [| split].
  - apply (at_most_once cfg _ pricesFetchTriggeredForRound pricesFetchCount
             (fun _ => eq_refl) pricesFetchCount_app (processBoard_prices cfg)).
    exact Hmono.
  - apply (at_most_once cfg _ evSnapshotTriggeredForRound evSnapshotCount
             (fun _ => eq_refl) evSnapshotCount_app (processBoard_ev cfg)).
    exact Hmono.
  - intros Hseen.
    apply (exactly_once cfg _ evSnapshotTriggeredForRound evSnapshotCount
             (fun _ => eq_refl) evSnapshotCount_app (processBoard_ev cfg));
      [exact Hmono | discriminate | exact Hseen].
Qed.

End WatcherFacts.

(** ** Signs through the arithmetic *)

Module JsNumFacts.
Import Js NumberSpec.

Lemma positive_nonneg x : positive x -> nonneg x.
Proof. destruct x; cbn [nonneg positive]; try tauto. intros H. apply Qlt_le_weak. exact H. Qed.

Lemma nonneg_ofZ z : 0 <= z -> nonneg (ofZ z).
Proof.
  intros Hz. cbn [nonneg ofZ]. change 0%Q with (inject_Z 0). rewrite <- Zle_Qle. exact Hz.
Qed.

Lemma nonneg_add x y : nonneg x -> nonneg y -> nonneg (add x y).
Proof. destruct x, y; cbn [nonneg add]; try tauto. intros. lra. Qed.

Lemma positive_add_r x y : nonneg x -> positive y -> positive (add x y).
Proof. destruct x, y; cbn [nonneg positive add]; try tauto. intros. lra. Qed.

Lemma nonneg_mul x y : nonneg x -> nonneg y -> nonneg (mul x y).
Proof.
  destruct x, y; cbn [nonneg mul]; try tauto. intros. apply Qmult_le_0_compat; assumption.
Qed.

Lemma nonneg_max_r a y : nonneg y -> nonneg (max (Fin a) y).
Proof.
  destruct y as [| | | b]; cbn [nonneg max leb]; try tauto.
  intros Hb. destruct (Qle_bool a b) eqn:Hle; cbn [nonneg]; [exact Hb |].
  destruct (Qlt_le_dec b a) as [Hlt | Hge].
  - lra.
  - apply Qle_bool_iff in Hge. congruence.
Qed.

Lemma nonneg_div x y : nonneg x -> positive y -> nonneg (div x y).
Proof.
  destruct x as [| | | a], y as [| | | b]; cbn [nonneg positive div]; try tauto.
  intros Ha Hb. destruct (Qeq_bool b 0) eqn:Hz.
  - apply Qeq_bool_iff in Hz. lra.
  - cbn [nonneg]. apply Qle_shift_div_l; [exact Hb | lra].
Qed.

Lemma positive_leb_zero x : positive x -> leb x (ofZ 0) = false.
Proof.
  destruct x as [| | | a]; cbn [positive leb ofZ]; try tauto. intros Ha.
  destruct (Qle_bool a (inject_Z 0)) eqn:Hle; [| reflexivity].
  apply Qle_bool_iff in Hle. change (inject_Z 0) with 0%Q in Hle. lra.
Qed.

End JsNumFacts.

(** ** The EV calculator *)

Module EvFacts.
Import Js NumberSpec JsNumFacts RoundDecoder EvCalculator SharedTypes EvSpec.

Lemma lamportsToSol_nonneg d : 0 <= d -> nonneg (lamportsToSol (Some d)).
Proof.
  intros Hd. unfold lamportsToSol, NumberOf. apply nonneg_div.
  - apply nonneg_ofZ, JsFacts.Number_nonneg, Hd.
  - simpl. reflexivity.
Qed.

Lemma minStakeSol_positive : positive minStakeSol.
Proof. vm_compute. reflexivity. Qed.

Lemma PROBABILITY_OF_WIN_positive : positive PROBABILITY_OF_WIN.
Proof. vm_compute. reflexivity. Qed.

Lemma SOL_PAYOUT_FEE_FACTOR_positive : positive SOL_PAYOUT_FEE_FACTOR.
Proof. vm_compute. reflexivity. Qed.

Lemma EV_DENOMINATOR_positive : positive EV_DENOMINATOR.
Proof. vm_compute. reflexivity. Qed.

Lemma denominator_positive d : 0 <= d -> positive (denominator d).
Proof.
  intros Hd. apply positive_add_r; [apply lamportsToSol_nonneg, Hd | apply minStakeSol_positive].
Qed.

Lemma fold_left_add_nonneg (l : list Z) : forall acc,
  0 <= acc -> Forall (fun d => 0 <= d) l -> 0 <= fold_left (fun a d => a + d) l acc.
Proof.
  induction l as [| d l IH]; intros acc Hacc Hl; simpl; [exact Hacc |].
  inversion Hl; subst. apply IH; [lia | assumption].
Qed.

Lemma computeNetOreValueSol_nonneg round price p :
  PriceQuote.oreSol price = Fin p -> (0 <= p)%Q ->
  nonneg (computeNetOreValueSol round price).
Proof.
  intros Hp Hpos. unfold computeNetOreValueSol. rewrite Hp.
  apply nonneg_mul.
  - apply nonneg_mul; [exact Hpos | apply positive_nonneg, SOL_PAYOUT_FEE_FACTOR_positive].
  - apply nonneg_add; [apply nonneg_ofZ; lia |].
    apply nonneg_mul; [vm_compute; discriminate |].
    apply nonneg_max_r. apply nonneg_ofZ. lia.
Qed.

Lemma computeEvRatio_nonneg others pot stake net :
  nonneg others -> nonneg pot -> positive stake -> nonneg net ->
  nonneg (computeEvRatio others pot (ofZ 0) stake net).
Proof.
  intros Ho Hp Hs Hn. unfold computeEvRatio.
  rewrite positive_leb_zero by (apply positive_add_r; assumption).
  apply nonneg_div; [| apply positive_add_r; assumption].
  apply nonneg_mul; [apply positive_nonneg, PROBABILITY_OF_WIN_positive |].
  apply nonneg_add; [| assumption].
  apply nonneg_mul; [apply positive_nonneg, SOL_PAYOUT_FEE_FACTOR_positive |].
  apply nonneg_add; [| apply positive_nonneg, Hs].
  apply nonneg_add; [assumption | apply nonneg_ofZ; lia].
Qed.


Lemma tileLoop_Return f indices : forall results,
  tileLoop f indices = Return results ->
  Forall2 (fun i r => f i = Return r) indices results.
Proof.
  induction indices as [| i rest IH]; intros results H; simpl in H.
  - injection H as <-. constructor.
  - destruct (f i) as [r |] eqn:Hi; [| discriminate].
    destruct (tileLoop f rest) as [rs |] eqn:Hrest; [| discriminate].
    injection H as <-. constructor; [exact Hi | apply IH; reflexivity].
Qed.

Lemma tileEv_Return round pot net i t :
  tileEv round pot net i = Return t ->
  exists d,
    nth_error (RoundDecoder.deployed round) i = Some d
    /\ EvCalculator.deployed t = d
    /\ tileIndex t = Z.of_nat i
    /\ evRatio t = computeEvRatio (lamportsToSol (Some d)) pot (ofZ 0) minStakeSol net
    /\ floorToBigInt
         (Js.mul (solveMaxProfitableStake (lamportsToSol (Some d)) pot (ofZ 0) net)
                 (ofZ 1000000000))
       = Some (maxProfitable t).
Proof.
  unfold tileEv. intros H.
  destruct (nth_error (RoundDecoder.deployed round) i) as [d |] eqn:Hd.
  - destruct (floorToBigInt _) as [m |] eqn:Hm; [| discriminate].
    injection H as <-. exists d. cbn. auto.
  - destruct (floorToBigInt _); discriminate.
Qed.

Lemma lamportsToSol_Fin d :
  lamportsToSol (Some d) = Fin (inject_Z (Js.Number d) / inject_Z 1000000000).
Proof. reflexivity. Qed.

(** A net ORE value that is NaN or +Infinity leaves no maximal stake to
    convert: the tile is not produced. *)
Lemma maxProfitable_undefined b a net :
  net = NaN \/ net = PosInf ->
  floorToBigInt
    (Js.mul (solveMaxProfitableStake (Fin b) (Fin a) (ofZ 0) net) (ofZ 1000000000)) = None.
Proof. intros [-> | ->]; reflexivity. Qed.

Lemma Qsgn_positive q : (0 < q)%Q -> Qsgn q = 1.
Proof.
  unfold Qsgn, Qlt. destruct q as [n d]. simpl. intros H. apply Z.sgn_pos. lia.
Qed.

Lemma Qeq_bool_positive q : (0 < q)%Q -> Qeq_bool q 0 = false.
Proof.
  intros H. destruct (Qeq_bool q 0) eqn:He; [| reflexivity].
  apply Qeq_bool_iff in He. lra.
Qed.

Lemma div_by_positive x dq :
  (0 < dq)%Q -> x <> NaN -> x <> PosInf -> Js.div x (Fin dq) <> PosInf.
Proof.
  intros Hd Hnan Hinf. destruct x as [| | | n]; try congruence; unfold Js.div.
  - cbn [sign]. rewrite (Qeq_bool_positive dq Hd), (Qsgn_positive dq Hd). discriminate.
  - rewrite (Qeq_bool_positive dq Hd). discriminate.
Qed.

Lemma computeEvRatio_not_PosInf b a net :
  positive (Js.add (Fin b) minStakeSol) ->
  net <> NaN -> net <> PosInf ->
  computeEvRatio (Fin b) (Fin a) (ofZ 0) minStakeSol net <> PosInf.
Proof.
  intros Hden Hnan Hinf. unfold computeEvRatio.
  rewrite positive_leb_zero by exact Hden.
  destruct (Js.add (Fin b) minStakeSol) as [| | | dq] eqn:Hd; cbn [positive] in Hden;
    try contradiction.
  apply div_by_positive; [exact Hden | |]; destruct net; try congruence; discriminate.
Qed.

(** The guard of computeEvRatio: a denominator that is zero or negative
    gives +Infinity. *)
Lemma computeEvRatio_guard others pot exposure stake net :
  Js.leb (Js.add others stake) (ofZ 0) = true ->
  computeEvRatio others pot exposure stake net = PosInf.
Proof. intros Hle. unfold computeEvRatio. rewrite Hle. reflexivity. Qed.

(** C7 (amended). computeEvRatio returns +Infinity whenever its denominator
    (others' stake plus the probe stake) is zero or negative.  For every tile
    that calculateAllTileEvs produces from non-negative deployed values the
    denominator is positive, the probe stake being 0.001 SOL: the ratio is
    +Infinity exactly when the denominator is zero or negative, which is
    never, also for an uncontested tile; and for a finite, non-negative ORE
    price the ratio is finite and non-negative. *)
Theorem evRatio_of_produced_tiles
    (round : RoundAccount) (price : PriceQuote.t) (tiles : list TileEvResult) :
  calculateAllTileEvs round price = Return tiles ->
  List.Forall (fun d => 0 <= d) (RoundDecoder.deployed round) ->
  forall t, In t tiles ->
    positive (denominator (EvCalculator.deployed t))
    /\ (evRatio t = PosInf <-> Js.leb (denominator (EvCalculator.deployed t)) (ofZ 0) = true)
    /\ (forall p, PriceQuote.oreSol price = Fin p -> (0 <= p)%Q -> nonneg (evRatio t))
    /\ (forall others pot exposure stake net,
          Js.leb (Js.add others stake) (ofZ 0) = true ->
          computeEvRatio others pot exposure stake net = PosInf).
Proof.
  unfold calculateAllTileEvs. intros Hloop Hdep t Ht.
  apply tileLoop_Return in Hloop.
  assert (Hex : exists i, tileEv round
                   (lamportsToSol (Some (computePotFromOthers round)))
                   (computeNetOreValueSol round price) i = Return t).
  { clear - Hloop Ht. induction Hloop as [| i r indices rs Hi _ IH]; [destruct Ht |].
    destruct Ht as [-> | Ht]; [exists i; exact Hi | apply IH, Ht]. }
  destruct Hex as [i Hi]. apply tileEv_Return in Hi.
  destruct Hi as (d & Hnth & Hd & _ & Hev & Hmax).
  assert (Hd0 : 0 <= d).
  { apply (proj1 (List.Forall_forall _ _) Hdep). eapply nth_error_In, Hnth. }
  rewrite Hd. pose proof (denominator_positive d Hd0) as Hpos.
  split; [exact Hpos |]. split; [| split; [| exact computeEvRatio_guard]].
  - rewrite (positive_leb_zero _ Hpos). split; [| discriminate].
    intros Hinf. exfalso. rewrite Hev in Hinf. revert Hinf.
    rewrite !lamportsToSol_Fin in *.
    apply computeEvRatio_not_PosInf.
    + exact Hpos.
    + intros Hn. rewrite maxProfitable_undefined in Hmax by (left; exact Hn). discriminate.
    + intros Hn. rewrite maxProfitable_undefined in Hmax by (right; exact Hn). discriminate.
  - intros p Hp Hp0. rewrite Hev. apply computeEvRatio_nonneg.
    + apply lamportsToSol_nonneg, Hd0.
    + apply lamportsToSol_nonneg. unfold computePotFromOthers.
      apply fold_left_add_nonneg; [lia | exact Hdep].
    + apply minStakeSol_positive.
    + eapply computeNetOreValueSol_nonneg; eassumption.
Qed.

End EvFacts.

(** ** The tile ranker *)

Module RankerFacts.
Import Js EvCalculator TileRanker RankingSpec.

Lemma Qle_bool_spec q r : reflect (q <= r)%Q (Qle_bool q r).
Proof. apply iff_reflect. symmetry. apply Qle_bool_iff. Qed.

Lemma Qeq_bool_spec q r : reflect (q == r)%Q (Qeq_bool q r).
Proof. apply iff_reflect. symmetry. apply Qeq_bool_iff. Qed.

Lemma Number_nonpos_iff z : Js.Number z <= 0 <-> z <= 0.
Proof.
  split; intros H.
  - destruct (Z_lt_le_dec 0 z) as [Hpos | Hle]; [| exact Hle].
    pose proof (JsFacts.Number_pos z Hpos). lia.
  - destruct (Z.eq_dec z 0) as [-> | Hne]; [discriminate |].
    pose proof (JsFacts.Number_neg z). lia.
Qed.

Lemma tieBreak ma mb :
  negb (Qle_bool (inject_Z (Js.Number (mb - ma))) (inject_Z 0)) = false <-> mb <= ma.
Proof.
  rewrite negb_false_iff, Qle_bool_iff, <- Zle_Qle, Number_nonpos_iff. lia.
Qed.

Lemma keeps_before a b :
  isNumber a -> isNumber b ->
  (keeps a b <-> before (evRatio a) (maxProfitable a) (evRatio b) (maxProfitable b)).
Proof.
  unfold isNumber, keeps, before, compareTiles.
  destruct (evRatio a) as [| | | qa], (evRatio b) as [| | | qb];
    cbn [isNaN isFinite negb andb neqb eqb ltb Js.sub Js.add Js.neg ofZ]; try discriminate;
    intros _ _; rewrite ?tieBreak.
  1-8: cbn; intuition (try discriminate; try lia).
  unfold neqb; cbn [eqb].
  destruct (Qeq_bool_spec qb qa) as [Heq | Hne]; cbn [negb ofZ].
  - rewrite tieBreak.
    destruct (Qle_bool_spec qa qb) as [Hle | Hgt], (Qeq_bool_spec qa qb) as [He | Hn];
      cbn [negb]; intuition (try discriminate; try lia; try lra).
  - destruct (Qle_bool_spec (qb + - qa) (inject_Z 0)) as [Hle | Hgt],
      (Qle_bool_spec qa qb) as [Hle' | Hgt'], (Qeq_bool_spec qa qb) as [He | Hn];
      cbn [negb]; change (inject_Z 0) with 0%Q in *;
      intuition (try discriminate; try lia; try lra).
Qed.

Lemma before_total ra ma rb mb :
  isNaN ra = false -> isNaN rb = false ->
  before ra ma rb mb \/ before rb mb ra ma.
Proof.
  unfold before.
  destruct ra as [| | | qa], rb as [| | | qb]; cbn [isNaN isFinite ltb eqb]; try discriminate;
    intros _ _.
  1-8: destruct (Z_le_gt_dec mb ma); intuition (try lia).
  destruct (Qle_bool_spec qa qb) as [Hle | Hgt], (Qle_bool_spec qb qa) as [Hle' | Hgt'],
    (Qeq_bool_spec qa qb) as [He | Hn], (Qeq_bool_spec qb qa) as [He' | Hn'];
    cbn [negb]; destruct (Z_le_gt_dec mb ma);
    try (exfalso; lra); intuition (try lia).
Qed.

Lemma before_trans ra ma rb mb rc mc :
  isNaN ra = false -> isNaN rb = false -> isNaN rc = false ->
  before ra ma rb mb -> before rb mb rc mc -> before ra ma rc mc.
Proof.
  unfold before.
  destruct ra as [| | | qa], rb as [| | | qb], rc as [| | | qc];
    cbn [isNaN isFinite ltb eqb]; try discriminate; intros _ _ _.
  1-26: intuition (try discriminate; try lia).
  destruct (Qle_bool_spec qa qb), (Qle_bool_spec qb qa), (Qle_bool_spec qb qc),
    (Qle_bool_spec qc qb), (Qle_bool_spec qa qc), (Qle_bool_spec qc qa),
    (Qeq_bool_spec qa qb), (Qeq_bool_spec qb qc), (Qeq_bool_spec qa qc);
    cbn [negb]; try (exfalso; lra); intuition (try discriminate; try lia).
Qed.


Lemma keeps_total a b : isNumber a -> isNumber b -> keeps a b \/ keeps b a.
Proof.
  intros Ha Hb. rewrite !keeps_before by assumption. apply before_total; assumption.
Qed.

Lemma keeps_trans a b c :
  isNumber a -> isNumber b -> isNumber c -> keeps a b -> keeps b c -> keeps a c.
Proof.
  intros Ha Hb Hc. rewrite !keeps_before by assumption. apply before_trans; assumption.
Qed.

Section Sorting.

Context {A : Type} (cmp : A -> A -> JsNum).

Lemma insertSorted_perm x l : Permutation (x :: l) (insertSorted cmp x l).
Proof.
  induction l as [| y l IH]; cbn [insertSorted]; [reflexivity |].
  destruct (Js.ltb (ofZ 0) (cmp x y)); [| reflexivity].
  rewrite perm_swap. apply perm_skip, IH.
Qed.

Lemma sortBy_perm l : Permutation l (sortBy cmp l).
Proof.
  induction l as [| x l IH]; simpl; [reflexivity |].
  rewrite <- insertSorted_perm. apply perm_skip, IH.
Qed.

Lemma sortBy_length l : length (sortBy cmp l) = length l.
Proof. symmetry. apply Permutation_length, sortBy_perm. Qed.

End Sorting.

Lemma insertSorted_sorted x l :
  isNumber x -> List.Forall isNumber l ->
  StronglySorted keeps l -> StronglySorted keeps (insertSorted compareTiles x l).
Proof.
  intros Hx. induction l as [| y l IH]; intros Hl Hs; cbn [insertSorted].
  - constructor; constructor.
  - inversion Hl as [| ? ? Hy Hl']; subst. inversion Hs as [| ? ? Hs' Hall]; subst.
    destruct (Js.ltb (ofZ 0) (compareTiles x y)) eqn:Hcmp.
    + constructor; [apply IH; assumption |].
      apply (Permutation_Forall (insertSorted_perm compareTiles x l)).
      constructor; [| exact Hall].
      destruct (keeps_total x y Hx Hy) as [Hk | Hk]; [| exact Hk].
      unfold keeps in Hk. congruence.
    + constructor; [exact Hs |]. constructor; [exact Hcmp |].
      rewrite List.Forall_forall in *. intros z Hz.
      apply (keeps_trans x y z); auto.
Qed.

Lemma sortBy_sorted l :
  List.Forall isNumber l -> StronglySorted keeps (sortBy compareTiles l).
Proof.
  induction l as [| x l IH]; intros Hl; simpl; [constructor |].
  inversion Hl; subst. apply insertSorted_sorted; auto.
  apply (Permutation_Forall (sortBy_perm compareTiles l)). assumption.
Qed.

Lemma assignRanks_ranks l : forall k,
  map TilePreFin.rankEv (assignRanks k l)
  = map (fun i => k + Z.of_nat i) (seq 1 (length l)).
Proof.
  induction l as [| t l IH]; intros k; simpl; [reflexivity |].
  f_equal. rewrite IH, <- (seq_shift (length l) 1), List.map_map.
  apply List.map_ext. intros i. lia.
Qed.

Lemma assignRanks_unranked l : forall k, map unranked (assignRanks k l) = l.
Proof.
  induction l as [| t l IH]; intros k; simpl; [reflexivity |].
  f_equal; [destruct t; reflexivity | apply IH].
Qed.

Lemma assignRanks_lower l : forall k r, In r (assignRanks k l) -> k + 1 <= TilePreFin.rankEv r.
Proof.
  induction l as [| t l IH]; intros k r; simpl; [tauto |].
  intros [<- | Hr]; [simpl; lia |]. apply IH in Hr. lia.
Qed.

Lemma assignRanks_member l k r : In r (assignRanks k l) -> In (unranked r) l.
Proof.
  intros Hr. rewrite <- (assignRanks_unranked l k). apply in_map, Hr.
Qed.

Lemma assignRanks_ordered l :
  List.Forall isNumber l -> StronglySorted keeps l ->
  forall k a b, In a (assignRanks k l) -> In b (assignRanks k l) ->
    TilePreFin.rankEv a < TilePreFin.rankEv b -> rankedBefore a b.
Proof.
  intros Hnum Hs. induction Hs as [| t l Hs IH Hall]; intros k a b; simpl; [tauto |].
  inversion Hnum as [| ? ? Ht Hl]; subst.
  intros [<- | Ha] [<- | Hb] Hlt.
  - simpl in Hlt. lia.
  - apply assignRanks_member in Hb.
    rewrite List.Forall_forall in Hall, Hl.
    pose proof (Hall _ Hb) as Hk. apply keeps_before in Hk; auto.
  - apply assignRanks_lower in Ha. simpl in Hlt. lia.
  - eapply IH; eauto.
Qed.

(** C4. For every array of 25 tile EV results, the ranks that
    rankTilesByEv assigns are 1, 2, ..., 25 in the order of the result: no
    duplicate, no gap.  The ranked tiles are the given tiles in another order,
    and, the EV ratios being numbers (not NaN), a tile of smaller rank is
    ranked before a tile of larger rank: an infinite ratio before a finite
    one, else the larger ratio first, equal ratios by the larger maximal
    profitable stake.  No assumption is made on the deployed values. *)
Theorem rankTilesByEv_spec (tiles : list TileEvResult) :
  length tiles = 25%nat ->
  let ranked := rankTilesByEv tiles in
  map TilePreFin.rankEv ranked = map Z.of_nat (seq 1 25)
  /\ List.NoDup (map TilePreFin.rankEv ranked)
  /\ (forall rank, 1 <= rank <= 25 <-> In rank (map TilePreFin.rankEv ranked))
  /\ Permutation (map unranked ranked) tiles
  /\ (List.Forall (fun t => isNaN (evRatio t) = false) tiles ->
      forall a b, In a ranked -> In b ranked ->
        TilePreFin.rankEv a < TilePreFin.rankEv b -> rankedBefore a b).
Proof.
  intros Hlen ranked. subst ranked. unfold rankTilesByEv.
  assert (Hranks : map TilePreFin.rankEv (assignRanks 0 (sortBy compareTiles tiles))
                   = map Z.of_nat (seq 1 25)).
  { rewrite assignRanks_ranks, sortBy_length, Hlen. reflexivity. }
  split; [exact Hranks |]. rewrite Hranks. split; [| split; [| split]].
  - apply Finite.Injective_map_NoDup; [intros x y; lia | apply seq_NoDup].
  - intros rank. rewrite in_map_iff. split.
    + intros Hr. exists (Z.to_nat rank). split; [lia |]. apply in_seq. lia.
    + intros (n & <- & Hn). apply in_seq in Hn. lia.
  - rewrite assignRanks_unranked. symmetry. apply sortBy_perm.
  - intros Hnum a b. apply assignRanks_ordered.
    + apply (Permutation_Forall (sortBy_perm compareTiles tiles)). exact Hnum.
    + apply sortBy_sorted. exact Hnum.
Qed.

End RankerFacts.

(** ** The statements of the repository *)

Module StoreFacts.
Import Sqlite StoreSpec.

Lemma stmtExistsRound_present roundId db :
  stmtExistsRound roundId db = true <-> present roundId db.
Proof.
  unfold stmtExistsRound, present. destruct (rounds db !! Js.Number roundId).
  - split; eauto.
  - split; [discriminate | intros [? ?]; discriminate].
Qed.

Lemma stmtDeleteRound_present roundId db :
  present roundId db ->
  snd (stmtDeleteRound roundId db) = 1
  /\ absent roundId (fst (stmtDeleteRound roundId db)).
Proof.
  unfold present, stmtDeleteRound, absent. intros [row Hrow]. rewrite Hrow. cbn [fst snd rounds tiles].
  split; [reflexivity |]. split.
  - apply lookup_delete_eq.
  - intros idx. apply map_lookup_filter_None. right. intros row' _ Hne. apply Hne. reflexivity.
Qed.

Lemma stmtDeleteRound_absent roundId db :
  rounds db !! Js.Number roundId = None -> stmtDeleteRound roundId db = (db, 0).
Proof. unfold stmtDeleteRound. intros ->. reflexivity. Qed.


Lemma stmtUpdateTilePostFin_rounds rid tile db db' :
  stmtUpdateTilePostFin rid tile db = Return db' -> rounds db' = rounds db.
Proof.
  unfold stmtUpdateTilePostFin.
  destruct (tiles db !! _); intros [= <-]; reflexivity.
Qed.

Lemma updateTiles_rounds rid tiles0 : forall db db',
  runAll (map (stmtUpdateTilePostFin rid) tiles0) db = Return db' -> rounds db' = rounds db.
Proof.
  induction tiles0 as [| t rest IH]; intros db db'; cbn [map runAll].
  - intros [= <-]. reflexivity.
  - destruct (stmtUpdateTilePostFin rid t db) as [db1 |] eqn:H1; [| discriminate].
    intros H. rewrite (IH _ _ H). eapply stmtUpdateTilePostFin_rounds, H1.
Qed.



(** A transaction that throws leaves the database as it was. *)
Lemma transaction_rollback fault body db e :
  fst (transaction fault body db) = Throw e -> snd (transaction fault body db) = db.
Proof.
  unfold transaction. destruct fault; [reflexivity |].
  destruct (body db); [discriminate | reflexivity].
Qed.

End StoreFacts.

(** ** completePostFin: the failure paths *)

Module PostFinFacts.
Import World CompletePostFin StoreSpec StoreFacts PostFinSpec.


(** A delete that fails: handleFailure throws the error of the delete, and
    neither deletes nor notifies. *)
Lemma handleFailure_locked env roundId why w e :
  deleteFault env = Some e ->
  exists w',
    handleFailure env roundId why w = (Throw e, w')
    /\ db w' = db w
    /\ outbox w' = outbox w.
Proof.
  intros Hfault. unfold handleFailure, Repository.deleteRound. rewrite Hfault.
  unfold bind, called, throw. eexists. split; [reflexivity |]. split; reflexivity.
Qed.

(** handleFailure never returns anything but undefined. *)
Lemma handleFailure_outcome env roundId why w :
  (exists w', handleFailure env roundId why w = (Return tt, w'))
  \/ (exists e w', handleFailure env roundId why w = (Throw e, w')
                   /\ deleteFault env = Some e /\ db w' = db w /\ outbox w' = outbox w).
Proof.
  destruct (deleteFault env) as [e |] eqn:Hfault.
  - right. destruct (handleFailure_locked env roundId why w e Hfault) as (w' & Hrun & Hdb & Hout).
    exists e, w'. auto.
  - left. unfold handleFailure, Repository.deleteRound. rewrite Hfault.
    unfold bind, called, log, ret, notifyFailure, setDb.
    destruct (Sqlite.stmtDeleteRound roundId _) as [d changes].
    destruct (0 <? changes); eexists; reflexivity.
Qed.




Lemma completePostFin_unfold env ctx w :
  completePostFin env ctx w
  = tryCatch
      (completionSequence env (previousRoundId ctx) (clock env (clockReads w)))
      (fun message =>
         World.bind
           (log LevelError chan "Post-fin completion failed"
              [("roundId"%string, VStr (showZ (previousRoundId ctx)));
               ("error"%string, VStr message)])
           (fun _ =>
              World.bind
                (handleFailure env (previousRoundId ctx)
                   ("Post-fin completion failed: " ++ message)%string)
                (fun _ => ret false)))
      (atTry ctx w).
Proof. reflexivity. Qed.



End PostFinFacts.

(** ** completePostFin: the record written *)

Module SplitFacts.
Import World CompletePostFin StoreSpec StoreFacts PostFinSpec PostFinFacts Spec.

Lemma byteZ_inj a b : PublicKey.byteZ a = PublicKey.byteZ b -> a = b.
Proof.
  unfold PublicKey.byteZ. intros H. apply N2Z.inj in H.
  pose proof (Byte.of_to_N a) as Ha. rewrite H, Byte.of_to_N in Ha. congruence.
Qed.

Lemma equals_spec a b : PublicKey.equals a b = true <-> a = b.
Proof.
  unfold PublicKey.equals. rewrite bool_decide_eq_true. split; [| intros ->; reflexivity].
  revert b. induction a as [| x a IH]; intros [| y b]; simpl; try discriminate; auto.
  intros [= Hxy Hab]. f_equal; [apply byteZ_inj, Hxy | apply IH, Hab].
Qed.

Lemma shouldSplitReward_spec seed :
  length seed = 32%nat ->
  RngCalculator.shouldSplitReward seed = Return (Z.even (xorOfU16s seed)).
Proof.
  intros Hlen. unfold RngCalculator.shouldSplitReward. rewrite Hlen. cbn [Nat.eqb negb].
  rewrite !BufferFacts.readUInt16LE_chunk by lia. fold (xorOfU16s seed).
  f_equal. rewrite Zeven_mod, Z.rem_mod_nonneg; [reflexivity | | lia].
  apply RngFacts.xorOfU16s_nonneg.
Qed.

Lemma buildPostFin_split roundId startTime roundState postFin :
  buildPostFin roundId startTime roundState = Return postFin ->
  RoundPostFin.splitTopMiner postFin
  = PublicKey.equals (RoundDecoder.topMiner roundState) Constants.SPLIT_ADDRESS
  /\ RoundPostFin.roundId postFin = roundId
  /\ length (RoundPostFin.slotHash postFin) = 32%nat
  /\ 0 <= RoundPostFin.winningTile postFin <= 24.
Proof.
  unfold buildPostFin.
  destruct (RngCalculator.computeRng _) as [rng |] eqn:Hrng; [| discriminate].
  destruct (RngCalculator.computeWinningTile _) as [tile |] eqn:Htile; [| discriminate].
  intros [= <-]. cbn.
  assert (Hlen : length (RoundDecoder.slotHash roundState) = 32%nat).
  { unfold RngCalculator.computeRng in Hrng.
    destruct (Nat.eqb_spec (length (RoundDecoder.slotHash roundState)) 32);
      [assumption | discriminate]. }
  repeat split; try assumption.
  all: destruct (RngFacts.computeWinningTile_32 _ Hlen) as (Hw & Hrange);
    rewrite Hw in Htile; injection Htile as <-; lia.
Qed.


(** The row the update statement writes. *)
Lemma completePostFinBody_row data db db' :
  Sqlite.completePostFinBody data db = Return db' ->
  present (RoundPostFin.roundId data) db ->
  exists row,
    Sqlite.rounds db' !! Js.Number (RoundPostFin.roundId data) = Some row
    /\ Sqlite.split_top_miner row = Some (if RoundPostFin.splitTopMiner data then 1 else 0)
    /\ Sqlite.num_winners row = option_map Js.Number (RoundPostFin.numWinners data)
    /\ (is_Some (RoundPostFin.numWinners data) -> completed row).
Proof.
  unfold Sqlite.completePostFinBody, present. cbn [Sqlite.runAll].
  destruct (Sqlite.stmtUpdateRoundPostFin data db) as [db1 |] eqn:H1; [| discriminate].
  intros Htiles [old Hold]. rewrite (updateTiles_rounds _ _ _ _ Htiles).
  unfold Sqlite.stmtUpdateRoundPostFin in H1. rewrite Hold in H1.
  destruct (negb _); [discriminate |]. destruct (negb _); [discriminate |].
  injection H1 as <-. cbn [Sqlite.rounds]. rewrite lookup_insert_eq.
  eexists. split; [reflexivity |]. cbn. split; [reflexivity |]. split; [reflexivity |].
  intros [n Hn]. rewrite Hn. unfold completed. cbn. repeat split; eauto.
Qed.

Lemma completionSequence_true env roundId startTime w w' :
  present roundId (db w) ->
  completionSequence env roundId startTime w = (Return true, w') ->
  exists roundState postFin,
    World.fetchRoundState env roundId = Return roundState
    /\ RoundDecoder.isSlotHashValid (RoundDecoder.slotHash roundState) = true
    /\ buildPostFin roundId startTime roundState = Return postFin
    /\ completeFault env = None
    /\ Sqlite.completePostFinBody postFin (db w) = Return (db w')
    /\ is_Some (RoundPostFin.numWinners postFin)
    /\ outbox w' = outbox w
    /\ calls w' = (calls w ++ [CallExists roundId; CallCompletePostFin postFin])%list.
Proof.
  intros Hp.
  pose proof (proj2 (stmtExistsRound_present roundId (db w)) Hp) as Hex.
  runCompletion. rewrite Hex. cbn [negb].
  destruct (World.fetchRoundState env roundId) as [roundState | e0].
  - destruct (RoundDecoder.isSlotHashValid (RoundDecoder.slotHash roundState)) eqn:Hvalid;
      cbn [negb].
    + destruct (buildPostFin roundId startTime roundState) as [postFin | e1] eqn:Hbuild;
        cbn [db outbox calls logs clockReads]; [| discriminate].
      unfold Sqlite.transaction.
      destruct (completeFault env) as [e2 |] eqn:Hfault; [discriminate |].
      destruct (Sqlite.completePostFinBody postFin (db w)) as [committed | e3] eqn:Hbody;
        [| discriminate].
      destruct (RoundPostFin.numWinners postFin) as [n |] eqn:Hn; cbn; [| discriminate].
      intros [= <-]. cbn. exists roundState, postFin. rewrite Hn, <- app_assoc.
      repeat split; eauto.
    + match goal with
      | |- context [handleFailure env roundId ?why ?w0] =>
          destruct (handleFailure_outcome env roundId why w0)
            as [(w1 & Hrun) | (e & w1 & Hrun & _)]; rewrite Hrun
      end; discriminate.
  - match goal with
    | |- context [handleFailure env roundId ?why ?w0] =>
        destruct (handleFailure_outcome env roundId why w0)
          as [(w1 & Hrun) | (e & w1 & Hrun & _)]; rewrite Hrun
    end; discriminate.
Qed.

Lemma completePostFin_true env ctx w w' :
  present (previousRoundId ctx) (db w) ->
  completePostFin env ctx w = (Return true, w') ->
  completionSequence env (previousRoundId ctx) (clock env (clockReads w)) (atTry ctx w)
  = (Return true, w').
Proof.
  intros Hp. rewrite completePostFin_unfold. unfold tryCatch.
  destruct (completionSequence env (previousRoundId ctx) (clock env (clockReads w))
              (atTry ctx w)) as [[b | e] w1] eqn:Hrun; [auto |].
  assert (Hp' : present (previousRoundId ctx) (db (atTry ctx w))) by exact Hp.
  unfold bind, log. cbn [db outbox calls logs clockReads].
  match goal with
  | |- context [handleFailure env _ ?why ?w0] =>
      destruct (handleFailure_outcome env (previousRoundId ctx) why w0)
        as [(w2 & Hrun') | (e' & w2 & Hrun' & _)]; rewrite Hrun'
  end; discriminate.
Qed.

(** C6 (amended). For every completed round (completePostFin returns true
    on a round present in the store), the split flag of the RoundPostFin
    record handed to the repository, and the split_top_miner column written,
    are true exactly when the top miner of the fetched round state is
    SPLIT_ADDRESS; all completion columns of the row are filled.  The seed
    decides shouldSplitReward, which is true exactly when the XOR of the four
    2-byte little-endian values of the first 8 bytes is even, and which
    completePostFin does not call. *)
Theorem splitTopMiner_recorded (env : Env) (ctx : PostFinContext) (w w' : World.t) :
  present (previousRoundId ctx) (db w) ->
  completePostFin env ctx w = (Return true, w') ->
  exists roundState postFin row,
    World.fetchRoundState env (previousRoundId ctx) = Return roundState
    /\ calls w' = (calls w ++ [CallExists (previousRoundId ctx);
                               CallCompletePostFin postFin])%list
    /\ (RoundPostFin.splitTopMiner postFin = true
        <-> RoundDecoder.topMiner roundState = Constants.SPLIT_ADDRESS)
    /\ Sqlite.rounds (db w') !! Js.Number (previousRoundId ctx) = Some row
    /\ (Sqlite.split_top_miner row = Some 1
        <-> RoundDecoder.topMiner roundState = Constants.SPLIT_ADDRESS)
    /\ completed row
    /\ RngCalculator.shouldSplitReward (RoundDecoder.slotHash roundState)
       = Return (Z.even (xorOfU16s (RoundDecoder.slotHash roundState))).
Proof.
  intros Hp Hrun. apply completePostFin_true in Hrun; [| exact Hp].
  assert (Hp' : present (previousRoundId ctx) (db (atTry ctx w))) by exact Hp.
  destruct (completionSequence_true env _ _ _ _ Hp' Hrun)
    as (roundState & postFin & Hfetch & _ & Hbuild & _ & Hbody & Hwinners & _ & Hcalls).
  destruct (buildPostFin_split _ _ _ _ Hbuild) as (Hsplit & Hid & Hlen & _).
  cbn [db atTry] in Hbody. rewrite <- Hid in Hp.
  destruct (completePostFinBody_row _ _ _ Hbody Hp) as (row & Hrow & Hflag & _ & Hdone).
  rewrite Hid in Hrow.
  assert (Hseed : length (RoundDecoder.slotHash roundState) = 32%nat).
  { unfold buildPostFin in Hbuild.
    destruct (RngCalculator.computeRng _) eqn:Hrng; [| discriminate].
    unfold RngCalculator.computeRng in Hrng.
    destruct (Nat.eqb_spec (length (RoundDecoder.slotHash roundState)) 32);
      [assumption | discriminate]. }
  exists roundState, postFin, row. split; [exact Hfetch |]. split; [exact Hcalls |].
  split; [rewrite Hsplit; apply equals_spec |]. split; [exact Hrow |].
  split; [| split; [exact (Hdone Hwinners) | apply shouldSplitReward_spec, Hseed]].
  rewrite Hflag, Hsplit, <- equals_spec.
  destruct (PublicKey.equals _ _); split; congruence.
Qed.

End SplitFacts.

(** ** A logic of effects on store and notifier *)

Module FrameFacts.
Import World Frame.

Lemma frame_ret {A} (a : A) : frame (ret a).
Proof. intros w. split; reflexivity. Qed.

Lemma frame_throw {A} e : frame (@throw A e).
Proof. intros w. split; reflexivity. Qed.

Lemma frame_lift {A} (o : outcome A) : frame (lift o).
Proof. intros w. split; reflexivity. Qed.

Lemma frame_dateNow env : frame (dateNow env).
Proof. intros w. split; reflexivity. Qed.

Lemma frame_log lvl chan msg d : frame (log lvl chan msg d).
Proof. intros w. split; reflexivity. Qed.

Lemma frame_called c : frame (called c).
Proof. intros w. split; reflexivity. Qed.

Lemma frame_bind {A B} (m : Eff A) (k : A -> Eff B) :
  frame m -> (forall a, frame (k a)) -> frame (bind m k).
Proof.
  intros Hm Hk w. unfold bind. specialize (Hm w).
  destruct (m w) as [[a | e] w1]; cbn [snd] in *; [| exact Hm].
  destruct Hm as [Hd0 Ho0]. destruct (Hk a w1) as [Hd Ho]. split; congruence.
Qed.

Lemma frame_tryCatch {A} (m : Eff A) (h : string -> Eff A) :
  frame m -> (forall e, frame (h e)) -> frame (tryCatch m h).
Proof.
  intros Hm Hh w. unfold tryCatch. specialize (Hm w).
  destruct (m w) as [[a | e] w1]; cbn [snd] in *; [exact Hm |].
  destruct Hm as [Hd0 Ho0]. destruct (Hh e w1) as [Hd Ho]. split; congruence.
Qed.

Lemma rollback_of_frame {A} (m : Eff A) : frame m -> rollback m.
Proof. intros Hm w e w' Hrun. specialize (Hm w). rewrite Hrun in Hm. exact Hm. Qed.

Lemma rollback_bind {A B} (m : Eff A) (k : A -> Eff B) :
  frame m -> (forall a, rollback (k a)) -> rollback (bind m k).
Proof.
  intros Hm Hk w e w'. unfold bind. specialize (Hm w).
  destruct (m w) as [[a | e0] w1] eqn:Hrun; cbn [snd] in Hm.
  - intros Hk'. destruct Hm as [Hd0 Ho0]. destruct (Hk a w1 e w' Hk') as [Hd Ho].
    split; congruence.
  - intros [= <- <-]. exact Hm.
Qed.

(** A step that rolls back, followed by steps that never throw. *)
Lemma rollback_then_total {A B} (m : Eff A) (k : A -> Eff B) :
  rollback m -> (forall a, total (k a)) -> rollback (bind m k).
Proof.
  intros Hm Hk w e w'. unfold bind.
  destruct (m w) as [[a | e0] w1] eqn:Hrun.
  - intros Hk'. destruct (Hk a w1) as [b Hb]. rewrite Hk' in Hb. discriminate.
  - intros [= <- <-]. eapply Hm, Hrun.
Qed.

Lemma total_ret {A} (a : A) : total (ret a).
Proof. intros w. exists a. reflexivity. Qed.

Lemma total_dateNow env : total (dateNow env).
Proof. intros w. eexists. reflexivity. Qed.

Lemma total_log lvl chan msg d : total (log lvl chan msg d).
Proof. intros w. eexists. reflexivity. Qed.

Lemma total_bind {A B} (m : Eff A) (k : A -> Eff B) :
  total m -> (forall a, total (k a)) -> total (bind m k).
Proof.
  intros Hm Hk w. unfold bind. destruct (Hm w) as [a Ha].
  destruct (m w) as [[a' | e] w1]; cbn [fst] in Ha; [| discriminate].
  apply Hk.
Qed.

End FrameFacts.

(** ** collectPreFin *)

Module PreFinFacts.
Import World CollectPreFin StoreSpec StoreFacts PreFinSpec Frame FrameFacts.

Lemma frame_exists roundId : frame (Repository.exists_ roundId).
Proof. intros w. split; reflexivity. Qed.

Lemma frame_fetchRoundState env roundId :
  frame (RoundStateFetcher.fetchRoundState env roundId).
Proof. apply frame_lift. Qed.

Lemma frame_fetchBoth env : frame (fetchBoth env).
Proof.
  unfold fetchBoth. destruct (priceFetch env), (miningCostFetch env);
    auto using frame_ret, frame_throw.
Qed.

Lemma frame_obtainPrices env cached : frame (obtainPrices env cached).
Proof.
  unfold obtainPrices. destruct cached.
  - apply frame_bind; [apply frame_dateNow | intros].
    apply frame_bind; [apply frame_log | intros; apply frame_ret].
  - apply frame_bind; [apply frame_log | intros].
    apply frame_bind; [apply frame_dateNow | intros].
    apply frame_bind; [apply frame_fetchBoth | intros].
    apply frame_bind; [apply frame_dateNow | intros; apply frame_ret].
Qed.

(** insertPreFin is all or nothing: when it throws the database is as it
    was. *)
Lemma rollback_insertPreFin env data : rollback (Repository.insertPreFin env data).
Proof.
  intros w e w'. unfold Repository.insertPreFin, bind, called, log, setDb.
  cbn [db outbox calls logs clockReads].
  pose proof (transaction_rollback (insertFault env) (Sqlite.insertPreFinBody data) (db w))
    as Hroll.
  destruct (Sqlite.transaction (insertFault env) (Sqlite.insertPreFinBody data) (db w))
    as [[committed | e1] d]; [discriminate |].
  intros [= <- <-]. cbn. split; [eapply Hroll; reflexivity | reflexivity].
Qed.

Lemma rollback_collectionSequence env ctx cached startTime :
  rollback (collectionSequence env ctx cached startTime).
Proof.
  unfold collectionSequence.
  apply rollback_bind; [apply frame_exists | intros exists_].
  destruct exists_.
  - apply rollback_of_frame, frame_bind; [apply frame_log | intros; apply frame_ret].
  - apply rollback_bind; [apply frame_obtainPrices | intros [[priceQuote miningCost] latency]].
    apply rollback_bind; [apply frame_dateNow | intros].
    apply rollback_bind; [apply frame_fetchRoundState | intros roundState].
    apply rollback_bind; [apply frame_dateNow | intros].
    apply rollback_bind; [apply frame_log | intros].
    apply rollback_bind; [apply frame_dateNow | intros].
    apply rollback_bind; [apply frame_lift | intros tileEvs].
    apply rollback_bind; [apply frame_dateNow | intros].
    apply rollback_then_total; [apply rollback_insertPreFin | intros].
    apply total_bind; [apply total_dateNow | intros].
    apply total_bind; [apply total_log | intros; apply total_ret].
Qed.

Lemma collectionSequence_existing env ctx cached startTime w :
  Sqlite.stmtExistsRound (BoardDecoder.roundId (board ctx)) (db w) = true ->
  exists w',
    collectionSequence env ctx cached startTime w = (Return true, w')
    /\ db w' = db w /\ outbox w' = outbox w
    /\ calls w' = (calls w ++ [CallExists (BoardDecoder.roundId (board ctx))])%list.
Proof.
  intros Hex. unfold collectionSequence, Repository.exists_, bind, called, log, ret.
  cbn [db outbox calls logs clockReads]. rewrite Hex.
  eexists. split; [reflexivity |]. cbn. auto.
Qed.

Lemma collectPreFin_unfold env ctx cached w :
  collectPreFin env ctx cached w
  = tryCatch
      (collectionSequence env ctx cached (clock env (clockReads w)))
      (fun message =>
         World.bind
           (log LevelError chan "Phase 2: EV snapshot failed"
              [("roundId"%string, VStr (showZ (BoardDecoder.roundId (board ctx))));
               ("error"%string, VStr message)])
           (fun _ =>
              World.bind
                (notifyFailure (Some (BoardDecoder.roundId (board ctx)))
                   ("EV snapshot failed: " ++ message)%string
                   [("remainingSlots"%string, VInt (remainingSlots ctx));
                    ("phase"%string, VStr "Phase 2 (EV Snapshot)")])
                (fun _ => ret false)))
      (atTry ctx cached w).
Proof. reflexivity. Qed.

(** C8. For a round whose record exists in the store, collectPreFin
    returns true; the database and the notifier outbox are unchanged, and
    the existence query is the only call made on repository and notifier. *)
Theorem collectPreFin_already_collected
    (env : Env) (ctx : PreFinContext) (cached : option CachedPhase1Data) (w : World.t) :
  present (BoardDecoder.roundId (board ctx)) (db w) ->
  exists w',
    collectPreFin env ctx cached w = (Return true, w')
    /\ db w' = db w
    /\ outbox w' = outbox w
    /\ calls w' = (calls w ++ [CallExists (BoardDecoder.roundId (board ctx))])%list.
Proof.
  intros Hp. apply stmtExistsRound_present in Hp.
  rewrite collectPreFin_unfold. unfold tryCatch.
  destruct (collectionSequence_existing env ctx cached (clock env (clockReads w))
              (atTry ctx cached w) Hp) as (w' & Hrun & Hdb & Hout & Hcalls).
  rewrite Hrun. exists w'. auto.
Qed.

Lemma collectionSequence_Throw_new env ctx cached startTime w e w' :
  collectionSequence env ctx cached startTime w = (Throw e, w') ->
  Sqlite.stmtExistsRound (BoardDecoder.roundId (board ctx)) (db w) = false.
Proof.
  intros Hrun.
  destruct (Sqlite.stmtExistsRound (BoardDecoder.roundId (board ctx)) (db w)) eqn:Hex;
    [| reflexivity].
  destruct (collectionSequence_existing env ctx cached startTime w Hex) as (w1 & Hrun' & _).
  congruence.
Qed.

Lemma collectPreFin_raises env ctx cached w :
  Sqlite.foreignKeysHold (db w) ->
  raises env ctx cached w ->
  exists w' n,
    collectPreFin env ctx cached w = (Return false, w')
    /\ db w' = db w
    /\ absent (BoardDecoder.roundId (board ctx)) (db w')
    /\ World.roundId n = Some (BoardDecoder.roundId (board ctx))
    /\ outbox w' = (outbox w ++ [n])%list.
Proof.
  intros Hfk [message Hraise]. rewrite collectPreFin_unfold. unfold tryCatch.
  destruct (collectionSequence env ctx cached (clock env (clockReads w)) (atTry ctx cached w))
    as [r w1] eqn:Hrun.
  cbn [fst] in Hraise. subst r.
  destruct (rollback_collectionSequence env ctx cached _ _ _ _ Hrun) as [Hdb Hout].
  pose proof (collectionSequence_Throw_new _ _ _ _ _ _ _ Hrun) as Hnew.
  cbn [db outbox atTry] in Hdb, Hout, Hnew.
  unfold bind, log, notifyFailure, ret. cbn [db outbox calls logs clockReads].
  eexists.
  exists {| roundId := Some (BoardDecoder.roundId (board ctx));
            reason := ("EV snapshot failed: " ++ message)%string;
            details := [("remainingSlots"%string, VInt (remainingSlots ctx));
                        ("phase"%string, VStr "Phase 2 (EV Snapshot)")] |}.
  split; [reflexivity |]. cbn [db outbox roundId].
  split; [exact Hdb |]. split; [| split; [reflexivity | rewrite Hout; reflexivity]].
  rewrite Hdb. unfold absent. unfold Sqlite.stmtExistsRound in Hnew.
  destruct (Sqlite.rounds (db w) !! Js.Number (BoardDecoder.roundId (board ctx)))
    as [row |] eqn:Hrow; [discriminate |].
  split; [reflexivity |]. intros idx.
  destruct (Sqlite.tiles (db w) !! (Js.Number (BoardDecoder.roundId (board ctx)), idx))
    as [tile |] eqn:Htile; [| reflexivity].
  destruct (Hfk _ _ _ Htile) as [row Hrow']. congruence.
Qed.


Lemma missingPriceData_raises env ctx cached w :
  ~ present (BoardDecoder.roundId (board ctx)) (db w) ->
  missingPriceData env cached -> raises env ctx cached w.
Proof.
  intros Hnew [-> Hfetch]. rewrite <- stmtExistsRound_present in Hnew.
  apply not_true_is_false in Hnew. runCollection. rewrite Hnew.
  destruct Hfetch as [[e He] | [e He]]; rewrite He.
  - thrown.
  - destruct (priceFetch env); thrown.
Qed.

Lemma roundStateFetchFails_raises env ctx cached w :
  ~ present (BoardDecoder.roundId (board ctx)) (db w) ->
  roundStateFetchFails env (BoardDecoder.roundId (board ctx)) -> raises env ctx cached w.
Proof.
  intros Hnew [e He]. rewrite <- stmtExistsRound_present in Hnew.
  apply not_true_is_false in Hnew. runCollection. rewrite Hnew, He.
  destruct cached as [c |]; [thrown |].
  destruct (priceFetch env), (miningCostFetch env); thrown.
Qed.

Lemma computationFails_raises env ctx cached w :
  ~ present (BoardDecoder.roundId (board ctx)) (db w) ->
  computationFails env (BoardDecoder.roundId (board ctx)) cached -> raises env ctx cached w.
Proof.
  intros Hnew (price & cost & roundState & e & Hprice & Hfetch & Hev).
  rewrite <- stmtExistsRound_present in Hnew.
  apply not_true_is_false in Hnew. runCollection. rewrite Hnew, Hfetch.
  unfold priceData in Hprice. destruct cached as [c |].
  - injection Hprice as <- <-. cbn -[EvCalculator.calculateAllTileEvs]. rewrite Hev. thrown.
  - destruct (priceFetch env), (miningCostFetch env); try discriminate.
    injection Hprice as <- <-. cbn -[EvCalculator.calculateAllTileEvs]. rewrite Hev. thrown.
Qed.

Lemma storeInsertFails_raises env ctx cached w :
  ~ present (BoardDecoder.roundId (board ctx)) (db w) ->
  storeInsertFails env -> raises env ctx cached w.
Proof.
  intros Hnew [e He]. rewrite <- stmtExistsRound_present in Hnew.
  apply not_true_is_false in Hnew. runCollection. rewrite Hnew. unfold Sqlite.transaction. rewrite He.
  destruct (World.fetchRoundState env (BoardDecoder.roundId (board ctx))) as [roundState |].
  - destruct cached as [c |].
    + cbn -[EvCalculator.calculateAllTileEvs].
      destruct (EvCalculator.calculateAllTileEvs roundState (priceQuote c)); thrown.
    + destruct (priceFetch env) as [p |], (miningCostFetch env) as [m |]; try thrown.
      cbn -[EvCalculator.calculateAllTileEvs].
      destruct (EvCalculator.calculateAllTileEvs roundState p); thrown.
  - destruct cached as [c |]; [thrown |].
    destruct (priceFetch env), (miningCostFetch env); thrown.
Qed.

(** C2. For a round with no record in the store, and for every failure
    of the collection (missing price data, round-state fetch failure,
    computation failure, store-insert failure, or any other exception inside
    the try), collectPreFin returns false, the database is as it was, with no
    round row and no tile row of the round, and exactly one failure
    notification, carrying the round id and a reason, is sent. *)
Theorem collectPreFin_failure
    (env : Env) (ctx : PreFinContext) (cached : option CachedPhase1Data) (w : World.t) :
  Sqlite.foreignKeysHold (db w) ->
  ~ present (BoardDecoder.roundId (board ctx)) (db w) ->
  missingPriceData env cached
  \/ roundStateFetchFails env (BoardDecoder.roundId (board ctx))
  \/ computationFails env (BoardDecoder.roundId (board ctx)) cached
  \/ storeInsertFails env
  \/ raises env ctx cached w ->
  exists w' n,
    collectPreFin env ctx cached w = (Return false, w')
    /\ db w' = db w
    /\ absent (BoardDecoder.roundId (board ctx)) (db w')
    /\ World.roundId n = Some (BoardDecoder.roundId (board ctx))
    /\ outbox w' = (outbox w ++ [n])%list.
Proof.
  intros Hfk Hnew Hcause. apply collectPreFin_raises; [exact Hfk |].
  destruct Hcause as [H | [H | [H | [H | H]]]].
  - apply missingPriceData_raises; assumption.
  - apply roundStateFetchFails_raises; assumption.
  - apply computationFails_raises; assumption.
  - apply storeInsertFails_raises; assumption.
  - exact H.
Qed.

End PreFinFacts.

(** ** Runs that differ in the log only *)

Module LogBlindFacts.
Import World LogBlind.

Lemma agree_refl w : agree w w.
Proof. repeat split. Qed.

Lemma alike_ret {A} (a : A) : alike (ret a) (ret a).
Proof. unfold ret. blind. Qed.

Lemma alike_throw {A} e : alike (@throw A e) (throw e).
Proof. unfold throw. blind. Qed.

Lemma alike_lift {A} (o : outcome A) : alike (lift o) (lift o).
Proof. unfold lift. blind. Qed.

Lemma alike_dateNow env : alike (dateNow env) (dateNow env).
Proof. unfold dateNow. blind. Qed.

(** Any two lines logged are alike. *)
Lemma alike_log lvl chan msg d lvl' chan' msg' d' :
  alike (log lvl chan msg d) (log lvl' chan' msg' d').
Proof. unfold log. blind. Qed.

Lemma alike_called c : alike (called c) (called c).
Proof. unfold called. blind. Qed.

Lemma alike_notifyFailure rid why d : alike (notifyFailure rid why d) (notifyFailure rid why d).
Proof. unfold notifyFailure. blind. Qed.

Lemma alike_bind {A B} (m1 m2 : Eff A) (k1 k2 : A -> Eff B) :
  alike m1 m2 -> (forall a, alike (k1 a) (k2 a)) -> alike (bind m1 k1) (bind m2 k2).
Proof.
  intros Hm Hk w1 w2 Hw. unfold bind. destruct (Hm w1 w2 Hw) as [Hr Hs].
  destruct (m1 w1) as [[a1 | e1] u1], (m2 w2) as [[a2 | e2] u2]; cbn [fst snd] in *;
    try discriminate.
  - injection Hr as <-. apply Hk, Hs.
  - injection Hr as <-. split; [reflexivity | exact Hs].
Qed.

Lemma alike_tryCatch {A} (m1 m2 : Eff A) (h1 h2 : string -> Eff A) :
  alike m1 m2 -> (forall e, alike (h1 e) (h2 e)) -> alike (tryCatch m1 h1) (tryCatch m2 h2).
Proof.
  intros Hm Hh w1 w2 Hw. unfold tryCatch. destruct (Hm w1 w2 Hw) as [Hr Hs].
  destruct (m1 w1) as [[a1 | e1] u1], (m2 w2) as [[a2 | e2] u2]; cbn [fst snd] in *;
    try discriminate.
  - split; [exact Hr | exact Hs].
  - injection Hr as <-. apply Hh, Hs.
Qed.

End LogBlindFacts.

(** ** completePostFin and the board handed over *)

Module IndependenceFacts.
Import World CompletePostFin LogBlind LogBlindFacts PostFinSpec.

Lemma alike_exists roundId : alike (Repository.exists_ roundId) (Repository.exists_ roundId).
Proof.
  unfold Repository.exists_. apply alike_bind; [apply alike_called | intros _].
  intros w1 w2 Hw. cbn [fst snd]. split; [| exact Hw].
  destruct Hw as (Hdb & _). rewrite Hdb. reflexivity.
Qed.

Lemma alike_deleteRound env roundId :
  alike (Repository.deleteRound env roundId) (Repository.deleteRound env roundId).
Proof.
  unfold Repository.deleteRound. apply alike_bind; [apply alike_called | intros _].
  destruct (deleteFault env); [apply alike_throw |].
  intros w1 w2 Hw. pose proof Hw as (Hdb & Hout & Hcalls & Hclock). rewrite Hdb.
  destruct (Sqlite.stmtDeleteRound roundId (db w2)) as [d changes].
  destruct (0 <? changes).
  - apply (alike_bind _ _ _ _ (alike_log _ _ _ _ _ _ _ _) (fun _ => alike_ret true)).
    unfold setDb. repeat split; cbn; assumption.
  - cbn [fst snd]. split; [reflexivity |]. unfold setDb. repeat split; cbn; assumption.
Qed.

Lemma alike_completePostFin env data :
  alike (Repository.completePostFin env data) (Repository.completePostFin env data).
Proof.
  unfold Repository.completePostFin. apply alike_bind; [apply alike_called | intros _].
  intros w1 w2 Hw. pose proof Hw as (Hdb & Hout & Hcalls & Hclock). rewrite Hdb.
  destruct (Sqlite.transaction _ _ (db w2)) as [[committed | e] d].
  - apply alike_log. unfold setDb. repeat split; cbn; assumption.
  - cbn [fst snd]. split; [reflexivity |]. unfold setDb. repeat split; cbn; assumption.
Qed.

Lemma alike_getPendingRoundIds : alike Repository.getPendingRoundIds Repository.getPendingRoundIds.
Proof.
  intros w1 w2 Hw. unfold Repository.getPendingRoundIds. cbn [fst snd].
  split; [| exact Hw]. destruct Hw as (Hdb & _). rewrite Hdb. reflexivity.
Qed.

Lemma alike_fetchRoundStateOrNull env roundId :
  alike (RoundStateFetcher.fetchRoundStateOrNull env roundId)
        (RoundStateFetcher.fetchRoundStateOrNull env roundId).
Proof.
  unfold RoundStateFetcher.fetchRoundStateOrNull, RoundStateFetcher.fetchRoundState.
  apply alike_tryCatch.
  - apply alike_bind; [apply alike_lift | intros; apply alike_ret].
  - intros _. apply alike_bind; [apply alike_log | intros; apply alike_ret].
Qed.

Lemma alike_handleFailure env roundId why :
  alike (handleFailure env roundId why) (handleFailure env roundId why).
Proof.
  unfold handleFailure. apply alike_bind; [apply alike_deleteRound | intros deleted].
  apply alike_bind; [| intros; apply alike_notifyFailure].
  destruct deleted; [apply alike_log | apply alike_ret].
Qed.

Lemma alike_toStringOf x : alike (toStringOf x) (toStringOf x).
Proof. destruct x; [apply alike_ret | apply alike_throw]. Qed.

Lemma alike_completionSequence env roundId startTime :
  alike (completionSequence env roundId startTime) (completionSequence env roundId startTime).
Proof.
  unfold completionSequence.
  apply alike_bind; [apply alike_exists | intros found].
  destruct found; cbn [negb].
  - apply alike_bind; [apply alike_fetchRoundStateOrNull | intros [roundState |]].
    + destruct (negb _).
      * apply alike_bind; [apply alike_log | intros].
        apply alike_bind; [apply alike_handleFailure | intros; apply alike_ret].
      * apply alike_bind; [apply alike_lift | intros postFin].
        apply alike_bind; [apply alike_completePostFin | intros].
        apply alike_bind; [apply alike_dateNow | intros].
        apply alike_bind; [apply alike_toStringOf | intros].
        apply alike_bind; [apply alike_log | intros; apply alike_ret].
    + apply alike_bind; [apply alike_log | intros].
      apply alike_bind; [apply alike_handleFailure | intros; apply alike_ret].
  - apply alike_bind; [apply alike_log | intros; apply alike_ret].
Qed.

(** Two runs of completePostFin that differ in the board handed over. *)
Lemma alike_completePostFin_boards env roundId board1 board2 :
  alike (completePostFin env {| previousRoundId := roundId; newBoard := board1 |})
        (completePostFin env {| previousRoundId := roundId; newBoard := board2 |}).
Proof.
  unfold completePostFin. cbn [previousRoundId newBoard].
  apply alike_bind; [apply alike_dateNow | intros startTime].
  apply alike_bind; [apply alike_log | intros _].
  apply alike_tryCatch; [apply alike_completionSequence | intros e].
  apply alike_bind; [apply alike_log | intros].
  apply alike_bind; [apply alike_handleFailure | intros; apply alike_ret].
Qed.

Lemma alike_completePending env boardFor1 boardFor2 roundId :
  alike (completePending env boardFor1 roundId) (completePending env boardFor2 roundId).
Proof.
  unfold completePending. apply alike_tryCatch; [| intros; apply alike_log].
  apply alike_bind; [apply alike_fetchRoundStateOrNull | intros [roundState |]].
  - destruct (negb _).
    + apply alike_bind; [apply alike_log | intros].
      apply alike_bind; [apply alike_deleteRound | intros; apply alike_notifyFailure].
    + apply alike_bind; [apply alike_completePostFin_boards | intros; apply alike_ret].
  - apply alike_bind; [apply alike_log | intros].
    apply alike_bind; [apply alike_deleteRound | intros; apply alike_notifyFailure].
Qed.

Lemma alike_forEach {A} (f1 f2 : A -> Eff unit) l :
  (forall x, alike (f1 x) (f2 x)) -> alike (forEach f1 l) (forEach f2 l).
Proof.
  intros Hf. induction l as [| x l IH]; cbn [forEach]; [apply alike_ret |].
  apply alike_bind; [apply Hf | intros; apply IH].
Qed.

Lemma alike_completePendingRoundsWith env boardFor1 boardFor2 :
  alike (completePendingRoundsWith env boardFor1) (completePendingRoundsWith env boardFor2).
Proof.
  unfold completePendingRoundsWith.
  apply alike_bind; [apply alike_getPendingRoundIds | intros pendingIds].
  destruct (Nat.eqb _ _); [apply alike_log |].
  apply alike_bind; [apply alike_log | intros].
  apply alike_forEach. intros roundId. apply alike_completePending.
Qed.

(** C9. For every previous round id and any two boards handed over as
    newBoard, completePostFin returns the same result, leaves the same
    database and the same outbox, and makes the same calls on repository and
    notifier in the same order (the board's round id is written to the
    opening log line only).  So completePendingRounds, which hands over a
    made-up board, acts on store and notifier as it would with any other
    board. *)
Theorem completePostFin_ignores_newBoard
    (env : Env) (previousRoundId : Z) (board1 board2 : BoardDecoder.BoardAccount)
    (w : World.t) :
  let run1 := completePostFin env {| previousRoundId := previousRoundId; newBoard := board1 |} w in
  let run2 := completePostFin env {| previousRoundId := previousRoundId; newBoard := board2 |} w in
  fst run1 = fst run2
  /\ db (snd run1) = db (snd run2)
  /\ outbox (snd run1) = outbox (snd run2)
  /\ calls (snd run1) = calls (snd run2)
  /\ forall boardFor : Z -> BoardDecoder.BoardAccount,
       fst (completePendingRounds env w) = fst (completePendingRoundsWith env boardFor w)
       /\ db (snd (completePendingRounds env w))
          = db (snd (completePendingRoundsWith env boardFor w))
       /\ outbox (snd (completePendingRounds env w))
          = outbox (snd (completePendingRoundsWith env boardFor w))
       /\ calls (snd (completePendingRounds env w))
          = calls (snd (completePendingRoundsWith env boardFor w)).
Proof.
  intros run1 run2. subst run1 run2.
  destruct (alike_completePostFin_boards env previousRoundId board1 board2 w w (agree_refl w))
    as (Hr & Hdb & Hout & Hcalls & _).
  repeat (split; [assumption |]).
  intros boardFor. unfold completePendingRounds.
  destruct (alike_completePendingRoundsWith env mockBoard boardFor w w (agree_refl w))
    as (Hr' & Hdb' & Hout' & Hcalls' & _).
  auto.
Qed.

End IndependenceFacts.


(** ** The foreign key of [tiles] is an invariant of the use cases *)

Module InvariantFacts.
Import World Sqlite Frame FrameFacts.

Lemma foreignKeysHold_emptyDb : foreignKeysHold emptyDb.
Proof. intros rid idx row H. cbn in H. rewrite lookup_empty in H. discriminate. Qed.

Lemma stmtInsertRound_foreignKeys data db db' :
  stmtInsertRound data db = Return db' -> foreignKeysHold db -> foreignKeysHold db'.
Proof.
  unfold stmtInsertRound.
  destruct (negb (fitsRowid _)); [discriminate |].
  repeat (destruct (Js.isNaN _); [discriminate |]).
  destruct (rounds db !! Js.Number (RoundPreFin.roundId data)); [discriminate |].
  intros [= <-] Hfk rid idx row H. cbn [rounds tiles] in *.
  destruct (decide (Js.Number (RoundPreFin.roundId data) = rid)) as [-> | Hne].
  - rewrite lookup_insert_eq. eauto.
  - rewrite lookup_insert_ne by assumption. eapply Hfk, H.
Qed.

Lemma stmtInsertTile_foreignKeys roundId tile db db' :
  stmtInsertTile roundId tile db = Return db' -> foreignKeysHold db -> foreignKeysHold db'.
Proof.
  unfold stmtInsertTile.
  destruct (TilePreFin.minersCount tile); [| discriminate].
  destruct (Js.isNaN _); [discriminate |].
  do 2 (destruct (negb _); [discriminate |]).
  destruct (tiles db !! (Js.Number roundId, TilePreFin.tileIndex tile)); [discriminate |].
  destruct (rounds db !! Js.Number roundId) as [parent |] eqn:Hparent; [| discriminate].
  intros [= <-] Hfk rid idx row H. cbn [rounds tiles] in *.
  destruct (decide ((Js.Number roundId, TilePreFin.tileIndex tile) = (rid, idx))) as [Heq | Hne].
  - injection Heq as <- <-. eauto.
  - rewrite lookup_insert_ne in H by assumption. eapply Hfk, H.
Qed.

Lemma stmtUpdateRoundPostFin_foreignKeys data db db' :
  stmtUpdateRoundPostFin data db = Return db' -> foreignKeysHold db -> foreignKeysHold db'.
Proof.
  unfold stmtUpdateRoundPostFin.
  destruct (rounds db !! Js.Number (RoundPostFin.roundId data)) as [old |] eqn:Hold.
  - repeat match goal with
           | |- context [if ?c then _ else _] => destruct c; [discriminate |]
           end.
    intros [= <-] Hfk rid idx row H. cbn [rounds tiles] in *.
    destruct (decide (Js.Number (RoundPostFin.roundId data) = rid)) as [-> | Hne].
    + rewrite lookup_insert_eq. eauto.
    + rewrite lookup_insert_ne by assumption. eapply Hfk, H.
  - intros [= <-] Hfk. exact Hfk.
Qed.

Lemma stmtUpdateTilePostFin_foreignKeys roundId tile db db' :
  stmtUpdateTilePostFin roundId tile db = Return db' ->
  foreignKeysHold db -> foreignKeysHold db'.
Proof.
  unfold stmtUpdateTilePostFin.
  destruct (tiles db !! (Js.Number roundId, TilePostFin.tileIndex tile)) as [old |] eqn:Hold.
  - intros [= <-] Hfk rid idx row H. cbn [rounds tiles] in *.
    destruct (decide ((Js.Number roundId, TilePostFin.tileIndex tile) = (rid, idx)))
      as [Heq | Hne].
    + injection Heq as <- <-. eapply Hfk, Hold.
    + rewrite lookup_insert_ne in H by assumption. eapply Hfk, H.
  - intros [= <-] Hfk. exact Hfk.
Qed.

Lemma stmtDeleteRound_foreignKeys roundId db :
  foreignKeysHold db -> foreignKeysHold (fst (stmtDeleteRound roundId db)).
Proof.
  unfold stmtDeleteRound. intros Hfk.
  destruct (rounds db !! Js.Number roundId) as [old |]; cbn [fst]; [| exact Hfk].
  intros rid idx row H. cbn [rounds tiles] in *.
  apply map_lookup_filter_Some in H. destruct H as [H Hne]. cbn in Hne.
  rewrite lookup_delete_ne by congruence. eapply Hfk, H.
Qed.

Lemma runAll_foreignKeys stmts : forall db db',
  List.Forall (fun stmt : Stmt => forall d d', stmt d = Return d' ->
                                  foreignKeysHold d -> foreignKeysHold d') stmts ->
  runAll stmts db = Return db' -> foreignKeysHold db -> foreignKeysHold db'.
Proof.
  induction stmts as [| stmt rest IH]; intros db db' Hall; cbn [runAll].
  - intros [= <-] Hfk. exact Hfk.
  - inversion Hall as [| ? ? Hstmt Hrest]; subst.
    destruct (stmt db) as [db1 |] eqn:H1; [| discriminate].
    intros Hrun Hfk. eapply IH; [exact Hrest | exact Hrun |]. eapply Hstmt; eassumption.
Qed.

Lemma transaction_foreignKeys fault body db :
  (forall d d', body d = Return d' -> foreignKeysHold d -> foreignKeysHold d') ->
  foreignKeysHold db -> foreignKeysHold (snd (transaction fault body db)).
Proof.
  intros Hbody Hfk. unfold transaction. destruct fault; [exact Hfk |].
  destruct (body db) as [db' |] eqn:Hrun; cbn [snd]; [| exact Hfk].
  eapply Hbody; eassumption.
Qed.

Lemma insertPreFinBody_foreignKeys data db db' :
  insertPreFinBody data db = Return db' -> foreignKeysHold db -> foreignKeysHold db'.
Proof.
  unfold insertPreFinBody. apply runAll_foreignKeys. constructor.
  - apply stmtInsertRound_foreignKeys.
  - apply List.Forall_forall. intros stmt Hstmt. apply in_map_iff in Hstmt.
    destruct Hstmt as (tile & <- & _). apply stmtInsertTile_foreignKeys.
Qed.

Lemma completePostFinBody_foreignKeys data db db' :
  completePostFinBody data db = Return db' -> foreignKeysHold db -> foreignKeysHold db'.
Proof.
  unfold completePostFinBody. apply runAll_foreignKeys. constructor.
  - apply stmtUpdateRoundPostFin_foreignKeys.
  - apply List.Forall_forall. intros stmt Hstmt. apply in_map_iff in Hstmt.
    destruct Hstmt as (tile & <- & _). apply stmtUpdateTilePostFin_foreignKeys.
Qed.

Lemma keeps_of_frame {A} (m : Eff A) : frame m -> keepsForeignKeys m.
Proof. intros Hm w Hfk. destruct (Hm w) as [-> _]. exact Hfk. Qed.

Lemma keeps_notifyFailure rid why d : keepsForeignKeys (notifyFailure rid why d).
Proof. intros w Hfk. exact Hfk. Qed.

Lemma keeps_bind {A B} (m : Eff A) (k : A -> Eff B) :
  keepsForeignKeys m -> (forall a, keepsForeignKeys (k a)) -> keepsForeignKeys (bind m k).
Proof.
  intros Hm Hk w Hfk. unfold bind. specialize (Hm w Hfk).
  destruct (m w) as [[a | e] w1]; cbn [snd] in *; [apply Hk, Hm | exact Hm].
Qed.

Lemma keeps_tryCatch {A} (m : Eff A) (h : string -> Eff A) :
  keepsForeignKeys m -> (forall e, keepsForeignKeys (h e)) -> keepsForeignKeys (tryCatch m h).
Proof.
  intros Hm Hh w Hfk. unfold tryCatch. specialize (Hm w Hfk).
  destruct (m w) as [[a | e] w1]; cbn [snd] in *; [exact Hm | apply Hh, Hm].
Qed.

Lemma keeps_insertPreFin env data : keepsForeignKeys (Repository.insertPreFin env data).
Proof.
  intros w Hfk. unfold Repository.insertPreFin, bind, called, log, setDb.
  cbn [db outbox calls logs clockReads].
  pose proof (transaction_foreignKeys (insertFault env) (insertPreFinBody data) (db w)
                (insertPreFinBody_foreignKeys data) Hfk) as Hkept.
  destruct (transaction (insertFault env) (insertPreFinBody data) (db w)) as [[? | ?] d];
    exact Hkept.
Qed.

Lemma keeps_completePostFin env data : keepsForeignKeys (Repository.completePostFin env data).
Proof.
  intros w Hfk. unfold Repository.completePostFin, bind, called, log, setDb.
  cbn [db outbox calls logs clockReads].
  pose proof (transaction_foreignKeys (completeFault env) (completePostFinBody data) (db w)
                (completePostFinBody_foreignKeys data) Hfk) as Hkept.
  destruct (transaction (completeFault env) (completePostFinBody data) (db w)) as [[? | ?] d];
    exact Hkept.
Qed.

Lemma keeps_deleteRound env roundId : keepsForeignKeys (Repository.deleteRound env roundId).
Proof.
  intros w Hfk. unfold Repository.deleteRound.
  destruct (deleteFault env); [exact Hfk |].
  unfold bind, called, log, ret, setDb. cbn [db outbox calls logs clockReads].
  pose proof (stmtDeleteRound_foreignKeys roundId (db w) Hfk) as Hkept.
  destruct (stmtDeleteRound roundId (db w)) as [d changes]. cbn [fst] in Hkept.
  destruct (0 <? changes); exact Hkept.
Qed.

Lemma keeps_handleFailure env roundId why :
  keepsForeignKeys (CompletePostFin.handleFailure env roundId why).
Proof.
  unfold CompletePostFin.handleFailure.
  apply keeps_bind; [apply keeps_deleteRound | intros deleted].
  apply keeps_bind; [| intros; apply keeps_notifyFailure].
  apply keeps_of_frame. destruct deleted; [apply frame_log | apply frame_ret].
Qed.

(** The completion keeps the foreign key, whatever its outcome. *)
Lemma keeps_completePostFin_useCase env ctx :
  keepsForeignKeys (CompletePostFin.completePostFin env ctx).
Proof.
  unfold CompletePostFin.completePostFin.
  apply keeps_bind; [apply keeps_of_frame, frame_dateNow | intros startTime].
  apply keeps_bind; [apply keeps_of_frame, frame_log | intros _].
  apply keeps_tryCatch.
  - unfold CompletePostFin.completionSequence.
    apply keeps_bind; [apply keeps_of_frame; intros w; split; reflexivity | intros found].
    destruct found; cbn [negb].
    + apply keeps_bind.
      * apply keeps_of_frame. unfold RoundStateFetcher.fetchRoundStateOrNull.
        apply frame_tryCatch.
        -- apply frame_bind; [apply frame_lift | intros; apply frame_ret].
        -- intros _. apply frame_bind; [apply frame_log | intros; apply frame_ret].
      * intros [roundState |].
        -- destruct (negb _).
           ++ apply keeps_bind; [apply keeps_of_frame, frame_log | intros].
              apply keeps_bind; [apply keeps_handleFailure | intros].
              apply keeps_of_frame, frame_ret.
           ++ apply keeps_bind; [apply keeps_of_frame, frame_lift | intros postFin].
              apply keeps_bind; [apply keeps_completePostFin | intros].
              apply keeps_of_frame.
              apply frame_bind; [apply frame_dateNow | intros].
              apply frame_bind;
                [unfold CompletePostFin.toStringOf;
                 destruct (RoundPostFin.numWinners postFin);
                 [apply frame_ret | apply frame_throw] | intros].
              apply frame_bind; [apply frame_log | intros; apply frame_ret].
        -- apply keeps_bind; [apply keeps_of_frame, frame_log | intros].
           apply keeps_bind; [apply keeps_handleFailure | intros].
           apply keeps_of_frame, frame_ret.
    + apply keeps_of_frame, frame_bind; [apply frame_log | intros; apply frame_ret].
  - intros e. apply keeps_bind; [apply keeps_of_frame, frame_log | intros].
    apply keeps_bind; [apply keeps_handleFailure | intros].
    apply keeps_of_frame, frame_ret.
Qed.

(** The collection keeps the foreign key, whatever its outcome. *)
Lemma keeps_collectPreFin_useCase env ctx cached :
  keepsForeignKeys (CollectPreFin.collectPreFin env ctx cached).
Proof.
  unfold CollectPreFin.collectPreFin.
  apply keeps_bind; [apply keeps_of_frame, frame_dateNow | intros startTime].
  apply keeps_bind; [apply keeps_of_frame, frame_log | intros _].
  apply keeps_tryCatch.
  - unfold CollectPreFin.collectionSequence.
    apply keeps_bind; [apply keeps_of_frame, PreFinFacts.frame_exists | intros found].
    destruct found.
    + apply keeps_of_frame, frame_bind; [apply frame_log | intros; apply frame_ret].
    + apply keeps_bind;
        [apply keeps_of_frame, PreFinFacts.frame_obtainPrices | intros [[p m] latency]].
      apply keeps_bind; [apply keeps_of_frame, frame_dateNow | intros].
      apply keeps_bind; [apply keeps_of_frame, PreFinFacts.frame_fetchRoundState | intros].
      apply keeps_bind; [apply keeps_of_frame, frame_dateNow | intros].
      apply keeps_bind; [apply keeps_of_frame, frame_log | intros].
      apply keeps_bind; [apply keeps_of_frame, frame_dateNow | intros].
      apply keeps_bind; [apply keeps_of_frame, frame_lift | intros].
      apply keeps_bind; [apply keeps_of_frame, frame_dateNow | intros].
      apply keeps_bind; [apply keeps_insertPreFin | intros].
      apply keeps_of_frame.
      apply frame_bind; [apply frame_dateNow | intros].
      apply frame_bind; [apply frame_log | intros; apply frame_ret].
  - intros e. apply keeps_bind; [apply keeps_of_frame, frame_log | intros].
    apply keeps_bind; [apply keeps_notifyFailure | intros].
    apply keeps_of_frame, frame_ret.
Qed.

End InvariantFacts.

(** ** The rounding of Number(bigint) *)

Module RoundingFacts.
Import Js.

(** A bigint of 2^53 or more is rounded to a multiple of 2^e, where
    e = log2 z - 52, next to z / 2^e. *)
Lemma Number_large z :
  2 ^ 53 <= z ->
  let e := Z.log2 z - 52 in
  let q := z / 2 ^ e in
  let r := z mod 2 ^ e in
  let up := (2 ^ (e - 1) <? r) || ((r =? 2 ^ (e - 1)) && Z.odd q) in
  1 <= e /\ 2 ^ 52 <= q < 2 ^ 53
  /\ Number z = (if up then q + 1 else q) * 2 ^ e.
Proof.
  intros Hz e q r up.
  assert (Hpos : 0 < z) by lia.
  destruct (Z.log2_spec z Hpos) as [Hlow Hhigh].
  assert (Hlog : 53 <= Z.log2 z).
  { apply Z.log2_le_pow2; lia. }
  assert (He : 1 <= e) by (unfold e; lia).
  assert (Hpow : 0 < 2 ^ e) by (apply Z.pow_pos_nonneg; lia).
  assert (Hsplit : 2 ^ Z.log2 z = 2 ^ 52 * 2 ^ e).
  { rewrite <- Z.pow_add_r by lia. f_equal. unfold e. lia. }
  assert (Hsplit' : 2 ^ Z.succ (Z.log2 z) = 2 ^ 53 * 2 ^ e).
  { rewrite <- Z.pow_add_r by lia. f_equal. unfold e. lia. }
  split; [exact He |]. split.
  - unfold q. split.
    + apply Z.div_le_lower_bound; lia.
    + apply Z.div_lt_upper_bound; lia.
  - unfold Number. rewrite Z.abs_eq by lia.
    destruct (Z.ltb_spec z (2 ^ 53)) as [Hlt | _]; [lia |].
    rewrite Z.sgn_pos by lia. fold e. fold q. fold r. fold up. lia.
Qed.

Lemma Number_monotone a b : 0 <= a -> a <= b -> Number a <= Number b.
Proof.
  intros Ha Hab.
  destruct (Z_lt_le_dec a (2 ^ 53)) as [Hsmall | Hlarge].
  - rewrite (JsFacts.Number_small a) by (rewrite Z.abs_eq; lia).
    destruct (Z_lt_le_dec b (2 ^ 53)) as [Hb | Hb].
    + rewrite (JsFacts.Number_small b) by (rewrite Z.abs_eq; lia). exact Hab.
    + destruct (Number_large b Hb) as (He & Hq & ->).
      set (e := Z.log2 b - 52) in *. set (q := b / 2 ^ e) in *.
      assert (2 <= 2 ^ e).
      { change 2 with (2 ^ 1) at 1. apply Z.pow_le_mono_r; lia. }
      destruct (_ || _); nia.
  - assert (Hb : 2 ^ 53 <= b) by lia.
    destruct (Number_large a Hlarge) as (Hea & Hqa & ->).
    destruct (Number_large b Hb) as (Heb & Hqb & ->).
    assert (Hlog : Z.log2 a <= Z.log2 b) by (apply Z.log2_le_mono; exact Hab).
    remember (Z.log2 a - 52) as ea eqn:Eea. remember (Z.log2 b - 52) as eb eqn:Eeb.
    assert (Hpa : 0 < 2 ^ ea) by (apply Z.pow_pos_nonneg; lia).
    assert (Hpb : 0 < 2 ^ eb) by (apply Z.pow_pos_nonneg; lia).
    destruct (Z_lt_le_dec ea eb) as [Hlt | Hge].
    + assert (Hstep : 2 * 2 ^ ea <= 2 ^ eb).
      { rewrite <- Z.pow_succ_r by lia. apply Z.pow_le_mono_r; lia. }
      destruct (_ || _), (_ || _); nia.
    + assert (Heq : eb = ea) by lia. rewrite Heq in *. clear Heq Hge Eeb eb Hpb Heb.
      pose proof (Z.div_mod a (2 ^ ea) ltac:(lia)) as Hda.
      pose proof (Z.div_mod b (2 ^ ea) ltac:(lia)) as Hdb.
      pose proof (Z.mod_pos_bound a (2 ^ ea) Hpa) as Hra.
      pose proof (Z.mod_pos_bound b (2 ^ ea) Hpa) as Hrb.
      remember (a / 2 ^ ea) as qa eqn:Eqa. remember (b / 2 ^ ea) as qb eqn:Eqb.
      remember (a mod 2 ^ ea) as ra eqn:Era. remember (b mod 2 ^ ea) as rb eqn:Erb.
      assert (Hqab : qa <= qb).
      { subst qa qb. apply Z.div_le_mono; lia. }
      destruct (Z_lt_le_dec qa qb) as [Hqlt | Hqge].
      * destruct (_ || _), (_ || _); nia.
      * assert (Hq : qb = qa) by lia. rewrite Hq in *.
        assert (Hr : ra <= rb) by lia.
        destruct (Z.ltb_spec (2 ^ (ea - 1)) ra) as [Hup | Hdown].
        -- destruct (Z.ltb_spec (2 ^ (ea - 1)) rb); [cbn [orb]; lia | lia].
        -- cbn [orb].
           destruct (Z.eqb_spec ra (2 ^ (ea - 1))) as [Hhalf | Hbelow].
           ++ destruct (Z.odd qa) eqn:Hodd; cbn [andb].
              ** destruct (Z.ltb_spec (2 ^ (ea - 1)) rb); cbn [orb]; [lia |].
                 destruct (Z.eqb_spec rb (2 ^ (ea - 1))); [cbn; lia | lia].
              ** destruct (_ || _); nia.
           ++ cbn [andb]. destruct (_ || _); nia.
Qed.

End RoundingFacts.


(** ** Bytes and integers *)

Module LayoutFacts.
Import Buffer Spec Layout BufferFacts.

Lemma of_N_byteValue b : Byte.of_N (Z.to_N (byteValue b)) = Some b.
Proof. unfold byteValue. rewrite N2Z.id. apply Byte.of_to_N. Qed.

Lemma byte_of_small v :
  0 <= v < 256 -> exists b, Byte.of_N (Z.to_N v) = Some b /\ byteValue b = v.
Proof.
  intros Hv. destruct (Byte.of_N (Z.to_N v)) as [b |] eqn:Hb.
  - exists b. split; [reflexivity |]. unfold byteValue.
    apply Byte.to_of_N in Hb. rewrite Hb. lia.
  - apply Byte.of_N_None_iff in Hb. lia.
Qed.

Lemma length_bytesLE size : forall v, length (bytesLE size v) = size.
Proof. induction size as [| size IH]; intros v; simpl; [reflexivity | rewrite IH; reflexivity]. Qed.

Lemma littleEndian_bytesLE size : forall v,
  0 <= v < 256 ^ Z.of_nat size -> littleEndian (bytesLE size v) = v.
Proof.
  induction size as [| size IH]; intros v Hv.
  - simpl in *. lia.
  - cbn [bytesLE littleEndian].
    destruct (byte_of_small (v mod 256)) as (b & Hb & Hvalue);
      [apply Z.mod_pos_bound; lia |].
    rewrite Hb, Hvalue, IH.
    + pose proof (Z.div_mod v 256). lia.
    + rewrite Nat2Z.inj_succ, Z.pow_succ_r in Hv by lia.
      split; [apply Z.div_pos; lia | apply Z.div_lt_upper_bound; lia].
Qed.

Lemma littleEndian_bound bs : littleEndian bs < 256 ^ Z.of_nat (length bs).
Proof.
  induction bs as [| b bs IH].
  - simpl. lia.
  - cbn [littleEndian length]. rewrite Nat2Z.inj_succ, Z.pow_succ_r by lia.
    pose proof (byteValue_range b). lia.
Qed.

Lemma length_chunk offset size buf :
  (offset + size <= length buf)%nat -> length (chunk offset size buf) = size.
Proof. intros H. unfold chunk. rewrite length_firstn, length_skipn. lia. Qed.

Lemma littleEndian_chunk_u64 offset buf :
  (offset + 8 <= length buf)%nat -> isU64 (littleEndian (chunk offset 8 buf)).
Proof.
  intros H. split; [apply littleEndian_nonneg |].
  pose proof (littleEndian_bound (chunk offset 8 buf)) as Hb.
  rewrite length_chunk in Hb by exact H. exact Hb.
Qed.

Lemma readBigUInt64LE_short buf offset :
  (length buf < offset + 8)%nat -> readBigUInt64LE buf offset = None.
Proof.
  intros H. unfold readBigUInt64LE.
  assert (H7 : byteAt buf (offset + 7) = None).
  { unfold byteAt. rewrite (proj2 (nth_error_None buf (offset + 7))) by lia. reflexivity. }
  rewrite H7.
  destruct (byteAt buf offset), (byteAt buf (offset + 1)), (byteAt buf (offset + 2)),
    (byteAt buf (offset + 3)), (byteAt buf (offset + 4)), (byteAt buf (offset + 5)),
    (byteAt buf (offset + 6)); reflexivity.
Qed.

Lemma chunk_app_l offset size front back :
  (offset + size <= length front)%nat -> chunk offset size (front ++ back) = chunk offset size front.
Proof.
  intros H. unfold chunk. rewrite List.skipn_app, List.firstn_app, length_skipn.
  replace (size - (length front - offset))%nat with 0%nat by lia.
  rewrite firstn_0, app_nil_r. reflexivity.
Qed.

Lemma chunk_app_r offset size front back :
  (length front <= offset)%nat ->
  chunk offset size (front ++ back) = chunk (offset - length front) size back.
Proof.
  intros H. unfold chunk. rewrite List.skipn_app.
  rewrite (List.skipn_all2 front) by lia. reflexivity.
Qed.

Lemma chunk_all size buf back : length buf = size -> chunk 0 size (buf ++ back) = buf.
Proof.
  intros H. subst size. unfold chunk. rewrite List.skipn_O.
  rewrite List.firstn_app, Nat.sub_diag, firstn_0, app_nil_r. apply List.firstn_all.
Qed.

End LayoutFacts.


(** ** The random number of a round and its bits *)

Module RngBitFacts.
Import RngCalculator Spec Layout BufferFacts LayoutFacts RngFacts.

Lemma below_pow2 x n :
  0 <= n -> 0 <= x -> (forall m, n <= m -> Z.testbit x m = false) -> x < 2 ^ n.
Proof.
  intros Hn Hx Hbits.
  assert (Hmod : x mod 2 ^ n = x).
  { apply Z.bits_inj'. intros m Hm. destruct (Z_lt_le_dec m n) as [Hlt | Hge].
    - apply Z.mod_pow2_bits_low. lia.
    - rewrite Z.mod_pow2_bits_high by lia. symmetry. apply Hbits. lia. }
  rewrite <- Hmod. apply Z.mod_pos_bound. apply Z.pow_pos_nonneg; lia.
Qed.

Lemma above_pow2 x n m : 0 <= x < 2 ^ n -> n <= m -> Z.testbit x m = false.
Proof.
  intros Hx Hm. destruct (Z.eq_dec x 0) as [-> | Hne]; [apply Z.bits_0 |].
  apply Z.bits_above_log2; [lia |].
  assert (Z.log2 x < n) by (apply Z.log2_lt_pow2; lia). lia.
Qed.

Lemma lxor_below a b n : 0 <= n -> 0 <= a < 2 ^ n -> 0 <= b < 2 ^ n -> 0 <= Z.lxor a b < 2 ^ n.
Proof.
  intros Hn Ha Hb. split; [apply lxor_nonneg_both; lia |].
  apply below_pow2; [lia | apply lxor_nonneg_both; lia |].
  intros m Hm. rewrite Z.lxor_spec, (above_pow2 a n m), (above_pow2 b n m) by lia. reflexivity.
Qed.

Lemma xorOfU64s_u64 seed : length seed = 32%nat -> isU64 (xorOfU64s seed).
Proof.
  intros Hlen. unfold xorOfU64s, isU64.
  repeat apply lxor_below; try lia; apply littleEndian_chunk_u64; lia.
Qed.

(** The loop of reverseBits64 shifts the bits collected so far and puts the
    next bit of the value below them. *)
Lemma reverseBitsFrom_bits value steps : forall i result m,
  0 <= i -> 0 <= m ->
  Z.testbit (reverseBitsFrom steps i value result) m
  = if m <? Z.of_nat steps then Z.testbit value (i + Z.of_nat steps - 1 - m)
    else Z.testbit result (m - Z.of_nat steps).
Proof.
  induction steps as [| steps IH]; intros i result m Hi Hm.
  - cbn [reverseBitsFrom]. destruct (Z.ltb_spec m (Z.of_nat 0)); [lia |].
    f_equal. lia.
  - cbn [reverseBitsFrom]. rewrite IH by lia. rewrite Nat2Z.inj_succ.
    destruct (Z.ltb_spec m (Z.of_nat steps)) as [Hlt | Hge].
    + destruct (Z.ltb_spec m (Z.succ (Z.of_nat steps))); [| lia]. f_equal. lia.
    + rewrite Z.lor_spec, Z.land_spec.
      destruct (Z.ltb_spec m (Z.succ (Z.of_nat steps))) as [Hlt' | Hge'].
      * replace (m - Z.of_nat steps) with 0 by lia.
        rewrite Z.shiftl_spec by lia. rewrite (Z.testbit_neg_r result (0 - 1)) by lia.
        rewrite Z.shiftr_spec by lia. change (Z.testbit 1 0) with true.
        rewrite andb_true_r. cbn [orb]. f_equal. lia.
      * rewrite Z.shiftl_spec by lia.
        assert (Hone : Z.testbit 1 (m - Z.of_nat steps) = false).
        { apply (above_pow2 1 1); lia. }
        rewrite Hone, andb_false_r, orb_false_r. f_equal. lia.
Qed.

Lemma reverseBitsFrom_nonneg value steps : forall i result,
  0 <= value -> 0 <= result -> 0 <= reverseBitsFrom steps i value result.
Proof.
  induction steps as [| steps IH]; intros i result Hv Hr; cbn [reverseBitsFrom]; [exact Hr |].
  apply IH; [exact Hv |]. apply Z.lor_nonneg. split.
  - apply Z.shiftl_nonneg. exact Hr.
  - apply Z.land_nonneg. right. lia.
Qed.

Lemma reverseBits64_bits value m :
  0 <= m ->
  Z.testbit (reverseBits64 value) m = if m <? 64 then Z.testbit value (63 - m) else false.
Proof.
  intros Hm. unfold reverseBits64. rewrite reverseBitsFrom_bits by lia.
  change (Z.of_nat 64) with 64. destruct (m <? 64); [f_equal; lia | apply Z.bits_0].
Qed.

Lemma reverseBits64_u64 value : 0 <= value -> isU64 (reverseBits64 value).
Proof.
  intros Hv. split; [apply reverseBitsFrom_nonneg; lia |].
  apply below_pow2; [lia | apply reverseBitsFrom_nonneg; lia |].
  intros m Hm. rewrite reverseBits64_bits by lia.
  destruct (Z.ltb_spec m 64); [lia | reflexivity].
Qed.

(** X1. reverseBits64 mirrors the 64 bits of an unsigned 64-bit value: bit i
    of the result is bit 63 - i of the value, the result is again below
    2^64, and reversing twice gives the value back. *)
Theorem reverseBits64_mirror (value : Z) :
  0 <= value < 2 ^ 64 ->
  0 <= reverseBits64 value < 2 ^ 64
  /\ (forall i, 0 <= i < 64 -> Z.testbit (reverseBits64 value) i = Z.testbit value (63 - i))
  /\ reverseBits64 (reverseBits64 value) = value.
Proof.
  intros Hv. split; [apply reverseBits64_u64; lia |]. split.
  - intros i Hi. rewrite reverseBits64_bits by lia.
    destruct (Z.ltb_spec i 64); [reflexivity | lia].
  - apply Z.bits_inj'. intros m Hm. rewrite reverseBits64_bits by lia.
    destruct (Z.ltb_spec m 64) as [Hlt | Hge].
    + rewrite reverseBits64_bits by lia.
      destruct (Z.ltb_spec (63 - m) 64); [f_equal; lia | lia].
    + symmetry. apply (above_pow2 value 64); lia.
Qed.

(** X2. isMotherlodeTriggered throws the error of computeRng, naming the
    length, on a buffer that is not 32 bytes long; on a 32-byte seed it tells
    whether the 64-bit number whose bits are those of the rng (the XOR of
    the four little-endian 8-byte integers) in reverse order is a multiple
    of 625. *)
Theorem isMotherlodeTriggered_mirror (slotHash : list byte) :
  (length slotHash <> 32%nat ->
   isMotherlodeTriggered slotHash
   = Throw ("Invalid slot hash length: " ++ showNat (length slotHash) ++ ", expected 32")
   /\ computeRng slotHash
      = Throw ("Invalid slot hash length: " ++ showNat (length slotHash) ++ ", expected 32"))
  /\ (length slotHash = 32%nat ->
      exists reversed,
        isMotherlodeTriggered slotHash = Return (reversed mod 625 =? 0)
        /\ 0 <= reversed < 2 ^ 64
        /\ forall i, 0 <= i < 64 ->
             Z.testbit reversed i = Z.testbit (xorOfU64s slotHash) (63 - i)).
Proof.
  split.
  - intros Hne. unfold isMotherlodeTriggered, computeRng.
    destruct (Nat.eqb_spec (length slotHash) 32) as [He | _]; [contradiction |].
    split; reflexivity.
  - intros Hlen. exists (reverseBits64 (xorOfU64s slotHash)).
    pose proof (xorOfU64s_u64 slotHash Hlen) as Hrng.
    pose proof (reverseBits64_u64 (xorOfU64s slotHash) (proj1 Hrng)) as Hrev.
    split; [| split; [exact Hrev |]].
    + unfold isMotherlodeTriggered. rewrite (computeRng_32 slotHash Hlen).
      rewrite Z.rem_mod_nonneg by (unfold isU64 in Hrev; lia). reflexivity.
    + intros i Hi. rewrite reverseBits64_bits by lia.
      destruct (Z.ltb_spec i 64); [reflexivity | lia].
Qed.

Lemma even_lxor a b : Z.even (Z.lxor a b) = Z.even (a + b).
Proof.
  rewrite Z.even_add. rewrite <- !Z.negb_odd, <- !Z.bit0_odd, Z.lxor_spec.
  destruct (Z.testbit a 0), (Z.testbit b 0); reflexivity.
Qed.

Lemma even_add_congr a b c : Z.even a = Z.even b -> Z.even (a + c) = Z.even (b + c).
Proof. intros H. rewrite !Z.even_add, H. reflexivity. Qed.

Lemma even_pair b0 b1 : Z.even (littleEndian [b0; b1]) = Z.even (byteValue b0).
Proof.
  cbn [littleEndian]. rewrite Z.even_add, Z.even_mul. cbn.
  destruct (Z.even (byteValue b0)); reflexivity.
Qed.

(** X3. shouldSplitReward never throws: it is false for a buffer that is not
    32 bytes long, and for a 32-byte seed it depends on the lowest bits of
    the bytes 0, 2, 4 and 6 alone: it is true exactly when the sum of these
    four bytes is even. *)
Theorem shouldSplitReward_parity (slotHash : list byte) :
  (length slotHash <> 32%nat -> shouldSplitReward slotHash = Return false)
  /\ (length slotHash = 32%nat ->
      shouldSplitReward slotHash
      = Return (Z.even (byteOf slotHash 0 + byteOf slotHash 2
                        + byteOf slotHash 4 + byteOf slotHash 6))).
Proof.
  split.
  - intros Hne. unfold shouldSplitReward.
    destruct (Nat.eqb_spec (length slotHash) 32) as [He | _]; [contradiction | reflexivity].
  - intros Hlen. rewrite (SplitFacts.shouldSplitReward_spec slotHash Hlen). f_equal.
    do 8 (destruct slotHash as [| ? slotHash]; [discriminate Hlen |]).
    unfold xorOfU16s, chunk, byteOf. cbn [skipn firstn nth]. rewrite List.firstn_O.
    rewrite !even_lxor.
    rewrite (even_add_congr _ _ _ (even_lxor _ _)).
    rewrite (even_add_congr _ _ _ (even_add_congr _ _ _ (even_lxor _ _))).
    rewrite !Z.even_add, !even_pair. reflexivity.
Qed.

End RngBitFacts.


(** ** The account decoders *)

Module AccountFacts.
Import Buffer Spec Layout BufferFacts LayoutFacts.

Lemma board_readU64LE data offset :
  (offset + 8 <= length data)%nat ->
  BoardDecoder.readU64LE data offset = Return (littleEndian (chunk offset 8 data)).
Proof.
  intros H. unfold BoardDecoder.readU64LE. rewrite readBigUInt64LE_chunk by exact H.
  reflexivity.
Qed.

Lemma decodeBoardAccount_short data :
  (length data < 32)%nat ->
  BoardDecoder.decodeBoardAccount data
  = Throw ("Board account data too small: " ++ showNat (length data) ++ " < 32").
Proof.
  intros Hshort. unfold BoardDecoder.decodeBoardAccount,
    BoardDecoder.ACCOUNT_DISCRIMINATOR_SIZE, BoardDecoder.U64_SIZE.
  change (8 + 8 * 3)%nat with 32%nat.
  destruct (Nat.ltb_spec (length data) 32) as [_ | Hge]; [reflexivity | lia].
Qed.

Lemma decodeBoardAccount_long data :
  (32 <= length data)%nat ->
  BoardDecoder.decodeBoardAccount data
  = Return {| BoardDecoder.roundId := littleEndian (chunk 8 8 data);
              BoardDecoder.startSlot := littleEndian (chunk 16 8 data);
              BoardDecoder.endSlot := littleEndian (chunk 24 8 data) |}.
Proof.
  intros Hlong. unfold BoardDecoder.decodeBoardAccount,
    BoardDecoder.ACCOUNT_DISCRIMINATOR_SIZE, BoardDecoder.U64_SIZE.
  change (8 + 8 * 3)%nat with 32%nat.
  destruct (Nat.ltb_spec (length data) 32) as [Hlt | _]; [lia |].
  change (8 + 8)%nat with 16%nat. change (16 + 8)%nat with 24%nat.
  rewrite !board_readU64LE by lia. reflexivity.
Qed.

(** X4. decodeBoardAccount throws, naming the length, for account data
    shorter than 32 bytes.  For longer data it returns the three
    little-endian u64 values at offsets 8, 16 and 24, each in [0, 2^64); the
    discriminator and the bytes after offset 32 are not looked at. *)
Theorem decodeBoardAccount_layout (data : list byte) :
  ((length data < 32)%nat ->
   BoardDecoder.decodeBoardAccount data
   = Throw ("Board account data too small: " ++ showNat (length data) ++ " < 32"))
  /\ ((32 <= length data)%nat ->
      BoardDecoder.decodeBoardAccount data
      = Return {| BoardDecoder.roundId := littleEndian (chunk 8 8 data);
                  BoardDecoder.startSlot := littleEndian (chunk 16 8 data);
                  BoardDecoder.endSlot := littleEndian (chunk 24 8 data) |}
      /\ isU64 (littleEndian (chunk 8 8 data))
      /\ isU64 (littleEndian (chunk 16 8 data))
      /\ isU64 (littleEndian (chunk 24 8 data))).
Proof.
  split; [apply decodeBoardAccount_short |].
  intros Hlong. split; [apply decodeBoardAccount_long, Hlong |].
  repeat split; try apply littleEndian_nonneg;
    apply (littleEndian_chunk_u64 _ data); lia.
Qed.

Lemma littleEndian_bytesLE_u64 v : isU64 v -> littleEndian (bytesLE 8 v) = v.
Proof. intros Hv. apply littleEndian_bytesLE. exact Hv. Qed.

(** X5. Decoding the account data of a board gives the board back: for
    every 8-byte discriminator, every board whose three fields fit a u64,
    and any bytes after them. *)
Theorem decodeBoardAccount_boardData
    (discriminator : list byte) (board : BoardDecoder.BoardAccount) (rest : list byte) :
  length discriminator = 8%nat ->
  isU64 (BoardDecoder.roundId board) ->
  isU64 (BoardDecoder.startSlot board) ->
  isU64 (BoardDecoder.endSlot board) ->
  BoardDecoder.decodeBoardAccount (boardData discriminator board rest) = Return board.
Proof.
  intros Hd Hround Hstart Hend.
  assert (Hlen : (32 <= length (boardData discriminator board rest))%nat).
  { unfold boardData. rewrite !length_app, !length_bytesLE, Hd. lia. }
  rewrite (decodeBoardAccount_long _ Hlen).
  unfold boardData.
  rewrite (chunk_app_r 8 8 discriminator) by lia. rewrite Hd, Nat.sub_diag.
  rewrite chunk_all by apply length_bytesLE.
  rewrite (chunk_app_r 16 8 discriminator) by lia. rewrite Hd.
  rewrite (chunk_app_r (16 - 8) 8 (bytesLE 8 (BoardDecoder.roundId board)))
    by (rewrite length_bytesLE; lia).
  rewrite length_bytesLE. change (16 - 8 - 8)%nat with 0%nat.
  rewrite chunk_all by apply length_bytesLE.
  rewrite (chunk_app_r 24 8 discriminator) by lia. rewrite Hd.
  rewrite (chunk_app_r (24 - 8) 8 (bytesLE 8 (BoardDecoder.roundId board)))
    by (rewrite length_bytesLE; lia).
  rewrite length_bytesLE.
  rewrite (chunk_app_r (24 - 8 - 8) 8 (bytesLE 8 (BoardDecoder.startSlot board)))
    by (rewrite length_bytesLE; lia).
  rewrite length_bytesLE. change (24 - 8 - 8 - 8)%nat with 0%nat.
  rewrite chunk_all by apply length_bytesLE.
  rewrite !littleEndian_bytesLE_u64 by assumption.
  destruct board; reflexivity.
Qed.

(** *** Public keys from bytes *)

Lemma beValue_snoc bs b :
  PublicKey.beValue (bs ++ [b]) = PublicKey.beValue bs * 256 + PublicKey.byteZ b.
Proof. unfold PublicKey.beValue. rewrite fold_left_app. reflexivity. Qed.

Lemma byteZ_range b : 0 <= PublicKey.byteZ b < 256.
Proof. apply byteValue_range. Qed.

Lemma beValue_range bs : 0 <= PublicKey.beValue bs < 256 ^ Z.of_nat (length bs).
Proof.
  induction bs as [| b bs IH] using rev_ind.
  - cbn. lia.
  - rewrite beValue_snoc, length_app, Nat2Z.inj_add. cbn [length].
    rewrite Z.pow_add_r by lia. change (256 ^ Z.of_nat 1) with 256.
    pose proof (byteZ_range b). nia.
Qed.

Lemma beBytes_beValue bs : forall acc,
  PublicKey.beBytes (length bs) (PublicKey.beValue bs) acc = (bs ++ acc)%list.
Proof.
  induction bs as [| b bs IH] using rev_ind; intros acc.
  - reflexivity.
  - rewrite beValue_snoc, length_app. cbn [length]. rewrite Nat.add_1_r.
    cbn [PublicKey.beBytes].
    pose proof (byteZ_range b) as Hb.
    assert (Hmod : (PublicKey.beValue bs * 256 + PublicKey.byteZ b) mod 256 = PublicKey.byteZ b).
    { rewrite Z.add_comm, Z.mod_add by lia. apply Z.mod_small. exact Hb. }
    assert (Hdiv : (PublicKey.beValue bs * 256 + PublicKey.byteZ b) / 256 = PublicKey.beValue bs).
    { rewrite Z.add_comm, Z.div_add by lia. rewrite Z.div_small by exact Hb. lia. }
    rewrite Hmod, Hdiv. change (PublicKey.byteZ b) with (byteValue b).
    rewrite of_N_byteValue, IH, <- app_assoc. reflexivity.
Qed.

Lemma ofBytes_32 bs : length bs = 32%nat -> PublicKey.ofBytes bs = Return bs.
Proof.
  intros Hlen. unfold PublicKey.ofBytes.
  pose proof (beValue_range bs) as Hr. rewrite Hlen in Hr.
  change (256 ^ Z.of_nat 32) with (2 ^ 256) in Hr.
  destruct (Z.ltb_spec (PublicKey.beValue bs) (2 ^ 256)) as [_ | Hge]; [| lia].
  rewrite <- Hlen at 1. rewrite beBytes_beValue, app_nil_r. reflexivity.
Qed.

(** *** The round account *)

Lemma round_readU64LE data offset :
  (offset + 8 <= length data)%nat ->
  RoundDecoder.readU64LE data offset = Return (littleEndian (chunk offset 8 data)).
Proof.
  intros H. unfold RoundDecoder.readU64LE. rewrite readBigUInt64LE_chunk by exact H.
  reflexivity.
Qed.

Lemma round_readU64LE_short data offset :
  (length data < offset + 8)%nat -> exists e, RoundDecoder.readU64LE data offset = Throw e.
Proof.
  intros H. unfold RoundDecoder.readU64LE. rewrite readBigUInt64LE_short by exact H.
  eexists. reflexivity.
Qed.

Lemma readU64Array_values data count : forall offset,
  (offset + 8 * count <= length data)%nat ->
  RoundDecoder.readU64Array data offset count
  = Return (map (fun i => littleEndian (chunk (offset + 8 * i) 8 data)) (seq 0 count)).
Proof.
  induction count as [| count IH]; intros offset H.
  - reflexivity.
  - cbn [RoundDecoder.readU64Array]. rewrite round_readU64LE by lia.
    cbn [RoundDecoder.andThen]. unfold RoundDecoder.U64_SIZE. rewrite IH by lia.
    cbn [RoundDecoder.andThen seq map]. rewrite <- seq_shift, map_map.
    f_equal. f_equal; [f_equal; f_equal; lia |].
    apply map_ext. intros i. f_equal. f_equal. lia.
Qed.

Lemma nth_error_values (f : nat -> Z) count i :
  (i < count)%nat -> nth_error (map f (seq 0 count)) i = Some (f i).
Proof.
  intros Hi. rewrite nth_error_map, nth_error_seq.
  destruct (Nat.ltb_spec i count); [reflexivity | lia].
Qed.

(** X6. decodeRoundAccount returns exactly when the account data has at
    least 560 bytes; shorter data makes one of the reads throw.  The round it
    returns has 25 deployed values and 25 counts, each the little-endian u64
    of its place in the layout, a slot hash of 32 bytes and keys of 32
    bytes. *)
Theorem decodeRoundAccount_layout (data : list byte) :
  ((length data < 560)%nat -> exists e, RoundDecoder.decodeRoundAccount data = Throw e)
  /\ ((560 <= length data)%nat ->
      exists round,
        RoundDecoder.decodeRoundAccount data = Return round
        /\ RoundDecoder.id round = littleEndian (chunk 8 8 data)
        /\ length (RoundDecoder.deployed round) = 25%nat
        /\ (forall i, (i < 25)%nat ->
              nth_error (RoundDecoder.deployed round) i
              = Some (littleEndian (chunk (16 + 8 * i) 8 data)))
        /\ RoundDecoder.slotHash round = chunk 216 32 data
        /\ length (RoundDecoder.slotHash round) = 32%nat
        /\ length (RoundDecoder.counts round) = 25%nat
        /\ (forall i, (i < 25)%nat ->
              nth_error (RoundDecoder.counts round) i
              = Some (littleEndian (chunk (248 + 8 * i) 8 data)))
        /\ RoundDecoder.expiresAt round = littleEndian (chunk 448 8 data)
        /\ RoundDecoder.motherlode round = littleEndian (chunk 456 8 data)
        /\ RoundDecoder.rentPayer round = chunk 464 32 data
        /\ RoundDecoder.topMiner round = chunk 496 32 data
        /\ RoundDecoder.topMinerReward round = littleEndian (chunk 528 8 data)
        /\ RoundDecoder.totalDeployed round = littleEndian (chunk 536 8 data)
        /\ RoundDecoder.totalVaulted round = littleEndian (chunk 544 8 data)
        /\ RoundDecoder.totalWinnings round = littleEndian (chunk 552 8 data)).
Proof.
  unfold RoundDecoder.decodeRoundAccount, RoundDecoder.ACCOUNT_DISCRIMINATOR_SIZE,
    RoundDecoder.U64_SIZE, RoundDecoder.PUBKEY_SIZE, RoundDecoder.SLOT_HASH_SIZE,
    RoundDecoder.TILES_COUNT.
  cbn [Nat.add Nat.mul]. split.
  - intros Hshort.
    repeat match goal with
           | |- exists e, RoundDecoder.andThen ?o _ = Throw e =>
               let H := fresh "Hstep" in
               destruct o eqn:H; cbn [RoundDecoder.andThen]; [| eexists; reflexivity]
           end.
    exfalso.
    match goal with
    | H : RoundDecoder.readU64LE data 552 = Return _ |- _ =>
        destruct (round_readU64LE_short data 552) as [e He]; [lia | congruence]
    end.
  - intros Hlong.
    rewrite !round_readU64LE by lia. cbn [RoundDecoder.andThen].
    rewrite !readU64Array_values by lia. cbn [RoundDecoder.andThen].
    change (Buffer.subarray data 216 248) with (chunk 216 32 data).
    change (Buffer.subarray data 464 496) with (chunk 464 32 data).
    change (Buffer.subarray data 496 528) with (chunk 496 32 data).
    rewrite !ofBytes_32 by (apply length_chunk; lia). cbn [RoundDecoder.andThen].
    eexists. split; [reflexivity |].
    cbn [RoundDecoder.id RoundDecoder.deployed RoundDecoder.slotHash RoundDecoder.counts
         RoundDecoder.expiresAt RoundDecoder.motherlode RoundDecoder.rentPayer
         RoundDecoder.topMiner RoundDecoder.topMinerReward RoundDecoder.totalDeployed
         RoundDecoder.totalVaulted RoundDecoder.totalWinnings].
    repeat split; try reflexivity;
      try (apply length_chunk; lia);
      intros i Hi; exact (nth_error_values _ 25 i Hi).
Qed.

End AccountFacts.


(** ** The EV of the tiles of a round *)

Module TileEvFacts.
Import Js NumberSpec JsNumFacts RoundDecoder EvCalculator SharedTypes EvSpec EvFacts StakeSpec.

Local Open Scope Q_scope.

Lemma Qle_bool_false a b : Qle_bool a b = false <-> b < a.
Proof.
  split.
  - intros H. destruct (Qlt_le_dec b a) as [Hlt | Hle]; [exact Hlt |].
    apply Qle_bool_iff in Hle. congruence.
  - intros H. destruct (Qle_bool a b) eqn:Hb; [| reflexivity].
    apply Qle_bool_iff in Hb. lra.
Qed.

Lemma Qfloor_ge z q : (z <= Qfloor q)%Z <-> inject_Z z <= q.
Proof.
  split.
  - intros H. apply Qle_trans with (inject_Z (Qfloor q)); [| apply Qfloor_le].
    rewrite <- Zle_Qle. exact H.
  - intros H. rewrite <- (Qfloor_Z z). apply Qfloor_resp_le. exact H.
Qed.

(** The constants of the calculator as rationals. *)
Lemma PROBABILITY_OF_WIN_value : PROBABILITY_OF_WIN = Fin (1 # 25).
Proof. reflexivity. Qed.

Lemma minStakeSol_value : minStakeSol = Fin (1 # 1000).
Proof. reflexivity. Qed.

Lemma EV_DENOMINATOR_value : exists e, EV_DENOMINATOR = Fin e /\ e == 964 # 1000.
Proof. eexists. split; reflexivity. Qed.

Lemma computeEvRatio_value others pot net :
  0 < others + (1 # 1000) ->
  computeEvRatio (Fin others) (Fin pot) (ofZ 0) minStakeSol (Fin net)
  = Fin (ratioNumerator pot net / (others + (1 # 1000))).
Proof.
  intros Hden. unfold computeEvRatio.
  rewrite PROBABILITY_OF_WIN_value, minStakeSol_value.
  unfold SOL_PAYOUT_FEE_FACTOR. cbn [Js.add Js.mul Js.leb Js.ofZ Js.div].
  change (inject_Z 0%Z) with 0 at 1.
  rewrite (proj2 (Qle_bool_false _ _) Hden).
  rewrite (Qeq_bool_positive _ Hden). reflexivity.
Qed.

Lemma solveMaxProfitableStake_value others pot net :
  exists s,
    solveMaxProfitableStake (Fin others) (Fin pot) (ofZ 0) (Fin net) = Fin s
    /\ (stakeNumerator pot net others <= 0 -> s == 0)
    /\ (0 < stakeNumerator pot net others ->
        s == stakeNumerator pot net others / (964 # 1000)).
Proof.
  unfold solveMaxProfitableStake.
  rewrite PROBABILITY_OF_WIN_value. unfold SOL_PAYOUT_FEE_FACTOR.
  cbn [Js.add Js.mul Js.sub Js.neg Js.leb Js.ofZ].
  fold (stakeNumerator pot net others).
  destruct (Qle_bool (stakeNumerator pot net others) (inject_Z 0)) eqn:Hle.
  - exists (inject_Z 0). split; [reflexivity |]. split; [reflexivity |].
    intros Hpos. apply Qle_bool_iff in Hle. change (inject_Z 0%Z) with 0 in Hle. lra.
  - destruct EV_DENOMINATOR_value as (e & -> & He).
    assert (Hepos : 0 < e) by (rewrite He; reflexivity).
    cbn [Js.div]. rewrite (Qeq_bool_positive e Hepos).
    eexists. split; [reflexivity |]. split.
    + intros Hneg. apply Qle_bool_false in Hle. change (inject_Z 0%Z) with 0 in Hle. lra.
    + intros _. rewrite He. reflexivity.
Qed.

Lemma max_Fin a b : exists c, Js.max (Fin a) (Fin b) = Fin c.
Proof. cbn [Js.max Js.leb]. destruct (Qle_bool a b); eexists; reflexivity. Qed.

Lemma positive_add_l x y : positive x -> nonneg y -> positive (Js.add x y).
Proof. destruct x, y; cbn [nonneg positive Js.add]; try tauto. intros. lra. Qed.

Lemma motherlodeFactor_positive round :
  positive
    (Js.add (ofZ 1)
       (Js.mul MOTHERLODE_TRIGGER_PROBABILITY
          (Js.max (Js.div (ofZ (Js.Number (motherlode round))) ORE_DECIMALS) (ofZ 0)))).
Proof.
  apply positive_add_l; [reflexivity |].
  apply nonneg_mul; [vm_compute; discriminate |].
  assert (Hm : Js.div (ofZ (Js.Number (motherlode round))) ORE_DECIMALS
               = Fin (inject_Z (Js.Number (motherlode round)) / inject_Z 100000000000))
    by reflexivity.
  rewrite Hm. apply nonneg_max_r. apply nonneg_ofZ. lia.
Qed.

Lemma net_finite round price p :
  PriceQuote.oreSol price = Fin p -> exists n, computeNetOreValueSol round price = Fin n.
Proof.
  intros Hp. unfold computeNetOreValueSol. rewrite Hp.
  pose proof (motherlodeFactor_positive round) as Hpos.
  destruct (Js.add _ _) as [| | | q]; cbn [positive] in Hpos; try contradiction.
  eexists. reflexivity.
Qed.

Lemma net_positive_infinity round price :
  PriceQuote.oreSol price = PosInf -> computeNetOreValueSol round price = PosInf.
Proof.
  intros Hp. unfold computeNetOreValueSol. rewrite Hp.
  change (Js.mul PosInf SOL_PAYOUT_FEE_FACTOR) with PosInf.
  pose proof (motherlodeFactor_positive round) as Hpos.
  destruct (Js.add _ _) as [| | | q]; cbn [positive] in Hpos; try contradiction.
  cbn [Js.mul Js.sign Js.inf_of_sign]. rewrite (Qsgn_positive q Hpos). reflexivity.
Qed.

Lemma net_nan round price :
  PriceQuote.oreSol price = NaN -> computeNetOreValueSol round price = NaN.
Proof. intros Hp. unfold computeNetOreValueSol. rewrite Hp. reflexivity. Qed.

(** *** The tiles produced *)

Lemma tileEv_fields round pot net i t :
  tileEv round pot net i = Return t ->
  exists d,
    nth_error (RoundDecoder.deployed round) i = Some d
    /\ EvCalculator.deployed t = d
    /\ othersStake t = d
    /\ minersCount t = nth_error (counts round) i
    /\ tileIndex t = Z.of_nat i
    /\ evRatio t = computeEvRatio (lamportsToSol (Some d)) pot (ofZ 0) minStakeSol net
    /\ floorToBigInt
         (Js.mul (solveMaxProfitableStake (lamportsToSol (Some d)) pot (ofZ 0) net)
                 (ofZ 1000000000))
       = Some (maxProfitable t).
Proof.
  unfold tileEv. intros H.
  destruct (nth_error (RoundDecoder.deployed round) i) as [d |] eqn:Hd.
  - destruct (floorToBigInt _) as [m |] eqn:Hm; [| discriminate].
    injection H as <-. exists d. cbn. auto 10.
  - destruct (floorToBigInt _); discriminate.
Qed.

Lemma tileEv_returns round pot net i d :
  nth_error (RoundDecoder.deployed round) i = Some d ->
  exists t, tileEv round (Fin pot) (Fin net) i = Return t.
Proof.
  intros Hd. unfold tileEv. rewrite Hd, lamportsToSol_Fin.
  destruct (solveMaxProfitableStake_value
              (inject_Z (Js.Number d) / inject_Z 1000000000) pot net) as (s & -> & _).
  cbn [Js.mul Js.ofZ floorToBigInt]. eexists. reflexivity.
Qed.

Lemma tileEv_missing round pot net i :
  nth_error (RoundDecoder.deployed round) i = None ->
  exists e, tileEv round pot net i = Throw e.
Proof.
  intros Hd. unfold tileEv. rewrite Hd. destruct (floorToBigInt _); eexists; reflexivity.
Qed.

Lemma tileEv_undefined round pot net i :
  net = NaN \/ net = PosInf ->
  exists e, tileEv round (Fin pot) net i = Throw e.
Proof.
  intros Hnet. unfold tileEv.
  destruct (nth_error (RoundDecoder.deployed round) i) as [d |] eqn:Hd.
  - rewrite lamportsToSol_Fin, maxProfitable_undefined by exact Hnet. eexists. reflexivity.
  - destruct (floorToBigInt _); eexists; reflexivity.
Qed.

Lemma tileLoop_returns f indices :
  (forall i, In i indices -> exists t, f i = Return t) ->
  exists results, tileLoop f indices = Return results.
Proof.
  induction indices as [| i rest IH]; intros Hall.
  - exists []. reflexivity.
  - destruct (Hall i (or_introl eq_refl)) as [t Ht].
    destruct IH as [results Hrest]; [intros j Hj; apply Hall; right; exact Hj |].
    exists (t :: results). cbn [tileLoop]. rewrite Ht, Hrest. reflexivity.
Qed.

Lemma tileLoop_throws f indices i :
  In i indices -> (exists e, f i = Throw e) -> exists e, tileLoop f indices = Throw e.
Proof.
  induction indices as [| j rest IH]; intros Hin Hthrow; [destruct Hin |].
  cbn [tileLoop]. destruct (f j) as [r |] eqn:Hj; [| eexists; reflexivity].
  destruct Hin as [-> | Hin].
  - destruct Hthrow as [e He]. congruence.
  - destruct (IH Hin Hthrow) as [e He]. rewrite He. eexists. reflexivity.
Qed.

Lemma Forall2_nth_error {A B} (P : A -> B -> Prop) l k i x :
  Forall2 P l k -> nth_error l i = Some x -> exists y, nth_error k i = Some y /\ P x y.
Proof.
  intros H. revert i. induction H as [| a b l k Hab _ IH]; intros i Hi.
  - destruct i; discriminate.
  - destruct i as [| i]; cbn in *.
    + injection Hi as <-. exists b. auto.
    + apply IH, Hi.
Qed.

Lemma Forall2_In_r {A B} (P : A -> B -> Prop) l k y :
  Forall2 P l k -> In y k -> exists x, In x l /\ P x y.
Proof.
  intros H. induction H as [| a b l k Hab _ IH]; intros Hin; [destruct Hin |].
  destruct Hin as [<- | Hin].
  - exists a. split; [left; reflexivity | exact Hab].
  - destruct (IH Hin) as (x & Hx & Hp). exists x. split; [right; exact Hx | exact Hp].
Qed.

(** The pot of the round as a rational number of SOL. *)
Lemma pot_value round :
  lamportsToSol (Some (computePotFromOthers round)) = Fin (potSol round).
Proof. reflexivity. Qed.

Lemma maxProfitable_nonneg others pot net m :
  floorToBigInt
    (Js.mul (solveMaxProfitableStake (Fin others) (Fin pot) (ofZ 0) (Fin net))
            (ofZ 1000000000)) = Some m ->
  (0 <= m)%Z.
Proof.
  destruct (solveMaxProfitableStake_value others pot net) as (s & -> & Hzero & Hpos).
  change (floorToBigInt (Js.mul (Fin s) (ofZ 1000000000)))
    with (Some (Qfloor (s * inject_Z 1000000000))).
  intros H. assert (Hm : m = Qfloor (s * inject_Z 1000000000)) by congruence.
  rewrite Hm. clear H Hm.
  apply (proj2 (Qfloor_ge 0 _)). change (inject_Z 0%Z) with 0.
  change (inject_Z 1000000000) with (1000000000 # 1).
  destruct (Qlt_le_dec 0 (stakeNumerator pot net others)) as [Hp | Hn].
  - rewrite (Hpos Hp). apply Qmult_le_0_compat; [| discriminate].
    apply Qle_shift_div_l; [reflexivity | lra].
  - rewrite (Hzero Hn). lra.
Qed.

Lemma calculateAllTileEvs_loop round price p :
  (25 <= length (RoundDecoder.deployed round))%nat ->
  PriceQuote.oreSol price = Fin p ->
  exists n tiles,
    computeNetOreValueSol round price = Fin n
    /\ calculateAllTileEvs round price = Return tiles
    /\ Forall2 (fun i t => tileEv round (Fin (potSol round)) (Fin n) i = Return t)
         (seq 0 25) tiles.
Proof.
  intros Hlen Hp. unfold calculateAllTileEvs.
  destruct (net_finite round price p Hp) as [n Hn]. rewrite Hn, pot_value.
  destruct (tileLoop_returns (tileEv round (Fin (potSol round)) (Fin n)) (seq 0 25))
    as [tiles Htiles].
  { intros i Hi. apply in_seq in Hi.
    destruct (nth_error (RoundDecoder.deployed round) i) as [d |] eqn:Hd.
    - eapply tileEv_returns, Hd.
    - apply nth_error_None in Hd. lia. }
  exists n, tiles. split; [reflexivity |]. split; [exact Htiles |].
  exact (tileLoop_Return _ _ _ Htiles).
Qed.

Lemma calculateAllTileEvs_undefined round price :
  PriceQuote.oreSol price = NaN \/ PriceQuote.oreSol price = PosInf ->
  exists e, calculateAllTileEvs round price = Throw e.
Proof.
  intros Hprice. unfold calculateAllTileEvs. rewrite pot_value.
  apply (tileLoop_throws _ _ 0%nat).
  - apply in_seq. lia.
  - apply tileEv_undefined. destruct Hprice as [Hp | Hp].
    + left. apply net_nan, Hp.
    + right. apply net_positive_infinity, Hp.
Qed.

(** X7. calculateAllTileEvs returns, for a round with at least 25 deployed
    values whose numbers are unsigned 64-bit integers, and an ORE price that
    is a number within 10^100 of zero (where no operation of the calculator
    overflows), 25 tiles in the order of their indices; tile i carries index
    i, the deployed value i of the round as its deployed value and as the
    others' stake, the count i of the round if there is one, and a maximal
    profitable stake that is not negative. *)
Theorem calculateAllTileEvs_returns (round : RoundAccount) (price : PriceQuote.t) (p : Q) :
  (25 <= length (RoundDecoder.deployed round))%nat ->
  Layout.u64Fields round ->
  PriceQuote.oreSol price = Fin p ->
  priceInRange p ->
  exists tiles,
    calculateAllTileEvs round price = Return tiles
    /\ length tiles = 25%nat
    /\ forall i, (i < 25)%nat ->
         exists t,
           nth_error tiles i = Some t
           /\ tileIndex t = Z.of_nat i
           /\ nth_error (RoundDecoder.deployed round) i = Some (EvCalculator.deployed t)
           /\ othersStake t = EvCalculator.deployed t
           /\ minersCount t = nth_error (counts round) i
           /\ (0 <= maxProfitable t)%Z.
Proof.
  intros Hlen _ Hp _.
  destruct (calculateAllTileEvs_loop round price p Hlen Hp) as (n & tiles & _ & Htiles & Hall).
  exists tiles. split; [exact Htiles |].
  split; [rewrite <- (Forall2_length _ _ _ Hall); apply length_seq |].
  intros i Hi.
  destruct (Forall2_nth_error _ _ _ i i Hall) as (t & Ht & Hrun).
  { rewrite nth_error_seq. destruct (Nat.ltb_spec i 25); [reflexivity | lia]. }
  exists t. split; [exact Ht |].
  destruct (tileEv_fields _ _ _ _ _ Hrun) as (d & Hd & Hdep & Hothers & Hcount & Hidx & _ & Hmax).
  rewrite Hdep, Hothers. repeat split; try assumption.
  rewrite lamportsToSol_Fin in Hmax. eapply maxProfitable_nonneg, Hmax.
Qed.

(** X8. calculateAllTileEvs throws when the round has fewer than 25
    deployed values, and when the ORE price is NaN or +Infinity: the maximal
    stake of a tile is then NaN or infinite, and its conversion to BigInt is
    a RangeError. *)
Theorem calculateAllTileEvs_throws (round : RoundAccount) (price : PriceQuote.t) :
  (length (RoundDecoder.deployed round) < 25)%nat
  \/ PriceQuote.oreSol price = NaN
  \/ PriceQuote.oreSol price = PosInf ->
  exists e, calculateAllTileEvs round price = Throw e.
Proof.
  intros [Hshort | Hprice]; [| apply calculateAllTileEvs_undefined, Hprice].
  unfold calculateAllTileEvs. rewrite pot_value.
  apply (tileLoop_throws _ _ (length (RoundDecoder.deployed round))).
  - apply in_seq. lia.
  - apply tileEv_missing. apply nth_error_None. lia.
Qed.

(** *** Ratio and stake of a tile *)

Lemma produced_tile round price tiles t :
  calculateAllTileEvs round price = Return tiles ->
  In t tiles ->
  exists i,
    tileEv round (Fin (potSol round)) (computeNetOreValueSol round price) i = Return t.
Proof.
  unfold calculateAllTileEvs. rewrite pot_value. intros Hloop Ht.
  apply tileLoop_Return in Hloop.
  destruct (Forall2_In_r _ _ _ t Hloop Ht) as (i & _ & Hi). exists i. exact Hi.
Qed.

Lemma othersSol_nonneg d : (0 <= d)%Z -> 0 <= othersSol d.
Proof.
  intros Hd. unfold othersSol. apply Qle_shift_div_l; [reflexivity |].
  rewrite Qmult_0_l. change 0 with (inject_Z 0). rewrite <- Zle_Qle.
  apply JsFacts.Number_nonneg, Hd.
Qed.

Lemma othersSol_le a b : othersSol a <= othersSol b <-> (Js.Number a <= Js.Number b)%Z.
Proof.
  unfold othersSol, Qdiv. rewrite Qmult_le_r by reflexivity. rewrite <- Zle_Qle. reflexivity.
Qed.

Lemma potSol_nonneg round :
  List.Forall (fun d => (0 <= d)%Z) (RoundDecoder.deployed round) -> 0 <= potSol round.
Proof.
  intros Hdep. apply othersSol_nonneg. unfold computePotFromOthers.
  apply fold_left_add_nonneg; [lia | exact Hdep].
Qed.

Lemma ratioNumerator_positive pot net : 0 <= pot -> 0 <= net -> 0 < ratioNumerator pot net.
Proof.
  intros Hp Hn. unfold ratioNumerator. change (inject_Z 0%Z) with 0. lra.
Qed.

(** The tile of a round with non-negative deployed values, for a finite net
    ORE value: index, ratio and maximal stake. *)
Lemma tile_values round price tiles n t :
  calculateAllTileEvs round price = Return tiles ->
  List.Forall (fun d => (0 <= d)%Z) (RoundDecoder.deployed round) ->
  computeNetOreValueSol round price = Fin n ->
  In t tiles ->
  (0 <= EvCalculator.deployed t)%Z
  /\ evRatio t
     = Fin (ratioNumerator (potSol round) n / (othersSol (EvCalculator.deployed t) + (1 # 1000)))
  /\ exists s,
       maxProfitable t = Qfloor (s * inject_Z 1000000000)
       /\ (stakeNumerator (potSol round) n (othersSol (EvCalculator.deployed t)) <= 0 -> s == 0)
       /\ (0 < stakeNumerator (potSol round) n (othersSol (EvCalculator.deployed t)) ->
           s == stakeNumerator (potSol round) n (othersSol (EvCalculator.deployed t))
                / (964 # 1000)).
Proof.
  intros Hrun Hdep Hnet Ht.
  destruct (produced_tile _ _ _ _ Hrun Ht) as [i Hi]. rewrite Hnet in Hi.
  destruct (tileEv_fields _ _ _ _ _ Hi) as (d & Hnth & Hd & _ & _ & _ & Hev & Hmax).
  assert (Hd0 : (0 <= d)%Z).
  { apply (proj1 (List.Forall_forall _ _) Hdep). eapply nth_error_In, Hnth. }
  rewrite Hd. split; [exact Hd0 |].
  rewrite lamportsToSol_Fin in Hev, Hmax. fold (othersSol d) in Hev, Hmax.
  pose proof (othersSol_nonneg d Hd0) as Ho.
  split.
  - rewrite Hev. apply computeEvRatio_value. lra.
  - destruct (solveMaxProfitableStake_value (othersSol d) (potSol round) n)
      as (s & Hs & Hzero & Hpos).
    rewrite Hs in Hmax.
    change (floorToBigInt (Js.mul (Fin s) (ofZ 1000000000)))
      with (Some (Qfloor (s * inject_Z 1000000000))) in Hmax.
    exists s. split; [congruence | split; assumption].
Qed.

Lemma ratio_antitone num da db :
  0 <= num -> 0 < da -> da <= db -> num / db <= num / da.
Proof.
  intros Hn Hda Hdb. apply Qle_shift_div_l; [exact Hda |].
  assert (Hx : 0 <= num / db) by (apply Qle_shift_div_l; lra).
  assert (Hmul : (num / db) * db == num) by (rewrite Qmult_comm; apply Qmult_div_r; lra).
  rewrite <- Hmul at 2. rewrite !(Qmult_comm (num / db)).
  apply Qmult_le_compat_r; assumption.
Qed.

(** X10. On one round, a tile with less deployed on it never has the smaller
    EV ratio: for a finite, non-negative ORE price and non-negative deployed
    values, the EV ratio of a produced tile does not grow with its deployed
    value. *)
Theorem evRatio_decreases_with_deployed
    (round : RoundAccount) (price : PriceQuote.t) (p : Q) (tiles : list TileEvResult) :
  calculateAllTileEvs round price = Return tiles ->
  List.Forall (fun d => (0 <= d)%Z) (RoundDecoder.deployed round) ->
  PriceQuote.oreSol price = Fin p -> 0 <= p ->
  forall t1 t2, In t1 tiles -> In t2 tiles ->
    (EvCalculator.deployed t1 <= EvCalculator.deployed t2)%Z ->
    Js.leb (evRatio t2) (evRatio t1) = true.
Proof.
  intros Hrun Hdep Hp Hp0 t1 t2 Ht1 Ht2 Hle.
  pose proof (computeNetOreValueSol_nonneg round price p Hp Hp0) as Hnet.
  destruct (computeNetOreValueSol round price) as [| | | n] eqn:Hn; cbn [nonneg] in Hnet;
    try contradiction.
  destruct (tile_values _ _ _ n t1 Hrun Hdep Hn Ht1) as (Hd1 & -> & _).
  destruct (tile_values _ _ _ n t2 Hrun Hdep Hn Ht2) as (Hd2 & -> & _).
  cbn [Js.leb]. apply Qle_bool_iff.
  pose proof (othersSol_nonneg _ Hd1). pose proof (potSol_nonneg round Hdep).
  apply ratio_antitone.
  - apply Qlt_le_weak, ratioNumerator_positive; assumption.
  - lra.
  - assert (othersSol (EvCalculator.deployed t1) <= othersSol (EvCalculator.deployed t2)).
    { apply othersSol_le. apply RoundingFacts.Number_monotone; assumption. }
    lra.
Qed.

End TileEvFacts.

(** ** The ranking of the tiles of a round *)

Module RankingFacts.
Import Js NumberSpec EvCalculator TileRanker RankingSpec RankerFacts StakeSpec TileEvFacts.

Lemma rankTilesByEv_ordered tiles :
  List.Forall isNumber tiles ->
  forall a b, In a (rankTilesByEv tiles) -> In b (rankTilesByEv tiles) ->
    TilePreFin.rankEv a < TilePreFin.rankEv b -> rankedBefore a b.
Proof.
  intros Hnum a b. unfold rankTilesByEv. apply assignRanks_ordered.
  - apply (Permutation_Forall (sortBy_perm compareTiles tiles)). exact Hnum.
  - apply sortBy_sorted. exact Hnum.
Qed.

Lemma rankTilesByEv_member tiles r : In r (rankTilesByEv tiles) -> In (unranked r) tiles.
Proof.
  unfold rankTilesByEv. intros Hr. apply assignRanks_member in Hr.
  eapply Permutation_in; [apply Permutation_sym, sortBy_perm | exact Hr].
Qed.

(** X11. The ranking of the tiles of a round follows the deployed values:
    for a finite, non-negative ORE price and non-negative deployed values, a
    tile of smaller rank has no more deployed on it (as a number) than a tile
    of larger rank, unless the two tiles have the same EV ratio; two tiles
    whose ratios are the same number are ranked by their maximal profitable
    stakes and their places in the list, whatever is deployed on them. *)
Theorem ranking_follows_deployed
    (round : RoundDecoder.RoundAccount) (price : PriceQuote.t) (p : Q)
    (tiles : list TileEvResult) :
  calculateAllTileEvs round price = Return tiles ->
  List.Forall (fun d => 0 <= d) (RoundDecoder.deployed round) ->
  PriceQuote.oreSol price = Fin p -> (0 <= p)%Q ->
  forall a b, In a (rankTilesByEv tiles) -> In b (rankTilesByEv tiles) ->
    TilePreFin.rankEv a < TilePreFin.rankEv b ->
    Js.Number (TilePreFin.deployed a) <= Js.Number (TilePreFin.deployed b)
    \/ Js.eqb (TilePreFin.evRatio a) (TilePreFin.evRatio b) = true.
Proof.
  intros Hrun Hdep Hp Hp0 a b Ha Hb Hlt.
  pose proof (EvFacts.computeNetOreValueSol_nonneg round price p Hp Hp0) as Hnet.
  destruct (computeNetOreValueSol round price) as [| | | n] eqn:Hn; cbn [nonneg] in Hnet;
    try contradiction.
  assert (Hnum : List.Forall isNumber tiles).
  { apply List.Forall_forall. intros t Ht.
    destruct (tile_values _ _ _ n t Hrun Hdep Hn Ht) as (_ & Hev & _).
    unfold isNumber. rewrite Hev. reflexivity. }
  pose proof (rankTilesByEv_ordered tiles Hnum a b Ha Hb Hlt) as Hbefore.
  destruct (tile_values _ _ _ n _ Hrun Hdep Hn (rankTilesByEv_member _ _ Ha))
    as (Hda & Hra & _).
  destruct (tile_values _ _ _ n _ Hrun Hdep Hn (rankTilesByEv_member _ _ Hb))
    as (Hdb & Hrb & _).
  cbn [unranked EvCalculator.deployed EvCalculator.evRatio] in Hda, Hra, Hdb, Hrb.
  pose proof (othersSol_nonneg _ Hda) as Hoa. pose proof (othersSol_nonneg _ Hdb) as Hob.
  pose proof (ratioNumerator_positive (potSol round) n (potSol_nonneg round Hdep) Hnet) as Hnum0.
  destruct (Qlt_le_dec (othersSol (TilePreFin.deployed b)) (othersSol (TilePreFin.deployed a)))
    as [Hgt | Hle]; [| left; apply othersSol_le; exact Hle].
  (* the more crowded tile has no larger ratio, so the order leaves a tie *)
  assert (Hanti : (ratioNumerator (potSol round) n / (othersSol (TilePreFin.deployed a) + (1 # 1000))
                   <= ratioNumerator (potSol round) n
                      / (othersSol (TilePreFin.deployed b) + (1 # 1000)))%Q).
  { apply ratio_antitone; lra. }
  unfold rankedBefore, before in Hbefore.
  destruct Hbefore as [[Hinf _] | [[_ Hless] | [Heq _]]].
  - rewrite Hra in Hinf. discriminate Hinf.
  - exfalso. rewrite Hra, Hrb in Hless.
    cbn [Js.ltb] in Hless. apply negb_true_iff, Qle_bool_false in Hless. lra.
  - right. exact Heq.
Qed.

Lemma rankTilesByEv_head tiles :
  getBestTile (rankTilesByEv tiles) = head (rankTilesByEv tiles).
Proof.
  unfold rankTilesByEv, getBestTile.
  destruct (sortBy compareTiles tiles) as [| first rest]; reflexivity.
Qed.

(** X12. getBestTile of a ranking is its first tile: there is none exactly
    when there are no tiles, its rank is 1, and, the EV ratios being numbers,
    it is ranked before every tile of another rank. *)
Theorem getBestTile_of_ranking (tiles : list TileEvResult) :
  getBestTile (rankTilesByEv tiles) = head (rankTilesByEv tiles)
  /\ (getBestTile (rankTilesByEv tiles) = None <-> tiles = [])
  /\ forall best,
       getBestTile (rankTilesByEv tiles) = Some best ->
       TilePreFin.rankEv best = 1
       /\ In (unranked best) tiles
       /\ (List.Forall isNumber tiles ->
           forall t, In t (rankTilesByEv tiles) -> TilePreFin.rankEv t <> 1 ->
             rankedBefore best t).
Proof.
  split; [apply rankTilesByEv_head |]. split.
  - rewrite rankTilesByEv_head. unfold rankTilesByEv.
    pose proof (sortBy_length compareTiles tiles) as Hlen.
    destruct (sortBy compareTiles tiles) as [| first rest]; cbn [assignRanks head].
    + split; [intros _ | reflexivity]. destruct tiles; [reflexivity | discriminate Hlen].
    + split; [discriminate |]. intros ->. discriminate Hlen.
  - intros best Hbest. rewrite rankTilesByEv_head in Hbest.
    assert (Hin : In best (rankTilesByEv tiles)).
    { destruct (rankTilesByEv tiles) as [| first rest]; [discriminate |].
      injection Hbest as <-. left. reflexivity. }
    assert (Hrank : TilePreFin.rankEv best = 1).
    { unfold rankTilesByEv in Hbest.
      destruct (sortBy compareTiles tiles) as [| first rest]; [discriminate |].
      injection Hbest as <-. reflexivity. }
    split; [exact Hrank |]. split; [apply rankTilesByEv_member, Hin |].
    intros Hnum t Ht Hne. apply (rankTilesByEv_ordered tiles Hnum); [exact Hin | exact Ht |].
    unfold rankTilesByEv in Ht. apply assignRanks_lower in Ht. lia.
Qed.

Lemma leb_before minEv ra ma rb mb :
  ra <> NaN -> ra <> NegInf -> rb <> NaN ->
  before ra ma rb mb -> Js.leb minEv rb = true -> Js.leb minEv ra = true.
Proof.
  intros Hna Hia Hnb Hbefore Hle.
  destruct Hbefore as [[Hinf Hfin] | [[Hsame Hless] | [Heq _]]].
  - destruct ra; try congruence; try discriminate.
    destruct minEv; try reflexivity; discriminate.
  - destruct ra as [| | | qa], rb as [| | | qb]; try congruence; try discriminate.
    + destruct minEv; try reflexivity; discriminate.
    + destruct minEv as [| | | qm]; try reflexivity; try discriminate.
      cbn [Js.leb Js.ltb] in *. apply negb_true_iff, TileEvFacts.Qle_bool_false in Hless.
      apply Qle_bool_iff in Hle. apply Qle_bool_iff. lra.
  - destruct ra as [| | | qa], rb as [| | | qb]; try congruence; try discriminate.
    destruct minEv as [| | | qm]; try reflexivity; try discriminate.
    cbn [Js.leb Js.eqb] in *. apply Qeq_bool_iff in Heq.
    apply Qle_bool_iff in Hle. apply Qle_bool_iff. lra.
Qed.

Lemma filter_none {A} (f : A -> bool) l :
  List.Forall (fun x => f x = false) l -> List.filter f l = [].
Proof.
  induction 1 as [| x l Hx _ IH]; [reflexivity |]. cbn [List.filter]. rewrite Hx. exact IH.
Qed.

Lemma assignRanks_evRatio l : forall k r,
  In r (assignRanks k l) -> exists t, In t l /\ TilePreFin.evRatio r = evRatio t
                                      /\ TilePreFin.maxProfitable r = maxProfitable t.
Proof.
  induction l as [| x l IH]; intros k r Hr; [destruct Hr |].
  destruct Hr as [<- | Hr].
  - exists x. split; [left; reflexivity | split; reflexivity].
  - destruct (IH _ _ Hr) as (t & Ht & Hev). exists t. split; [right; exact Ht | exact Hev].
Qed.

Lemma above_prefix minEv l :
  List.Forall (fun t => evRatio t <> NaN /\ evRatio t <> NegInf) l ->
  StronglySorted keeps l ->
  forall k, exists n,
    getTilesAboveThreshold (assignRanks k l) minEv = firstn n (assignRanks k l).
Proof.
  intros Hgood Hsorted. induction Hsorted as [| x l Hsorted IH Hx]; intros k.
  - exists 0%nat. reflexivity.
  - inversion Hgood as [| ? ? [Hxn Hxi] Hgood']; subst.
    cbn [assignRanks getTilesAboveThreshold List.filter TilePreFin.evRatio].
    destruct (Js.leb minEv (evRatio x)) eqn:Hle.
    + destruct (IH Hgood' (k + 1)) as [n Hn]. exists (S n).
      unfold getTilesAboveThreshold in Hn. rewrite Hn. reflexivity.
    + exists 0%nat. apply filter_none. apply List.Forall_forall. intros r Hr.
      destruct (assignRanks_evRatio _ _ _ Hr) as (t & Ht & Hev & _). rewrite Hev.
      destruct (Js.leb minEv (evRatio t)) eqn:Hlet; [| reflexivity].
      pose proof (proj1 (List.Forall_forall _ _) Hx t Ht) as Hkeeps.
      destruct (proj1 (List.Forall_forall _ _) Hgood' t Ht) as [Htn _].
      assert (Hbefore : before (evRatio x) (maxProfitable x) (evRatio t) (maxProfitable t)).
      { apply keeps_before; [| | exact Hkeeps]; unfold isNumber.
        - destruct (evRatio x); try reflexivity; congruence.
        - destruct (evRatio t); try reflexivity; congruence. }
      rewrite (leb_before minEv _ _ _ _ Hxn Hxi Htn Hbefore Hlet) in Hle. discriminate.
Qed.

(** X13. On a ranking, getTilesAboveThreshold cuts a front part off: when no
    EV ratio is NaN or -Infinity, the tiles whose ratio is at least the
    threshold are the first n tiles of the ranking, for some n. *)
Theorem getTilesAboveThreshold_prefix (tiles : list TileEvResult) (minEv : Js.JsNum) :
  List.Forall (fun t => evRatio t <> NaN /\ evRatio t <> NegInf) tiles ->
  exists n,
    getTilesAboveThreshold (rankTilesByEv tiles) minEv = firstn n (rankTilesByEv tiles).
Proof.
  intros Hgood. unfold rankTilesByEv. apply above_prefix.
  - apply (Permutation_Forall (sortBy_perm compareTiles tiles)). exact Hgood.
  - apply sortBy_sorted. apply List.Forall_forall. intros t Ht.
    destruct (proj1 (List.Forall_forall _ _) Hgood t Ht) as [Hn _].
    unfold isNumber. destruct (evRatio t); try reflexivity; congruence.
Qed.

End RankingFacts.


(** ** Boards, triggers and their order *)

Module TriggerFacts.
Import BoardDecoder BoardWatcher WatcherSpec WatcherFacts TriggerSpec Spec.

(** X14. processAccountInfo drops account data that does not decode: data
    shorter than 32 bytes leaves the state of the watcher as it is and fires
    no event.  Longer data is processed as the board of its three u64
    fields, which becomes the current board. *)
Theorem processAccountInfo_decodes
    (cfg : Config) (data : list byte) (currentSlot : Z) (s : State) :
  ((length data < 32)%nat -> processAccountInfo cfg data currentSlot s = (s, []))
  /\ ((32 <= length data)%nat ->
      let board := {| roundId := littleEndian (chunk 8 8 data);
                      startSlot := littleEndian (chunk 16 8 data);
                      endSlot := littleEndian (chunk 24 8 data) |} in
      processAccountInfo cfg data currentSlot s = processBoard cfg board currentSlot s
      /\ getCurrentBoard (fst (processAccountInfo cfg data currentSlot s)) = Some board).
Proof.
  unfold processAccountInfo. split.
  - intros Hshort. rewrite AccountFacts.decodeBoardAccount_short by exact Hshort. reflexivity.
  - intros Hlong. rewrite AccountFacts.decodeBoardAccount_long by exact Hlong.
    split; [reflexivity |]. unfold getCurrentBoard.
    apply (processBoard_ev cfg _ currentSlot s).
Qed.

Lemma postFinCount_app r e1 e2 :
  postFinCount r (e1 ++ e2) = (postFinCount r e1 + postFinCount r e2)%nat.
Proof. unfold postFinCount. rewrite List.filter_app, length_app. reflexivity. Qed.

Lemma processBoard_postFin cfg board currentSlot s r :
  postFinCount r (snd (processBoard cfg board currentSlot s))
  = match lastBoard s with
    | Some previous =>
        if (roundId previous <? roundId board) && (roundId previous =? r) then 1%nat else 0%nat
    | None => 0%nat
    end.
Proof.
  unfold processBoard, checkPostFin, checkPricesFetch, checkEvSnapshot, postFinCount.
  destruct (lastBoard s) as [previous |]; [destruct (roundId previous <? roundId board) |];
    destruct (isRoundActive board); simpl;
    repeat match goal with
      | |- context [if ?c then _ else _] => destruct c eqn:?; simpl
      end; try reflexivity; try congruence.
Qed.

Lemma processBoard_lastBoard cfg board currentSlot s :
  lastBoard (fst (processBoard cfg board currentSlot s)) = Some board.
Proof. apply (processBoard_ev cfg board currentSlot s). Qed.

Lemma processBoard_postFin_order cfg board currentSlot s previous newBoard :
  In (OnPostFinTrigger previous newBoard) (snd (processBoard cfg board currentSlot s)) ->
  previous < roundId newBoard.
Proof.
  unfold processBoard, checkPostFin, checkPricesFetch, checkEvSnapshot.
  destruct (lastBoard s) as [p |];
    [destruct (Z.ltb_spec (roundId p) (roundId board)) as [Hlt | Hge] |];
    destruct (isRoundActive board); simpl;
    repeat match goal with
      | |- context [if ?c then _ else _] => destruct c eqn:?; simpl
      end;
    intros Hin; repeat (destruct Hin as [Hin | Hin]; try discriminate Hin);
    try (injection Hin as <- <-; assumption); try contradiction.
Qed.

Lemma postFin_order cfg updates : forall s previous newBoard,
  In (OnPostFinTrigger previous newBoard) (snd (processAll cfg updates s)) ->
  previous < roundId newBoard.
Proof.
  induction updates as [| [board currentSlot] rest IH]; intros s previous newBoard Hin.
  - destruct Hin.
  - rewrite processAll_cons in Hin. cbn [snd] in Hin. apply in_app_or in Hin.
    destruct Hin as [Hin | Hin].
    + eapply processBoard_postFin_order, Hin.
    + eapply IH, Hin.
Qed.

(** No post-fin trigger for [r] among boards whose round ids stay at or
    below [r], whatever the state. *)
Lemma postFin_none_below cfg r updates : forall s,
  roundIdsAtMost r updates -> postFinCount r (snd (processAll cfg updates s)) = 0%nat.
Proof.
  induction updates as [| [board currentSlot] rest IH]; intros s Hall.
  - reflexivity.
  - inversion Hall as [| ? ? Hhead Hrest]; subst. cbn [fst] in Hhead.
    rewrite processAll_cons. cbn [snd]. rewrite postFinCount_app, processBoard_postFin.
    rewrite (IH _ Hrest).
    destruct (lastBoard s) as [previous |]; [| reflexivity].
    destruct (Z.ltb_spec (roundId previous) (roundId board)); [| reflexivity].
    destruct (Z.eqb_spec (roundId previous) r); [lia | reflexivity].
Qed.

(** No post-fin trigger for [r] once a later round has been seen. *)
Lemma postFin_none_after cfg r updates : forall s b,
  lastBoard s = Some b -> r < roundId b ->
  neverDecreaseFrom (Some (roundId b)) updates ->
  postFinCount r (snd (processAll cfg updates s)) = 0%nat.
Proof.
  induction updates as [| [board currentSlot] rest IH]; intros s b Hlast Hlt Hmono.
  - reflexivity.
  - destruct Hmono as [Hle Hrest].
    rewrite processAll_cons. cbn [snd]. rewrite postFinCount_app, processBoard_postFin, Hlast.
    rewrite (IH _ board (processBoard_lastBoard _ _ _ _)); [| lia | exact Hrest].
    destruct (Z.eqb_spec (roundId b) r); [lia |]. rewrite andb_false_r. reflexivity.
Qed.

Lemma postFin_at_most_once cfg r updates : forall s,
  neverDecreaseFrom (lastRoundId s) updates ->
  (postFinCount r (snd (processAll cfg updates s)) <= 1)%nat.
Proof.
  induction updates as [| [board currentSlot] rest IH]; intros s Hmono.
  - cbn. lia.
  - destruct Hmono as [Hle Hrest].
    rewrite processAll_cons. cbn [snd]. rewrite postFinCount_app, processBoard_postFin.
    pose proof (processBoard_lastBoard cfg board currentSlot s) as Hlast'.
    destruct (lastBoard s) as [previous |] eqn:Hlast.
    + destruct (Z.ltb_spec (roundId previous) (roundId board)) as [Hlt | Hge];
        [destruct (Z.eqb_spec (roundId previous) r) as [Heq | Hne] |]; cbn [andb].
      * rewrite (postFin_none_after cfg r rest _ board Hlast'); [lia | lia | exact Hrest].
      * apply IH. unfold lastRoundId. rewrite Hlast'. exact Hrest.
      * apply IH. unfold lastRoundId. rewrite Hlast'. exact Hrest.
    + apply IH. unfold lastRoundId. rewrite Hlast'. exact Hrest.
Qed.

Lemma postFin_exactly_once cfg r updates : forall s b,
  lastBoard s = Some b -> roundId b = r ->
  neverDecreaseFrom (Some r) updates ->
  (exists board currentSlot, In (board, currentSlot) updates /\ r < roundId board) ->
  postFinCount r (snd (processAll cfg updates s)) = 1%nat.
Proof.
  induction updates as [| [board currentSlot] rest IH]; intros s b Hlast Hb Hmono Hlater.
  - destruct Hlater as (? & ? & [] & _).
  - destruct Hmono as [Hle Hrest].
    rewrite processAll_cons. cbn [snd]. rewrite postFinCount_app, processBoard_postFin, Hlast.
    pose proof (processBoard_lastBoard cfg board currentSlot s) as Hlast'.
    rewrite Hb, Z.eqb_refl, andb_true_r.
    destruct (Z.ltb_spec r (roundId board)) as [Hlt | Hge].
    + rewrite (postFin_none_after cfg r rest _ board Hlast'); [lia | lia | exact Hrest].
    + assert (Heq : roundId board = r) by lia.
      rewrite (IH _ board Hlast' Heq); [lia | rewrite <- Heq; exact Hrest |].
      destruct Hlater as (b' & c' & [Hhead | Htail] & Hlt).
      * injection Hhead as <- <-. lia.
      * exists b', c'. auto.
Qed.

Lemma processAll_app cfg l1 l2 : forall s,
  processAll cfg (l1 ++ l2) s
  = (fst (processAll cfg l2 (fst (processAll cfg l1 s))),
     snd (processAll cfg l1 s) ++ snd (processAll cfg l2 (fst (processAll cfg l1 s)))).
Proof.
  induction l1 as [| [board currentSlot] l1 IH]; intros s.
  - cbn [app processAll fst snd]. destruct (processAll cfg l2 s). reflexivity.
  - cbn [app]. rewrite !processAll_cons, IH. cbn [fst snd]. rewrite app_assoc. reflexivity.
Qed.

Lemma neverDecrease_bound p updates :
  neverDecreaseFrom (Some p) updates ->
  List.Forall (fun update => p <= roundId (fst update)) updates.
Proof.
  revert p. induction updates as [| [board currentSlot] rest IH]; intros p Hmono.
  - constructor.
  - destruct Hmono as [Hle Hrest]. constructor; [exact Hle |].
    apply IH in Hrest. eapply List.Forall_impl; [| exact Hrest].
    cbn. intros update H. lia.
Qed.

Lemma neverDecrease_prefix l1 board currentSlot rest : forall previous,
  neverDecreaseFrom previous (l1 ++ (board, currentSlot) :: rest) ->
  roundIdsAtMost (roundId board) (l1 ++ [(board, currentSlot)])
  /\ neverDecreaseFrom (Some (roundId board)) rest.
Proof.
  induction l1 as [| [b c] l1 IH]; intros previous Hmono.
  - destruct Hmono as [_ Hrest]. split; [| exact Hrest].
    constructor; [cbn; lia | constructor].
  - destruct Hmono as [_ Hrest]. cbn [app] in Hrest.
    destruct (IH _ Hrest) as [Hmost Hafter]. split; [| exact Hafter].
    constructor; [| exact Hmost]. cbn [fst].
    apply neverDecrease_bound in Hrest.
    apply (proj1 (List.Forall_forall _ _) Hrest (board, currentSlot)).
    apply in_or_app. right. left. reflexivity.
Qed.

Lemma processAll_last cfg l board currentSlot s :
  lastBoard (fst (processAll cfg (l ++ [(board, currentSlot)]) s)) = Some board.
Proof.
  rewrite processAll_app. cbn [fst]. rewrite processAll_cons. cbn [fst processAll].
  apply processBoard_lastBoard.
Qed.

(** X15. For boards whose round ids never decrease, processed from the
    initial state, onPostFinTrigger fires at most once for a round id; it
    fires exactly once for a round that is followed by a board of a later
    round; and whatever the order of the boards, the round it names is
    earlier than the round of the board it hands over. *)
Theorem postFin_once_per_round (cfg : Config) (updates : list (BoardAccount * Z)) (r : Z) :
  let events := snd (processAll cfg updates initial) in
  (forall previous newBoard,
      In (OnPostFinTrigger previous newBoard) events -> previous < roundId newBoard)
  /\ (roundIdsNeverDecrease updates ->
      (postFinCount r events <= 1)%nat
      /\ forall before board currentSlot after,
           updates = (before ++ (board, currentSlot) :: after)%list ->
           roundId board = r ->
           (exists later laterSlot, In (later, laterSlot) after /\ r < roundId later) ->
           postFinCount r events = 1%nat).
Proof.
  intros events. subst events. split; [apply postFin_order |].
  intros Hmono. split; [apply postFin_at_most_once; exact Hmono |].
  intros l1 board currentSlot rest -> Hr Hlater.
  destruct (neverDecrease_prefix l1 board currentSlot rest None Hmono) as [Hmost Hafter].
  replace (l1 ++ (board, currentSlot) :: rest)%list
    with ((l1 ++ [(board, currentSlot)]) ++ rest)%list
    by (rewrite <- app_assoc; reflexivity).
  rewrite processAll_app. cbn [snd]. rewrite postFinCount_app.
  rewrite Hr in Hmost, Hafter.
  rewrite (postFin_none_below cfg r _ initial Hmost).
  apply (postFin_exactly_once cfg r rest _ board);
    [apply processAll_last | exact Hr | exact Hafter | exact Hlater].
Qed.

(** *** Phase 1 before phase 2 *)

Lemma pricesComeFirst_app e1 : forall seen e2,
  pricesComeFirst seen (e1 ++ e2)
  = pricesComeFirst seen e1 && pricesComeFirst (seenAfter seen e1) e2.
Proof.
  induction e1 as [| e e1 IH]; intros seen e2; [reflexivity |].
  destruct e; cbn [app pricesComeFirst seenAfter]; rewrite IH; try reflexivity.
  rewrite andb_assoc. reflexivity.
Qed.

Lemma seenAfter_app e1 : forall seen e2,
  seenAfter seen (e1 ++ e2) = seenAfter (seenAfter seen e1) e2.
Proof.
  induction e1 as [| e e1 IH]; intros seen e2; [reflexivity |].
  destruct e; cbn [app seenAfter]; apply IH.
Qed.

Lemma existsb_In r seen : In r seen -> existsb (Z.eqb r) seen = true.
Proof. intros H. apply existsb_exists. exists r. split; [exact H | apply Z.eqb_refl]. Qed.

(** A step of the watcher keeps the order of the phases, and the rounds for
    which phase 1 has fired include the round of the fired flag. *)
Lemma processBoard_pricesComeFirst cfg board currentSlot s seen :
  evSnapshotSlots cfg <= preFinThresholdSlots cfg ->
  (forall r, pricesFetchTriggeredForRound s = Some r -> In r seen) ->
  pricesComeFirst seen (snd (processBoard cfg board currentSlot s)) = true
  /\ forall r,
       pricesFetchTriggeredForRound (fst (processBoard cfg board currentSlot s)) = Some r ->
       In r (seenAfter seen (snd (processBoard cfg board currentSlot s))).
Proof.
  intros Hcfg Hseen.
  unfold processBoard, checkPostFin, checkPricesFetch, checkEvSnapshot, differs.
  destruct (lastBoard s) as [previous |]; [destruct (roundId previous <? roundId board) |];
    destruct (isRoundActive board);
    cbn [fst snd pricesFetchTriggeredForRound evSnapshotTriggeredForRound lastBoard];
    repeat match goal with
      | |- context [if ?c then _ else _] => destruct c eqn:?
      end;
    cbn [fst snd app pricesComeFirst seenAfter pricesFetchTriggeredForRound
         evSnapshotTriggeredForRound lastBoard];
    (split;
     [ try reflexivity
     | intros r Hr; try discriminate Hr;
       try (injection Hr as <-; left; reflexivity);
       try (right; apply Hseen; exact Hr); try (apply Hseen; exact Hr) ]).
  all: rewrite ?andb_true_r.
  all: try (cbn [existsb]; rewrite Z.eqb_refl; reflexivity).
  all: apply existsb_In.
  all: repeat match goal with
         | H : (_ && _) = true |- _ => apply andb_true_iff in H; destruct H
         | H : (_ && _) = false |- _ => apply andb_false_iff in H; destruct H
         | H : (_ <=? _) = true |- _ => apply Z.leb_le in H
         | H : (_ <=? _) = false |- _ => apply Z.leb_gt in H
         end; try lia; try discriminate.
  all: match goal with
       | H : match ?flag with Some _ => _ | None => true end = false |- _ =>
           destruct flag as [fired |] eqn:Hflag; [| discriminate H];
           apply negb_false_iff, Z.eqb_eq in H; subst fired
       end.
  all: try (apply Hseen; assumption); try (apply Hseen; reflexivity); try discriminate.
Qed.

Lemma processAll_pricesComeFirst cfg updates :
  evSnapshotSlots cfg <= preFinThresholdSlots cfg ->
  forall s seen,
    (forall r, pricesFetchTriggeredForRound s = Some r -> In r seen) ->
    pricesComeFirst seen (snd (processAll cfg updates s)) = true.
Proof.
  intros Hcfg. induction updates as [| [board currentSlot] rest IH]; intros s seen Hseen.
  - reflexivity.
  - rewrite processAll_cons. cbn [snd]. rewrite pricesComeFirst_app.
    destruct (processBoard_pricesComeFirst cfg board currentSlot s seen Hcfg Hseen)
      as [Hstep Hseen'].
    rewrite Hstep. cbn [andb]. apply IH. exact Hseen'.
Qed.

(** X16. With the EV snapshot threshold at or below the prices fetch
    threshold, phase 2 never comes before phase 1: among the events of any
    boards processed from the initial state, every onEvSnapshotTrigger
    follows an onPricesFetchTrigger of the same round. *)
Theorem prices_before_snapshot (cfg : Config) (updates : list (BoardAccount * Z)) :
  evSnapshotSlots cfg <= preFinThresholdSlots cfg ->
  pricesComeFirst [] (snd (processAll cfg updates initial)) = true.
Proof.
  intros Hcfg. apply processAll_pricesComeFirst; [exact Hcfg |].
  intros r Hr. discriminate Hr.
Qed.

End TriggerFacts.


(** ** The repository *)

Module RepositoryFacts.
Import World Sqlite StoreSpec StoreFacts RepositorySpec.

Lemma stmtDeleteRound_elsewhere roundId db :
  sameElsewhere roundId db (fst (stmtDeleteRound roundId db)).
Proof.
  unfold stmtDeleteRound, sameElsewhere. intros key Hne.
  destruct (rounds db !! Js.Number roundId) as [old |]; cbn [fst rounds tiles];
    [| split; reflexivity].
  split.
  - apply lookup_delete_ne. congruence.
  - intros idx. destruct (tiles db !! (key, idx)) as [row |] eqn:Hrow.
    + apply map_lookup_filter_Some. split; [exact Hrow | exact Hne].
    + apply map_lookup_filter_None. left. exact Hrow.
Qed.

Lemma absent_of_foreignKeys roundId db :
  foreignKeysHold db -> rounds db !! Js.Number roundId = None -> absent roundId db.
Proof.
  intros Hfk Hnone. split; [exact Hnone |]. intros idx.
  destruct (tiles db !! (Js.Number roundId, idx)) as [row |] eqn:Hrow; [| reflexivity].
  destruct (Hfk _ _ _ Hrow) as [parent Hparent]. congruence.
Qed.

Lemma deleteRound_run env roundId w :
  deleteFault env = None ->
  exists w',
    Repository.deleteRound env roundId w
    = (Return (0 <? snd (stmtDeleteRound roundId (db w))), w')
    /\ db w' = fst (stmtDeleteRound roundId (db w))
    /\ outbox w' = outbox w.
Proof.
  intros Hfault. unfold Repository.deleteRound. rewrite Hfault.
  unfold bind, called, log, ret, setDb.
  cbn [db outbox calls logs clockReads].
  destruct (stmtDeleteRound roundId (db w)) as [d changes]. cbn [fst snd].
  destruct (0 <? changes); eexists; split; try reflexivity; split; reflexivity.
Qed.

Lemma deleteRound_locked env roundId w e :
  deleteFault env = Some e ->
  exists w',
    Repository.deleteRound env roundId w = (Throw e, w')
    /\ db w' = db w
    /\ outbox w' = outbox w.
Proof.
  intros Hfault. unfold Repository.deleteRound. rewrite Hfault.
  unfold bind, called, throw. eexists. split; [reflexivity |]. split; reflexivity.
Qed.

(** X17. deleteRound, the engine not failing, returns true exactly when the
    round has a row.  Afterwards the round has no round row and, the foreign
    key holding, no tile row; the rows of every other round are as they
    were; nothing is notified; and a second deleteRound finds nothing and
    returns false.  When the engine fails, deleteRound throws its error and
    changes nothing. *)
Theorem deleteRound_removes (env : Env) (roundId : Z) (w : World.t) :
  foreignKeysHold (db w) ->
  (deleteFault env = None ->
   exists deleted w',
     Repository.deleteRound env roundId w = (Return deleted, w')
     /\ (deleted = true <-> present roundId (db w))
     /\ absent roundId (db w')
     /\ sameElsewhere roundId (db w) (db w')
     /\ outbox w' = outbox w
     /\ fst (Repository.deleteRound env roundId w') = Return false)
  /\ (forall e, deleteFault env = Some e ->
      exists w',
        Repository.deleteRound env roundId w = (Throw e, w')
        /\ db w' = db w
        /\ outbox w' = outbox w).
Proof.
  intros Hfk. split; [| intros e Hfault; apply deleteRound_locked, Hfault].
  intros Hfault.
  destruct (deleteRound_run env roundId w Hfault) as (w' & Hrun & Hdb & Hout).
  exists (0 <? snd (stmtDeleteRound roundId (db w))), w'.
  split; [exact Hrun |].
  assert (Habsent : absent roundId (db w')).
  { rewrite Hdb. destruct (rounds (db w) !! Js.Number roundId) as [row |] eqn:Hrow.
    - apply stmtDeleteRound_present. exists row. exact Hrow.
    - rewrite stmtDeleteRound_absent by exact Hrow. cbn [fst].
      apply absent_of_foreignKeys; assumption. }
  split; [| split; [exact Habsent | split; [| split; [exact Hout |]]]].
  - destruct (rounds (db w) !! Js.Number roundId) as [row |] eqn:Hrow.
    + destruct (stmtDeleteRound_present roundId (db w)) as [-> _]; [exists row; exact Hrow |].
      split; [intros _; exists row; exact Hrow | reflexivity].
    + rewrite stmtDeleteRound_absent by exact Hrow. cbn [snd].
      split; [discriminate | intros [row' Hrow']; unfold present in *; congruence].
  - rewrite Hdb. apply stmtDeleteRound_elsewhere.
  - destruct (deleteRound_run env roundId w' Hfault) as (w'' & Hrun' & _). rewrite Hrun'.
    cbn [fst]. rewrite stmtDeleteRound_absent by apply Habsent. reflexivity.
Qed.

(** *** insertPreFin *)

Lemma stmtInsertRound_Return data db db' :
  stmtInsertRound data db = Return db' ->
  rounds db !! Js.Number (RoundPreFin.roundId data) = None
  /\ tiles db' = tiles db
  /\ (exists row, rounds db' = <[Js.Number (RoundPreFin.roundId data) := row]> (rounds db)
                  /\ ts_post row = None
                  /\ ts_pre row = RoundPreFin.tsPre data
                  /\ total_miners row = Js.Number (RoundPreFin.totalMiners data)
                  /\ total_deployed row = Js.Number (RoundPreFin.totalDeployed data)).
Proof.
  unfold stmtInsertRound.
  destruct (negb (fitsRowid _)); [discriminate |].
  do 4 (destruct (Js.isNaN _); [discriminate |]).
  destruct (rounds db !! Js.Number (RoundPreFin.roundId data)) as [old |] eqn:Hold;
    [discriminate |].
  intros [= <-]. cbn [rounds tiles]. split; [reflexivity |]. split; [reflexivity |].
  eexists. split; [reflexivity |]. cbn. auto.
Qed.

Lemma stmtInsertTile_Return roundId tile db db' :
  stmtInsertTile roundId tile db = Return db' ->
  tiles db !! (Js.Number roundId, TilePreFin.tileIndex tile) = None
  /\ rounds db' = rounds db
  /\ exists minersCount,
       TilePreFin.minersCount tile = Some minersCount
       /\ tiles db'
          = <[(Js.Number roundId, TilePreFin.tileIndex tile) := tileRowOf tile minersCount]>
              (tiles db).
Proof.
  unfold stmtInsertTile.
  destruct (TilePreFin.minersCount tile) as [minersCount |]; [| discriminate].
  destruct (Js.isNaN _); [discriminate |].
  do 2 (destruct (negb _); [discriminate |]).
  destruct (tiles db !! (Js.Number roundId, TilePreFin.tileIndex tile)) eqn:Hold;
    [discriminate |].
  destruct (rounds db !! Js.Number roundId) as [parent |]; [| discriminate].
  intros [= <-]. cbn [rounds tiles]. split; [reflexivity |]. split; [reflexivity |].
  exists minersCount. split; reflexivity.
Qed.

(** The tile inserts add their rows and change no other row. *)
Lemma insertTiles_Return roundId tiles0 : forall db db',
  runAll (map (stmtInsertTile roundId) tiles0) db = Return db' ->
  rounds db' = rounds db
  /\ (forall key row, tiles db !! key = Some row -> tiles db' !! key = Some row)
  /\ (forall tile, In tile tiles0 -> tileStored roundId tile db')
  /\ (forall key, fst key <> Js.Number roundId -> tiles db' !! key = tiles db !! key).
Proof.
  induction tiles0 as [| tile rest IH]; intros db db'; cbn [map runAll].
  - intros [= <-]. repeat split; auto. intros tile [].
  - destruct (stmtInsertTile roundId tile db) as [db1 |] eqn:Hstep; [| discriminate].
    intros Hrest.
    destruct (stmtInsertTile_Return _ _ _ _ Hstep) as (Hnew & Hrounds & count & Hcount & Htiles).
    destruct (IH _ _ Hrest) as (Hrounds' & Hkept & Hstored & Helse).
    split; [congruence |]. split; [| split].
    + intros key row Hrow. apply Hkept. rewrite Htiles.
      rewrite lookup_insert_ne by (intros <-; congruence). exact Hrow.
    + intros t [<- | Hin]; [| apply Hstored, Hin].
      exists count. split; [exact Hcount |]. apply Hkept. rewrite Htiles.
      apply lookup_insert_eq.
    + intros key Hkey. rewrite (Helse key Hkey), Htiles.
      apply lookup_insert_ne. intros <-. apply Hkey. reflexivity.
Qed.

Lemma insertPreFinBody_Return data db db' :
  insertPreFinBody data db = Return db' ->
  rounds db !! Js.Number (RoundPreFin.roundId data) = None
  /\ pending (Js.Number (RoundPreFin.roundId data)) db'
  /\ (forall tile, In tile (RoundPreFin.tiles data) ->
        tileStored (RoundPreFin.roundId data) tile db')
  /\ sameElsewhere (RoundPreFin.roundId data) db db'.
Proof.
  unfold insertPreFinBody. cbn [runAll].
  destruct (stmtInsertRound data db) as [db1 |] eqn:Hround; [| discriminate].
  intros Htiles.
  destruct (stmtInsertRound_Return _ _ _ Hround) as (Hnew & Hsame & row & Hrounds & Hpost & _).
  destruct (insertTiles_Return _ _ _ _ Htiles) as (Hrounds' & Hkept & Hstored & Helse).
  split; [exact Hnew |]. split; [| split; [exact Hstored |]].
  - exists row. rewrite Hrounds', Hrounds. split; [apply lookup_insert_eq | exact Hpost].
  - intros key Hkey. split.
    + rewrite Hrounds', Hrounds. apply lookup_insert_ne. congruence.
    + intros idx. rewrite (Helse (key, idx)) by exact Hkey. rewrite Hsame. reflexivity.
Qed.

Lemma insertPreFin_run env data w :
  exists w',
    Repository.insertPreFin env data w
    = (match fst (transaction (insertFault env) (insertPreFinBody data) (db w)) with
       | Return _ => Return tt
       | Throw e => Throw e
       end, w')
    /\ db w' = snd (transaction (insertFault env) (insertPreFinBody data) (db w))
    /\ outbox w' = outbox w.
Proof.
  unfold Repository.insertPreFin, bind, called, log, setDb.
  cbn [db outbox calls logs clockReads].
  destruct (transaction (insertFault env) (insertPreFinBody data) (db w)) as [[d' | e] d];
    cbn [fst snd]; eexists; split; try reflexivity; split; reflexivity.
Qed.

(** The INSERT of a round that has a row fails, on the first constraint
    the engine tests. *)
Lemma stmtInsertRound_present data db :
  present (RoundPreFin.roundId data) db ->
  exists e,
    stmtInsertRound data db = Throw e
    /\ (fitsRowid (Js.Number (RoundPreFin.roundId data)) = true ->
        Js.isNaN (PriceQuote.oreSol (RoundPreFin.price data)) = false ->
        Js.isNaN (PriceQuote.solUsd (RoundPreFin.price data)) = false ->
        Js.isNaN (PriceQuote.oreUsd (RoundPreFin.price data)) = false ->
        Js.isNaN (RoundPreFin.miningCostPct data) = false ->
        e = "UNIQUE constraint failed: rounds.round_id"%string)
    /\ (fitsRowid (Js.Number (RoundPreFin.roundId data)) = true ->
        Js.isNaN (PriceQuote.oreSol (RoundPreFin.price data)) = true ->
        e = "NOT NULL constraint failed: rounds.price_ore_sol"%string).
Proof.
  intros [row Hrow]. unfold stmtInsertRound. rewrite Hrow.
  destruct (fitsRowid _); cbn [negb];
    [| eexists; split; [reflexivity | split; intros; discriminate]].
  destruct (Js.isNaN (PriceQuote.oreSol _));
    [eexists; split; [reflexivity | split; intros; [discriminate | reflexivity]] |].
  destruct (Js.isNaN (PriceQuote.solUsd _));
    [eexists; split; [reflexivity | split; intros; discriminate] |].
  destruct (Js.isNaN (PriceQuote.oreUsd _));
    [eexists; split; [reflexivity | split; intros; discriminate] |].
  destruct (Js.isNaN (RoundPreFin.miningCostPct _));
    [eexists; split; [reflexivity | split; intros; discriminate] |].
  eexists. split; [reflexivity |]. split; intros; [reflexivity | discriminate].
Qed.

(** X18. insertPreFin on a round that has a row throws and stores nothing:
    the transaction is rolled back.  The engine not failing, the round id
    fitting the key and no price or cost being NaN, the error is the UNIQUE
    constraint on rounds.round_id; with a NaN ORE price it is the NOT NULL
    constraint on rounds.price_ore_sol, which the engine tests first. *)
Theorem insertPreFin_existing (env : Env) (data : RoundPreFin.t) (w : World.t) :
  present (RoundPreFin.roundId data) (db w) ->
  exists e w',
    Repository.insertPreFin env data w = (Throw e, w')
    /\ db w' = db w
    /\ outbox w' = outbox w
    /\ (insertFault env = None ->
        fitsRowid (Js.Number (RoundPreFin.roundId data)) = true ->
        Js.isNaN (PriceQuote.oreSol (RoundPreFin.price data)) = false ->
        Js.isNaN (PriceQuote.solUsd (RoundPreFin.price data)) = false ->
        Js.isNaN (PriceQuote.oreUsd (RoundPreFin.price data)) = false ->
        Js.isNaN (RoundPreFin.miningCostPct data) = false ->
        e = "UNIQUE constraint failed: rounds.round_id"%string)
    /\ (insertFault env = None ->
        fitsRowid (Js.Number (RoundPreFin.roundId data)) = true ->
        Js.isNaN (PriceQuote.oreSol (RoundPreFin.price data)) = true ->
        e = "NOT NULL constraint failed: rounds.price_ore_sol"%string).
Proof.
  intros Hp.
  destruct (insertPreFin_run env data w) as (w' & Hrun & Hdb & Hout).
  destruct (stmtInsertRound_present data (db w) Hp) as (e & Hround & Hunique & Hnull).
  assert (Hbody : insertPreFinBody data (db w) = Throw e).
  { unfold insertPreFinBody. cbn [runAll]. rewrite Hround. reflexivity. }
  unfold transaction in Hrun, Hdb. rewrite Hbody in Hrun, Hdb.
  destruct (insertFault env) as [fault |]; cbn [fst snd] in Hrun, Hdb.
  - exists fault, w'. repeat split; try assumption; discriminate.
  - exists e, w'. repeat split; try assumption; intros _; assumption.
Qed.

(** X19. What insertPreFin has stored when it returns: the round was new;
    it now exists, waits for its completion, and every tile of the data has
    its row under the round id and its tile index with the values of the
    tile; the rows of every other round are as they were. *)
Theorem insertPreFin_stored (env : Env) (data : RoundPreFin.t) (w w' : World.t) :
  Repository.insertPreFin env data w = (Return tt, w') ->
  ~ present (RoundPreFin.roundId data) (db w)
  /\ fst (Repository.exists_ (RoundPreFin.roundId data) w') = Return true
  /\ pending (Js.Number (RoundPreFin.roundId data)) (db w')
  /\ (forall tile, In tile (RoundPreFin.tiles data) ->
        tileStored (RoundPreFin.roundId data) tile (db w'))
  /\ sameElsewhere (RoundPreFin.roundId data) (db w) (db w')
  /\ outbox w' = outbox w.
Proof.
  intros Hrun.
  destruct (insertPreFin_run env data w) as (w1 & Hrun1 & Hdb & Hout).
  rewrite Hrun in Hrun1. injection Hrun1 as Hres <-.
  unfold transaction in Hres, Hdb.
  destruct (insertFault env) as [fault |]; [discriminate Hres |].
  destruct (insertPreFinBody data (db w)) as [db' |] eqn:Hbody; [| discriminate Hres].
  cbn [snd] in Hdb.
  destruct (insertPreFinBody_Return _ _ _ Hbody) as (Hnew & Hpending & Hstored & Helse).
  rewrite Hdb. split; [| split; [| split; [exact Hpending | split; [exact Hstored |]]]].
  - intros [row Hrow]. congruence.
  - unfold Repository.exists_, bind, called. cbn [fst db].
    unfold stmtExistsRound. cbn [db]. rewrite Hdb.
    destruct Hpending as (row & -> & _). reflexivity.
  - split; [exact Helse | exact Hout].
Qed.

(** *** completePostFin *)

Lemma updateTiles_missing roundId tiles0 db :
  (forall idx, tiles db !! (Js.Number roundId, idx) = None) ->
  runAll (map (stmtUpdateTilePostFin roundId) tiles0) db = Return db.
Proof.
  intros Hnone. induction tiles0 as [| tile rest IH]; cbn [map runAll]; [reflexivity |].
  unfold stmtUpdateTilePostFin at 1. rewrite Hnone. exact IH.
Qed.

Lemma completePostFin_run env data w :
  exists w',
    Repository.completePostFin env data w
    = (match fst (transaction (completeFault env) (completePostFinBody data) (db w)) with
       | Return _ => Return tt
       | Throw e => Throw e
       end, w')
    /\ db w' = snd (transaction (completeFault env) (completePostFinBody data) (db w))
    /\ outbox w' = outbox w.
Proof.
  unfold Repository.completePostFin, bind, called, log, setDb.
  cbn [db outbox calls logs clockReads].
  destruct (transaction (completeFault env) (completePostFinBody data) (db w)) as [[d' | e] d];
    cbn [fst snd]; eexists; split; try reflexivity; split; reflexivity.
Qed.

(** X20. completePostFin of the repository on a round that has no row does
    not throw and changes nothing: its UPDATE statements match no row.  (The
    interface announces an exception for this case; the SQLite repository
    raises none.) *)
Theorem completePostFin_missing (env : Env) (data : RoundPostFin.t) (w : World.t) :
  foreignKeysHold (db w) ->
  ~ present (RoundPostFin.roundId data) (db w) ->
  completeFault env = None ->
  exists w',
    Repository.completePostFin env data w = (Return tt, w')
    /\ db w' = db w
    /\ outbox w' = outbox w.
Proof.
  intros Hfk Hnew Hfault.
  destruct (completePostFin_run env data w) as (w' & Hrun & Hdb & Hout).
  assert (Hnone : rounds (db w) !! Js.Number (RoundPostFin.roundId data) = None).
  { destruct (rounds (db w) !! _) as [row |] eqn:Hrow; [| reflexivity].
    exfalso. apply Hnew. exists row. exact Hrow. }
  assert (Hbody : completePostFinBody data (db w) = Return (db w)).
  { unfold completePostFinBody. cbn [runAll]. unfold stmtUpdateRoundPostFin. rewrite Hnone.
    apply updateTiles_missing. apply (absent_of_foreignKeys _ _ Hfk Hnone). }
  unfold transaction in Hrun, Hdb. rewrite Hfault, Hbody in Hrun, Hdb. cbn [fst snd] in Hrun, Hdb.
  exists w'. auto.
Qed.

(** *** The queries *)

Lemma getPendingRoundIds_run w :
  Repository.getPendingRoundIds w
  = (Return
       (merge_sort Z.le
          (map fst
             (map_to_list
                (filter (fun entry => ts_post (snd entry) = None) (rounds (db w)))))),
     w).
Proof. reflexivity. Qed.

Lemma pending_keys (db : Db) key :
  In key (map fst (map_to_list (filter (fun entry => ts_post (snd entry) = None) (rounds db))))
  <-> pending key db.
Proof.
  rewrite in_map_iff. unfold pending. split.
  - intros ([k row] & <- & Hin). apply list_elem_of_In, elem_of_map_to_list in Hin.
    apply map_lookup_filter_Some in Hin. destruct Hin as [Hrow Hpost]. exists row. auto.
  - intros (row & Hrow & Hpost). exists (key, row). split; [reflexivity |].
    apply list_elem_of_In, elem_of_map_to_list. apply map_lookup_filter_Some. auto.
Qed.

(** X21. getPendingRoundIds returns the ids of exactly the round rows whose
    ts_post is NULL, each once, in ascending order, and changes nothing. *)
Theorem getPendingRoundIds_pending (w : World.t) :
  exists ids,
    Repository.getPendingRoundIds w = (Return ids, w)
    /\ (forall key, In key ids <-> pending key (db w))
    /\ List.NoDup ids
    /\ Sorted Z.le ids.
Proof.
  eexists. split; [apply getPendingRoundIds_run |].
  set (keys := map fst (map_to_list
                          (filter (fun entry => ts_post (snd entry) = None) (rounds (db w))))).
  assert (Hperm : Permutation (merge_sort Z.le keys) keys) by apply merge_sort_Permutation.
  split; [| split].
  - intros key. rewrite <- (pending_keys (db w) key). fold keys.
    split; intros H; eapply Permutation_in; try exact H; [exact Hperm | symmetry; exact Hperm].
  - apply (Permutation_NoDup (Permutation_sym Hperm)). apply NoDup_ListNoDup.
    apply NoDup_fst_map_to_list.
  - apply Sorted_merge_sort. intros x y. lia.
Qed.

Lemma latest_of_keys (keys : list Z) :
  let latest :=
    fold_right
      (fun key latest =>
         match latest with
         | Some other => Some (Z.max key other)
         | None => Some key
         end) None keys in
  (latest = None <-> keys = [])
  /\ forall m, latest = Some m -> In m keys /\ forall key, In key keys -> key <= m.
Proof.
  induction keys as [| k keys IH]; cbn [fold_right].
  - split; [tauto |]. intros m H. discriminate H.
  - destruct IH as [Hnone Hsome].
    destruct (fold_right _ None keys) as [other |] eqn:Hfold.
    + split; [split; discriminate |]. intros m [= <-].
      destruct (Hsome other eq_refl) as [Hin Hmax]. split.
      * destruct (Z.max_spec k other) as [[_ ->] | [_ ->]]; [right; exact Hin | left; reflexivity].
      * intros key [<- | Hkey]; [lia |]. specialize (Hmax key Hkey). lia.
    + split; [split; discriminate |]. intros m [= <-].
      assert (keys = []) as -> by (apply Hnone; reflexivity).
      split; [left; reflexivity |]. intros key [<- | []]. lia.
Qed.

(** X22. getLatestRoundId returns null exactly when the table of rounds is
    empty; otherwise it returns the id of a round row that no other round
    row exceeds; it changes nothing. *)
Theorem getLatestRoundId_latest (w : World.t) :
  exists latest,
    Repository.getLatestRoundId w = (Return latest, w)
    /\ (latest = None <-> rounds (db w) = ∅)
    /\ forall m, latest = Some m ->
         is_Some (rounds (db w) !! m)
         /\ forall key, is_Some (rounds (db w) !! key) -> key <= m.
Proof.
  eexists. split; [reflexivity |].
  destruct (latest_of_keys (map fst (map_to_list (rounds (db w))))) as [Hnone Hsome].
  assert (Hkeys : forall key, In key (map fst (map_to_list (rounds (db w))))
                              <-> is_Some (rounds (db w) !! key)).
  { intros key. rewrite in_map_iff. split.
    - intros ([k row] & <- & Hin). apply list_elem_of_In, elem_of_map_to_list in Hin.
      exists row. exact Hin.
    - intros [row Hrow]. exists (key, row). split; [reflexivity |].
      apply list_elem_of_In, elem_of_map_to_list. exact Hrow. }
  split.
  - rewrite Hnone. split.
    + intros Hnil. apply map_eq_nil in Hnil. apply map_to_list_empty_iff. exact Hnil.
    + intros ->. rewrite map_to_list_empty. reflexivity.
  - intros m Hm. destruct (Hsome m Hm) as [Hin Hmax]. split; [apply Hkeys, Hin |].
    intros key Hkey. apply Hmax, Hkeys, Hkey.
Qed.

End RepositoryFacts.


(** ** The use cases: handled failures and completions *)

Module UseCaseFacts.
Import World Sqlite StoreSpec StoreFacts RepositorySpec RepositoryFacts PostFinSpec PostFinFacts.
Import CompletePostFin.

Lemma nth_error_is_Some {A} (l : list A) (i : nat) :
  nth_error l i <> None -> is_Some (nth_error l i).
Proof. destruct (nth_error l i); [eauto | congruence]. Qed.

Lemma sameElsewhere_refl roundId db : sameElsewhere roundId db db.
Proof. intros key _. split; reflexivity. Qed.

Lemma sameElsewhere_trans roundId db1 db2 db3 :
  sameElsewhere roundId db1 db2 -> sameElsewhere roundId db2 db3 ->
  sameElsewhere roundId db1 db3.
Proof.
  intros H12 H23 key Hne. destruct (H12 key Hne) as [Hr Ht], (H23 key Hne) as [Hr' Ht'].
  split; [congruence |]. intros idx. rewrite Ht', Ht. reflexivity.
Qed.

Lemma deleteRound_gone env roundId w :
  deleteFault env = None ->
  foreignKeysHold (db w) ->
  exists deleted w',
    Repository.deleteRound env roundId w = (Return deleted, w')
    /\ absent roundId (db w')
    /\ sameElsewhere roundId (db w) (db w')
    /\ outbox w' = outbox w.
Proof.
  intros Hfault Hfk. destruct (deleteRound_run env roundId w Hfault) as (w' & Hrun & Hdb & Hout).
  eexists _, w'. split; [exact Hrun |]. split; [| split; [| exact Hout]].
  - rewrite Hdb. destruct (rounds (db w) !! Js.Number roundId) as [row |] eqn:Hrow.
    + apply stmtDeleteRound_present. exists row. exact Hrow.
    + rewrite stmtDeleteRound_absent by exact Hrow. cbn [fst].
      apply absent_of_foreignKeys; assumption.
  - rewrite Hdb. apply stmtDeleteRound_elsewhere.
Qed.

(** X23. handleCollectionFailure returns without throwing, also when the
    delete of the store throws (the error is caught and logged), and sends
    exactly one notification, with the round id, the reason and the details
    it was given.  For a known round id and a delete that does not fail, the
    round has no row afterwards and the rows of every other round are as they
    were; when the delete fails the database is unchanged.  For an unknown
    (null) round id the repository is not called and the database is
    unchanged. *)
Theorem handleCollectionFailure_handles
    (env : Env) (roundId : option Z) (reason : string) (details : list (string * LogValue))
    (w : World.t) :
  foreignKeysHold (db w) ->
  exists w',
    HandleFailure.handleCollectionFailure env roundId reason details w = (Return tt, w')
    /\ outbox w'
       = (outbox w ++ [{| World.roundId := roundId; reason := reason; details := details |}])%list
    /\ match roundId with
       | Some r =>
           (deleteFault env = None -> absent r (db w') /\ sameElsewhere r (db w) (db w'))
           /\ (forall e, deleteFault env = Some e ->
                 db w' = db w
                 /\ exists line,
                      In line (logs w')
                      /\ level line = LevelError
                      /\ message line = "Failed to delete round from database"%string)
       | None =>
           db w' = db w
           /\ calls w'
              = (calls w ++ [CallNotifyFailure
                               {| World.roundId := None; reason := reason;
                                  details := details |}])%list
       end.
Proof.
  intros Hfk. unfold HandleFailure.handleCollectionFailure.
  destruct roundId as [r |].
  - unfold bind at 1. unfold log at 1. unfold bind at 1. unfold tryCatch at 1.
    unfold bind at 1.
    destruct (deleteFault env) as [e |] eqn:Hfault.
    + match goal with
      | |- context [Repository.deleteRound env r ?w0] =>
          destruct (deleteRound_locked env r w0 e Hfault) as (w1 & Hrun & Hdb & Hout);
          rewrite Hrun
      end.
      cbn [db outbox] in Hdb, Hout.
      unfold log, tryCatch, notifyFailure. eexists. split; [reflexivity |].
      cbn [db outbox logs]. rewrite Hout, Hdb.
      split; [reflexivity |]. split; [discriminate |].
      intros e' _. split; [reflexivity |].
      eexists. split; [apply in_or_app; right; left; reflexivity |]. split; reflexivity.
    + match goal with
      | |- context [Repository.deleteRound env r ?w0] =>
          destruct (deleteRound_gone env r w0 Hfault Hfk)
            as (deleted & w1 & Hrun & Habsent & Helse & Hout);
          rewrite Hrun
      end.
      cbn [db outbox] in Helse, Hout.
      assert (Hlogged : exists w2,
                 (if deleted
                  then log LevelInfo HandleFailure.chan "Deleted failed round from database"
                         [("roundId"%string, VStr (showZ r))]
                  else ret tt) w1 = (Return tt, w2)
                 /\ db w2 = db w1 /\ outbox w2 = outbox w1).
      { destruct deleted; eexists; split; try reflexivity; split; reflexivity. }
      destruct Hlogged as (w2 & -> & Hdb2 & Hout2).
      unfold tryCatch, notifyFailure. eexists. split; [reflexivity |].
      cbn [db outbox]. rewrite Hout2, Hout, Hdb2.
      split; [reflexivity |]. split; [auto | discriminate].
  - unfold bind, log, ret, tryCatch, notifyFailure. eexists. split; [reflexivity |].
    cbn [db outbox calls]. auto.
Qed.

(** *** The completion that succeeds *)

Lemma stmtUpdateTilePostFin_elsewhere roundId tile db db' :
  stmtUpdateTilePostFin roundId tile db = Return db' -> sameElsewhere roundId db db'.
Proof.
  unfold stmtUpdateTilePostFin.
  destruct (tiles db !! (Js.Number roundId, TilePostFin.tileIndex tile)) as [old |].
  - intros [= <-] key Hne. cbn [rounds tiles]. split; [reflexivity |].
    intros idx. apply lookup_insert_ne. congruence.
  - intros [= <-]. apply sameElsewhere_refl.
Qed.

Lemma updateTiles_run roundId tiles0 : forall db,
  exists db',
    runAll (map (stmtUpdateTilePostFin roundId) tiles0) db = Return db'
    /\ rounds db' = rounds db
    /\ sameElsewhere roundId db db'.
Proof.
  induction tiles0 as [| tile rest IH]; intros db; cbn [map runAll].
  - exists db. repeat split.
  - destruct (stmtUpdateTilePostFin roundId tile db) as [db1 | e] eqn:Hstep.
    + destruct (IH db1) as (db' & Hrun & Hrounds & Helse). exists db'.
      split; [exact Hrun |]. split.
      * rewrite Hrounds. eapply stmtUpdateTilePostFin_rounds, Hstep.
      * eapply sameElsewhere_trans; [eapply stmtUpdateTilePostFin_elsewhere, Hstep | exact Helse].
    + unfold stmtUpdateTilePostFin in Hstep. destruct (tiles db !! _); discriminate.
Qed.

Lemma completePostFinBody_run data db :
  present (RoundPostFin.roundId data) db ->
  0 <= RoundPostFin.winningTile data <= 24 ->
  length (RoundPostFin.slotHash data) = 32%nat ->
  exists db' row,
    completePostFinBody data db = Return db'
    /\ rounds db' !! Js.Number (RoundPostFin.roundId data) = Some row
    /\ ts_post row = Some (RoundPostFin.tsPost data)
    /\ winning_tile row = Some (RoundPostFin.winningTile data)
    /\ rng_u64 row = Some (Js.Number (RoundPostFin.rngU64 data))
    /\ (is_Some (RoundPostFin.numWinners data) -> completed row)
    /\ sameElsewhere (RoundPostFin.roundId data) db db'.
Proof.
  intros [old Hold] Htile Hhash. unfold completePostFinBody. cbn [runAll].
  unfold stmtUpdateRoundPostFin. rewrite Hold.
  destruct (Z.leb_spec 0 (RoundPostFin.winningTile data)); [| lia].
  destruct (Z.leb_spec (RoundPostFin.winningTile data) 24); [| lia].
  rewrite Hhash. cbn [andb negb Nat.eqb].
  match goal with
  | |- context [runAll _ ?db1] =>
      destruct (updateTiles_run (RoundPostFin.roundId data) (RoundPostFin.tiles data) db1)
        as (db' & Hrun & Hrounds & Helse)
  end.
  rewrite Hrun. cbn [rounds] in Hrounds.
  eexists db', _. split; [reflexivity |]. rewrite Hrounds, lookup_insert_eq.
  split; [reflexivity |]. cbn.
  split; [reflexivity |]. split; [reflexivity |]. split; [reflexivity |]. split.
  - intros [n Hn]. rewrite Hn. unfold completed. cbn. repeat split; eauto.
  - eapply sameElsewhere_trans; [| exact Helse].
    intros key Hne. cbn [rounds tiles]. split; [| reflexivity].
    apply lookup_insert_ne. congruence.
Qed.

Lemma buildPostFin_run roundId startTime roundState :
  length (RoundDecoder.slotHash roundState) = 32%nat ->
  exists postFin,
    buildPostFin roundId startTime roundState = Return postFin
    /\ RoundPostFin.roundId postFin = roundId
    /\ RoundPostFin.tsPost postFin = startTime
    /\ RoundPostFin.slotHash postFin = RoundDecoder.slotHash roundState
    /\ RoundPostFin.rngU64 postFin = Spec.xorOfU64s (RoundDecoder.slotHash roundState)
    /\ RoundPostFin.winningTile postFin = Spec.xorOfU64s (RoundDecoder.slotHash roundState) mod 25
    /\ RoundPostFin.numWinners postFin
       = nth_error (RoundDecoder.counts roundState)
           (Z.to_nat (Spec.xorOfU64s (RoundDecoder.slotHash roundState) mod 25)).
Proof.
  intros Hlen. unfold buildPostFin.
  rewrite (RngFacts.computeRng_32 _ Hlen).
  destruct (RngFacts.computeWinningTile_32 _ Hlen) as [-> _].
  eexists. split; [reflexivity |]. cbn. repeat split; reflexivity.
Qed.

(** X24. completePostFin completes a round: when the round has a row, its
    state is fetched with a valid 32-byte slot hash and at least 25 counts,
    and the database engine does not fail, completePostFin returns true; the
    row of the round has all its completion columns filled, with the start
    time as ts_post and the winning tile of the slot hash; nothing is
    notified, and the rows of every other round are as they were. *)
Theorem completePostFin_completes
    (env : Env) (ctx : PostFinContext) (w : World.t) (roundState : RoundDecoder.RoundAccount) :
  present (previousRoundId ctx) (db w) ->
  World.fetchRoundState env (previousRoundId ctx) = Return roundState ->
  RoundDecoder.isSlotHashValid (RoundDecoder.slotHash roundState) = true ->
  length (RoundDecoder.slotHash roundState) = 32%nat ->
  (25 <= length (RoundDecoder.counts roundState))%nat ->
  completeFault env = None ->
  exists w' row,
    completePostFin env ctx w = (Return true, w')
    /\ rounds (db w') !! Js.Number (previousRoundId ctx) = Some row
    /\ completed row
    /\ ts_post row = Some (clock env (clockReads w))
    /\ winning_tile row = Some (Spec.xorOfU64s (RoundDecoder.slotHash roundState) mod 25)
    /\ outbox w' = outbox w
    /\ sameElsewhere (previousRoundId ctx) (db w) (db w').
Proof.
  intros Hp Hfetch Hvalid Hlen Hcounts Hfault.
  pose proof (proj2 (stmtExistsRound_present _ _) Hp) as Hex.
  destruct (buildPostFin_run (previousRoundId ctx) (clock env (clockReads w)) roundState Hlen)
    as (postFin & Hbuild & Hid & Hts & Hhash & Hrng & Htile & Hwinners).
  pose proof (RngFacts.computeWinningTile_32 _ Hlen) as [_ Hrange].
  destruct (completePostFinBody_run postFin (db w)) as (db' & row & Hbody & Hrow & Hpost & Hwin
                                                        & _ & Hdone & Helse).
  { rewrite Hid. exact Hp. }
  { rewrite Htile. exact Hrange. }
  { rewrite Hhash. exact Hlen. }
  assert (Hsome : is_Some (RoundPostFin.numWinners postFin)).
  { rewrite Hwinners. apply nth_error_is_Some. intros Hnone. apply List.nth_error_None in Hnone. lia. }
  destruct Hsome as [n Hn].
  rewrite completePostFin_unfold. unfold tryCatch, atTry. runCompletion.
  rewrite Hex, Hfetch. cbn [negb]. rewrite Hvalid. cbn [negb]. rewrite Hbuild.
  cbn [db outbox calls logs clockReads].
  unfold transaction. rewrite Hfault, Hbody. rewrite Hn.
  eexists _, row. split; [reflexivity |]. cbn [db outbox].
  rewrite Hid in Hrow, Helse. rewrite Hts in Hpost. rewrite Htile in Hwin.
  repeat split; try assumption; try (apply Hdone; eauto); apply Helse; assumption.
Qed.


(** *** The collection that succeeds *)












(** *** Pending rounds *)










Lemma frame_fetchRoundStateOrNull env roundId :
  Frame.frame (RoundStateFetcher.fetchRoundStateOrNull env roundId).
Proof.
  unfold RoundStateFetcher.fetchRoundStateOrNull. apply FrameFacts.frame_tryCatch.
  - apply FrameFacts.frame_bind; [apply FrameFacts.frame_lift | intros; apply FrameFacts.frame_ret].
  - intros _. apply FrameFacts.frame_bind; [apply FrameFacts.frame_log | intros; apply FrameFacts.frame_ret].
Qed.

















End UseCaseFacts.

(** ** Retries *)

Module RetryFacts.
Import Retry.

Lemma callsOf_app l k : callsOf (l ++ k) = (callsOf l ++ callsOf k)%list.
Proof. apply flat_map_app. Qed.

Lemma sleepsOf_app l k : sleepsOf (l ++ k) = (sleepsOf l ++ sleepsOf k)%list.
Proof. apply flat_map_app. Qed.

(** The steps of one failed attempt that is not the last. *)
Lemma failed_steps options attempt error :
  attempt < retries options ->
  let warned :=
    if silent options then []
    else [Warned (name options ++ " failed (attempt " ++ showZ attempt ++ "/"
                  ++ showZ (retries options) ++ ")") error] in
  let slept := if attempt <? retries options then [Slept (delayMs options)] else [] in
  callsOf (warned ++ slept) = [] /\ sleepsOf (warned ++ slept) = [delayMs options].
Proof.
  intros Hlt. destruct (Z.ltb_spec attempt (retries options)); [| lia].
  destruct (silent options); split; reflexivity.
Qed.

Lemma attempts_returns {A} (fn : Z -> outcome A) options a : forall failures remaining attempt lastError,
  attempt + Z.of_nat remaining = retries options + 1 ->
  (failures < remaining)%nat ->
  (forall j, (j < failures)%nat -> exists e, fn (attempt + Z.of_nat j) = Throw e) ->
  fn (attempt + Z.of_nat failures) = Return a ->
  exists steps,
    attempts fn options remaining attempt lastError = (Returned a, steps)
    /\ callsOf steps = map (fun j => attempt + Z.of_nat j) (seq 0 (S failures))
    /\ sleepsOf steps = repeat (delayMs options) failures.
Proof.
  induction failures as [| failures IH]; intros remaining attempt lastError Hsum Hlt Hfail Hok.
  - destruct remaining as [| remaining]; [lia |]. cbn [attempts].
    rewrite Z.add_0_r in Hok. rewrite Hok. eexists. split; [reflexivity |].
    cbn. rewrite Z.add_0_r. split; reflexivity.
  - destruct remaining as [| remaining]; [lia |]. cbn [attempts].
    destruct (Hfail 0%nat ltac:(lia)) as [e He]. rewrite Z.add_0_r in He. rewrite He.
    destruct (IH remaining (attempt + 1) (Some e)) as (steps & Hrun & Hcalls & Hsleeps).
    + lia.
    + lia.
    + intros j Hj. destruct (Hfail (S j) ltac:(lia)) as [e' He']. exists e'.
      rewrite <- He'. f_equal. lia.
    + rewrite <- Hok. f_equal. lia.
    + rewrite Hrun. eexists. split; [reflexivity |].
      destruct (failed_steps options attempt e ltac:(lia)) as [Hc Hs].
      cbn zeta in Hc, Hs.
      split.
      * change (callsOf (Called attempt :: ?l)) with (attempt :: callsOf l).
        rewrite app_assoc, callsOf_app, Hc, Hcalls. cbn [app].
        change (seq 0 (S (S failures))) with (0%nat :: seq 1 (S failures)).
        rewrite <- (seq_shift (S failures) 0). cbn [map]. rewrite List.map_map.
        rewrite Z.add_0_r. f_equal.
        apply List.map_ext. intros j. lia.
      * change (sleepsOf (Called attempt :: ?l)) with (sleepsOf l).
        rewrite app_assoc, sleepsOf_app, Hs, Hsleeps. reflexivity.
Qed.

Lemma attempts_exhausted {A} (fn : Z -> outcome A) options : forall remaining attempt lastError,
  (remaining <> 0%nat -> attempt + Z.of_nat remaining = retries options + 1) ->
  (forall j, (j < remaining)%nat -> exists e, fn (attempt + Z.of_nat j) = Throw e) ->
  exists last steps,
    attempts fn options remaining attempt lastError = (Threw last, steps)
    /\ callsOf steps = map (fun j => attempt + Z.of_nat j) (seq 0 remaining)
    /\ sleepsOf steps = repeat (delayMs options) (remaining - 1)
    /\ (remaining = 0%nat -> last = lastError /\ steps = [])
    /\ (remaining <> 0%nat ->
        exists e, fn (retries options) = (Throw e : outcome A) /\ last = Some e).
Proof.
  induction remaining as [| remaining IH]; intros attempt lastError Hsum Hfail.
  - exists lastError, []. cbn. repeat split; congruence.
  - cbn [attempts]. destruct (Hfail 0%nat ltac:(lia)) as [e He].
    rewrite Z.add_0_r in He. rewrite He.
    specialize (Hsum ltac:(discriminate)).
    destruct (IH (attempt + 1) (Some e)) as (last & steps & Hrun & Hcalls & Hsleeps & Hnone & Hsome).
    + intros _. lia.
    + intros j Hj. destruct (Hfail (S j) ltac:(lia)) as [e' He']. exists e'.
      rewrite <- He'. f_equal. lia.
    + rewrite Hrun. exists last. eexists. split; [reflexivity |].
      split; [| split; [| split; [discriminate |]]].
      * change (callsOf (Called attempt :: ?l)) with (attempt :: callsOf l).
        rewrite !callsOf_app, Hcalls.
        replace (callsOf (if silent options then [] else _)) with (@nil Z)
          by (destruct (silent options); reflexivity).
        replace (callsOf (if attempt <? retries options then _ else _)) with (@nil Z)
          by (destruct (attempt <? retries options); reflexivity).
        cbn [app]. change (seq 0 (S remaining)) with (0%nat :: seq 1 remaining).
        rewrite <- (seq_shift remaining 0). cbn [map]. rewrite List.map_map.
        rewrite Z.add_0_r. f_equal. apply List.map_ext. intros j. lia.
      * change (sleepsOf (Called attempt :: ?l)) with (sleepsOf l).
        rewrite !sleepsOf_app, Hsleeps.
        replace (sleepsOf (if silent options then [] else _)) with (@nil Z)
          by (destruct (silent options); reflexivity).
        cbn [app]. destruct remaining as [| remaining].
        -- destruct (Z.ltb_spec attempt (retries options)); [lia |]. reflexivity.
        -- destruct (Z.ltb_spec attempt (retries options)); [| lia].
           cbn [Nat.sub sleepsOf flat_map app repeat]. rewrite Nat.sub_0_r. reflexivity.
      * intros _. destruct remaining as [| remaining].
        -- destruct (Hnone eq_refl) as [-> _]. exists e. split; [| reflexivity].
           rewrite <- He. f_equal. lia.
        -- apply Hsome. discriminate.
Qed.

(** X28. withRetry returns the value of the first attempt that succeeds:
    when fn fails on the first [failures] attempts and returns on the next,
    which is within the retries, withRetry returns that value; fn was called
    on attempts 1 to failures + 1 and no more, with one sleep of delayMs
    after each failed attempt.  BaseFetcher.fetch returns the same value. *)
Theorem withRetry_returns {A : Type} (fn : Z -> outcome A) (options : RetryOptions)
    (failures : nat) (a : A) (fetcher : string) :
  Z.of_nat failures < retries options ->
  (forall attempt, 1 <= attempt <= Z.of_nat failures -> exists e, fn attempt = Throw e) ->
  fn (Z.of_nat failures + 1) = Return a ->
  exists steps,
    withRetry fn options = (Returned a, steps)
    /\ callsOf steps = map Z.of_nat (seq 1 (S failures))
    /\ sleepsOf steps = repeat (delayMs options) failures
    /\ BaseFetcher.fetch fetcher options fn = (Return a, steps).
Proof.
  intros Hlt Hfail Hok. unfold BaseFetcher.fetch, withRetry.
  destruct (attempts_returns fn options a failures (Z.to_nat (retries options)) 1 None)
    as (steps & Hrun & Hcalls & Hsleeps).
  - lia.
  - lia.
  - intros j Hj. apply Hfail. lia.
  - rewrite <- Hok. f_equal. lia.
  - exists steps. rewrite Hrun. split; [reflexivity |]. split; [| split; [exact Hsleeps | reflexivity]].
    rewrite Hcalls, <- (seq_shift (S failures) 0), List.map_map.
    apply List.map_ext. intros j. lia.
Qed.

(** X29. withRetry gives up after [retries] failed attempts: when fn fails
    on every attempt from 1 to retries, withRetry throws the error of the
    last attempt, after calling fn exactly retries times and sleeping
    between the attempts only, not after the last one.  With retries below 1
    it calls nothing and throws null.  BaseFetcher.fetch throws a FetchError
    whose message is the name of the fetcher in brackets and the message of
    that error (the text null when there was none). *)
Theorem withRetry_exhausted {A : Type} (fn : Z -> outcome A) (options : RetryOptions)
    (fetcher : string) :
  (forall attempt, 1 <= attempt <= retries options -> exists e, fn attempt = Throw e) ->
  exists last steps,
    withRetry fn options = (Threw last, steps)
    /\ callsOf steps = map Z.of_nat (seq 1 (Z.to_nat (retries options)))
    /\ sleepsOf steps = repeat (delayMs options) (Z.to_nat (retries options) - 1)
    /\ (retries options < 1 -> last = None /\ steps = [])
    /\ (1 <= retries options ->
        exists e, fn (retries options) = (Throw e : outcome A) /\ last = Some e)
    /\ BaseFetcher.fetch fetcher options fn
       = (Throw ("[" ++ fetcher ++ "] "
                 ++ match last with Some message => message | None => "null" end)%string,
          steps).
Proof.
  intros Hfail. unfold BaseFetcher.fetch, withRetry.
  destruct (attempts_exhausted fn options (Z.to_nat (retries options)) 1 None)
    as (last & steps & Hrun & Hcalls & Hsleeps & Hnone & Hsome).
  - intros Hsome. lia.
  - intros j Hj. apply Hfail. lia.
  - exists last, steps. rewrite Hrun. split; [reflexivity |].
    split; [| split; [exact Hsleeps | split; [| split]]].
    + rewrite Hcalls, <- (seq_shift (Z.to_nat (retries options)) 0), List.map_map.
      apply List.map_ext. intros j. lia.
    + intros Hlow. apply Hnone. lia.
    + intros Hhigh. apply Hsome. lia.
    + destruct last; reflexivity.
Qed.

End RetryFacts.


(** ** What every reachable database satisfies *)

Module ReachFacts.
Import World Sqlite Frame FrameFacts RepositorySpec ReachSpec.

Lemma Number_opp z : Js.Number (- z) = - Js.Number z.
Proof.
  unfold Js.Number. rewrite Z.abs_opp.
  destruct (Z.abs z <? 2 ^ 53); [reflexivity |]. cbv zeta. rewrite Z.sgn_opp. lia.
Qed.

Lemma Number_fixed_large z : 2 ^ 53 <= z -> Js.Number (Js.Number z) = Js.Number z.
Proof.
  intros Hz. destruct (RoundingFacts.Number_large z Hz) as (He & Hq & Hval).
  remember (Z.log2 z - 52) as e eqn:Ee. remember (z / 2 ^ e) as q eqn:Eq.
  match type of Hval with
  | _ = (if ?c then _ else _) * _ => remember (if c then q + 1 else q) as q' eqn:Eq'
  end.
  assert (Hq' : 2 ^ 52 <= q' <= 2 ^ 53) by (subst q'; destruct (_ || _); lia).
  assert (Hpow : 0 < 2 ^ e) by (apply Z.pow_pos_nonneg; lia).
  rewrite Hval.
  assert (Hbig : 2 ^ 53 <= q' * 2 ^ e).
  { assert (2 <= 2 ^ e) by (change 2 with (2 ^ 1) at 1; apply Z.pow_le_mono_r; lia). nia. }
  destruct (RoundingFacts.Number_large (q' * 2 ^ e) Hbig) as (_ & _ & ->).
  destruct (Z.eq_dec q' (2 ^ 53)) as [Htop | Hbelow].
  - assert (Hlog : Z.log2 (q' * 2 ^ e) = 53 + e).
    { rewrite Htop, <- Z.pow_add_r by lia. apply Z.log2_pow2. lia. }
    rewrite Hlog. replace (53 + e - 52) with (e + 1) by lia.
    assert (Hsplit : q' * 2 ^ e = 2 ^ 52 * 2 ^ (e + 1)).
    { rewrite Htop, <- !Z.pow_add_r by lia. f_equal. lia. }
    rewrite Hsplit, Z.div_mul, Z.mod_mul by (apply Z.pow_nonzero; lia).
    replace (e + 1 - 1) with e by lia.
    destruct (Z.ltb_spec (2 ^ e) 0); [lia |].
    destruct (Z.eqb_spec 0 (2 ^ e)); [lia |]. reflexivity.
  - assert (Hlog : Z.log2 (q' * 2 ^ e) = 52 + e).
    { apply Z.log2_unique; [lia |]. rewrite Z.pow_succ_r, !Z.pow_add_r by lia. nia. }
    rewrite Hlog. replace (52 + e - 52) with e by lia.
    rewrite Z.div_mul, Z.mod_mul by lia.
    assert (0 < 2 ^ (e - 1)) by (apply Z.pow_pos_nonneg; lia).
    destruct (Z.ltb_spec (2 ^ (e - 1)) 0); [lia |].
    destruct (Z.eqb_spec 0 (2 ^ (e - 1))); [lia |]. reflexivity.
Qed.

(** A round id that has been through Number is a number Number keeps. *)
Lemma Number_fixed z : Js.Number (Js.Number z) = Js.Number z.
Proof.
  assert (Hpos : forall a, 0 <= a -> Js.Number (Js.Number a) = Js.Number a).
  { intros a Ha. destruct (Z_lt_le_dec a (2 ^ 53)) as [Hsmall | Hlarge].
    - rewrite (JsFacts.Number_small a) by (rewrite Z.abs_eq; lia). 
      apply JsFacts.Number_small. rewrite Z.abs_eq; lia.
    - apply Number_fixed_large, Hlarge. }
  destruct (Z_le_gt_dec 0 z) as [Hz | Hz]; [apply Hpos, Hz |].
  remember (- z) as a eqn:Ea. assert (Hz' : z = - a) by lia. rewrite Hz'.
  rewrite (Number_opp a), (Number_opp (Js.Number a)), (Hpos a) by lia. reflexivity.
Qed.

(** *** The statements *)

Lemma keysReadBack_insert key row db db' :
  Js.Number key = key ->
  rounds db' = <[key := row]> (rounds db) -> keysReadBack db -> keysReadBack db'.
Proof.
  intros Hkey Hrounds Hkeys k [r Hr]. rewrite Hrounds in Hr.
  destruct (decide (key = k)) as [<- | Hne]; [exact Hkey |].
  rewrite lookup_insert_ne in Hr by exact Hne. apply Hkeys. eauto.
Qed.

Lemma keysReadBack_rounds db db' : rounds db' = rounds db -> keysReadBack db -> keysReadBack db'.
Proof. intros Hrounds Hkeys k Hk. rewrite Hrounds in Hk. apply Hkeys, Hk. Qed.

Lemma stmtInsertRound_keys data db db' :
  stmtInsertRound data db = Return db' -> keysReadBack db -> keysReadBack db'.
Proof.
  intros Hrun. destruct (RepositoryFacts.stmtInsertRound_Return _ _ _ Hrun)
    as (_ & _ & row & Hrounds & _).
  apply (keysReadBack_insert (Js.Number (RoundPreFin.roundId data)) row);
    [apply Number_fixed | exact Hrounds].
Qed.

Lemma stmtInsertTile_keys roundId tile db db' :
  stmtInsertTile roundId tile db = Return db' -> keysReadBack db -> keysReadBack db'.
Proof.
  intros Hrun. destruct (RepositoryFacts.stmtInsertTile_Return _ _ _ _ Hrun) as (_ & Hrounds & _).
  apply keysReadBack_rounds, Hrounds.
Qed.

Lemma stmtUpdateRoundPostFin_keys data db db' :
  stmtUpdateRoundPostFin data db = Return db' -> keysReadBack db -> keysReadBack db'.
Proof.
  unfold stmtUpdateRoundPostFin.
  destruct (rounds db !! Js.Number (RoundPostFin.roundId data)) as [old |].
  - repeat match goal with
           | |- context [if ?c then _ else _] => destruct c; [discriminate |]
           end.
    intros [= <-].
    eapply (keysReadBack_insert (Js.Number (RoundPostFin.roundId data)));
      [apply Number_fixed | reflexivity].
  - intros [= <-] Hkeys. exact Hkeys.
Qed.

Lemma stmtUpdateTilePostFin_keys roundId tile db db' :
  stmtUpdateTilePostFin roundId tile db = Return db' -> keysReadBack db -> keysReadBack db'.
Proof.
  intros Hrun. apply keysReadBack_rounds. eapply StoreFacts.stmtUpdateTilePostFin_rounds, Hrun.
Qed.

Lemma stmtDeleteRound_keys roundId db :
  keysReadBack db -> keysReadBack (fst (stmtDeleteRound roundId db)).
Proof.
  unfold stmtDeleteRound. intros Hkeys.
  destruct (rounds db !! Js.Number roundId) as [old |]; cbn [fst]; [| exact Hkeys].
  intros k [r Hr]. cbn [rounds] in Hr.
  destruct (decide (Js.Number roundId = k)) as [<- | Hne].
  - rewrite lookup_delete_eq in Hr. discriminate.
  - rewrite lookup_delete_ne in Hr by exact Hne. apply Hkeys. eauto.
Qed.

Lemma runAll_keeps (P : Db -> Prop) stmts : forall db db',
  List.Forall (fun stmt : Stmt => forall d d', stmt d = Return d' -> P d -> P d') stmts ->
  runAll stmts db = Return db' -> P db -> P db'.
Proof.
  induction stmts as [| stmt rest IH]; intros db db' Hall; cbn [runAll].
  - intros [= <-] HP. exact HP.
  - inversion Hall as [| ? ? Hstmt Hrest]; subst.
    destruct (stmt db) as [db1 |] eqn:H1; [| discriminate].
    intros Hrun HP. eapply IH; [exact Hrest | exact Hrun |]. eapply Hstmt; eassumption.
Qed.

Lemma transaction_keeps (P : Db -> Prop) fault body db :
  (forall d d', body d = Return d' -> P d -> P d') ->
  P db -> P (snd (transaction fault body db)).
Proof.
  intros Hbody HP. unfold transaction. destruct fault; [exact HP |].
  destruct (body db) as [db' |] eqn:Hrun; cbn [snd]; [| exact HP].
  eapply Hbody; eassumption.
Qed.

Lemma insertPreFinBody_wellFormed data db db' :
  insertPreFinBody data db = Return db' -> wellFormed db -> wellFormed db'.
Proof.
  unfold insertPreFinBody. apply runAll_keeps. constructor.
  - intros d d' Hrun [Hfk Hkeys]. split.
    + eapply InvariantFacts.stmtInsertRound_foreignKeys; eassumption.
    + eapply stmtInsertRound_keys; eassumption.
  - apply List.Forall_forall. intros stmt Hstmt. apply in_map_iff in Hstmt.
    destruct Hstmt as (tile & <- & _). intros d d' Hrun [Hfk Hkeys]. split.
    + eapply InvariantFacts.stmtInsertTile_foreignKeys; eassumption.
    + eapply stmtInsertTile_keys; eassumption.
Qed.

Lemma completePostFinBody_wellFormed data db db' :
  completePostFinBody data db = Return db' -> wellFormed db -> wellFormed db'.
Proof.
  unfold completePostFinBody. apply runAll_keeps. constructor.
  - intros d d' Hrun [Hfk Hkeys]. split.
    + eapply InvariantFacts.stmtUpdateRoundPostFin_foreignKeys; eassumption.
    + eapply stmtUpdateRoundPostFin_keys; eassumption.
  - apply List.Forall_forall. intros stmt Hstmt. apply in_map_iff in Hstmt.
    destruct Hstmt as (tile & <- & _). intros d d' Hrun [Hfk Hkeys]. split.
    + eapply InvariantFacts.stmtUpdateTilePostFin_foreignKeys; eassumption.
    + eapply stmtUpdateTilePostFin_keys; eassumption.
Qed.

(** *** The repository *)

Lemma wellFormed_insertPreFin env data : keeps wellFormed (Repository.insertPreFin env data).
Proof.
  intros w Hwf. destruct (RepositoryFacts.insertPreFin_run env data w) as (w' & Hrun & Hdb & _).
  rewrite Hrun. cbn [snd]. rewrite Hdb.
  apply transaction_keeps; [apply insertPreFinBody_wellFormed | exact Hwf].
Qed.

Lemma wellFormed_completePostFin env data : keeps wellFormed (Repository.completePostFin env data).
Proof.
  intros w Hwf. destruct (RepositoryFacts.completePostFin_run env data w) as (w' & Hrun & Hdb & _).
  rewrite Hrun. cbn [snd]. rewrite Hdb.
  apply transaction_keeps; [apply completePostFinBody_wellFormed | exact Hwf].
Qed.

Lemma wellFormed_deleteRound env roundId :
  keeps wellFormed (Repository.deleteRound env roundId).
Proof.
  intros w [Hfk Hkeys]. destruct (deleteFault env) as [e |] eqn:Hfault.
  - destruct (RepositoryFacts.deleteRound_locked env roundId w e Hfault)
      as (w' & Hrun & Hdb & _).
    rewrite Hrun. cbn [snd]. rewrite Hdb. split; assumption.
  - destruct (RepositoryFacts.deleteRound_run env roundId w Hfault) as (w' & Hrun & Hdb & _).
    rewrite Hrun. cbn [snd]. rewrite Hdb. split.
    + apply InvariantFacts.stmtDeleteRound_foreignKeys, Hfk.
    + apply stmtDeleteRound_keys, Hkeys.
Qed.

(** *** The use cases, for any property the repository keeps *)

Section UseCases.

Variable P : Db -> Prop.
Hypothesis insertPreFin_keeps : forall env data, keeps P (Repository.insertPreFin env data).
Hypothesis completePostFin_keeps : forall env data, keeps P (Repository.completePostFin env data).
Hypothesis deleteRound_keeps : forall env roundId, keeps P (Repository.deleteRound env roundId).

Lemma keeps_frame {A} (m : Eff A) : frame m -> keeps P m.
Proof. intros Hm w HP. destruct (Hm w) as [-> _]. exact HP. Qed.

Lemma keeps_notify rid why d : keeps P (notifyFailure rid why d).
Proof. intros w HP. exact HP. Qed.

Lemma keeps_then {A B} (m : Eff A) (k : A -> Eff B) :
  keeps P m -> (forall a, keeps P (k a)) -> keeps P (bind m k).
Proof.
  intros Hm Hk w HP. unfold bind. specialize (Hm w HP).
  destruct (m w) as [[a | e] w1]; cbn [snd] in *; [apply Hk, Hm | exact Hm].
Qed.

Lemma keeps_try {A} (m : Eff A) (h : string -> Eff A) :
  keeps P m -> (forall e, keeps P (h e)) -> keeps P (tryCatch m h).
Proof.
  intros Hm Hh w HP. unfold tryCatch. specialize (Hm w HP).
  destruct (m w) as [[a | e] w1]; cbn [snd] in *; [exact Hm | apply Hh, Hm].
Qed.

Lemma keeps_handle env roundId why : keeps P (CompletePostFin.handleFailure env roundId why).
Proof.
  unfold CompletePostFin.handleFailure.
  apply keeps_then; [apply deleteRound_keeps | intros deleted].
  apply keeps_then; [| intros; apply keeps_notify].
  apply keeps_frame. destruct deleted; [apply frame_log | apply frame_ret].
Qed.

Lemma keeps_complete env ctx : keeps P (CompletePostFin.completePostFin env ctx).
Proof.
  unfold CompletePostFin.completePostFin.
  apply keeps_then; [apply keeps_frame, frame_dateNow | intros startTime].
  apply keeps_then; [apply keeps_frame, frame_log | intros _].
  apply keeps_try.
  - unfold CompletePostFin.completionSequence.
    apply keeps_then; [apply keeps_frame, PreFinFacts.frame_exists | intros found].
    destruct found; cbn [negb].
    + apply keeps_then; [apply keeps_frame, UseCaseFacts.frame_fetchRoundStateOrNull |].
      intros [roundState |].
      * destruct (negb _).
        -- apply keeps_then; [apply keeps_frame, frame_log | intros].
           apply keeps_then; [apply keeps_handle | intros].
           apply keeps_frame, frame_ret.
        -- apply keeps_then; [apply keeps_frame, frame_lift | intros postFin].
           apply keeps_then; [apply completePostFin_keeps | intros].
           apply keeps_frame.
           apply frame_bind; [apply frame_dateNow | intros].
           apply frame_bind;
             [unfold CompletePostFin.toStringOf; destruct (RoundPostFin.numWinners postFin);
              [apply frame_ret | apply frame_throw] | intros].
           apply frame_bind; [apply frame_log | intros; apply frame_ret].
      * apply keeps_then; [apply keeps_frame, frame_log | intros].
        apply keeps_then; [apply keeps_handle | intros].
        apply keeps_frame, frame_ret.
    + apply keeps_frame, frame_bind; [apply frame_log | intros; apply frame_ret].
  - intros e. apply keeps_then; [apply keeps_frame, frame_log | intros].
    apply keeps_then; [apply keeps_handle | intros].
    apply keeps_frame, frame_ret.
Qed.

Lemma keeps_collect env ctx cached : keeps P (CollectPreFin.collectPreFin env ctx cached).
Proof.
  unfold CollectPreFin.collectPreFin.
  apply keeps_then; [apply keeps_frame, frame_dateNow | intros startTime].
  apply keeps_then; [apply keeps_frame, frame_log | intros _].
  apply keeps_try.
  - unfold CollectPreFin.collectionSequence.
    apply keeps_then; [apply keeps_frame, PreFinFacts.frame_exists | intros found].
    destruct found.
    + apply keeps_frame, frame_bind; [apply frame_log | intros; apply frame_ret].
    + apply keeps_then;
        [apply keeps_frame, PreFinFacts.frame_obtainPrices | intros [[p m] latency]].
      apply keeps_then; [apply keeps_frame, frame_dateNow | intros].
      apply keeps_then; [apply keeps_frame, PreFinFacts.frame_fetchRoundState | intros].
      apply keeps_then; [apply keeps_frame, frame_dateNow | intros].
      apply keeps_then; [apply keeps_frame, frame_log | intros].
      apply keeps_then; [apply keeps_frame, frame_dateNow | intros].
      apply keeps_then; [apply keeps_frame, frame_lift | intros].
      apply keeps_then; [apply keeps_frame, frame_dateNow | intros].
      apply keeps_then; [apply insertPreFin_keeps | intros].
      apply keeps_frame.
      apply frame_bind; [apply frame_dateNow | intros].
      apply frame_bind; [apply frame_log | intros; apply frame_ret].
  - intros e. apply keeps_then; [apply keeps_frame, frame_log | intros].
    apply keeps_then; [apply keeps_notify | intros].
    apply keeps_frame, frame_ret.
Qed.

Lemma keeps_forEach {A} (f : A -> Eff unit) l :
  (forall a, keeps P (f a)) -> keeps P (CompletePostFin.forEach f l).
Proof.
  intros Hf. induction l as [| a l IH]; cbn [CompletePostFin.forEach].
  - apply keeps_frame, frame_ret.
  - apply keeps_then; [apply Hf | intros _; exact IH].
Qed.

Lemma keeps_completePending env : keeps P (CompletePostFin.completePendingRounds env).
Proof.
  unfold CompletePostFin.completePendingRounds, CompletePostFin.completePendingRoundsWith.
  apply keeps_then; [apply keeps_frame; intros w; split; reflexivity | intros ids].
  destruct (Nat.eqb (length ids) 0); [apply keeps_frame, frame_log |].
  apply keeps_then; [apply keeps_frame, frame_log | intros _].
  apply keeps_forEach. intros roundId. unfold CompletePostFin.completePending.
  apply keeps_try; [| intros e; apply keeps_frame, frame_log].
  apply keeps_then; [apply keeps_frame, UseCaseFacts.frame_fetchRoundStateOrNull |].
  assert (Hdelete : forall msg why,
             keeps P (World.bind
                        (log LevelWarn CompletePostFin.chan msg
                           [("roundId"%string, VStr (showZ roundId))])
                        (fun _ => World.bind (Repository.deleteRound env roundId)
                                    (fun _ => notifyFailure (Some roundId) why [])))).
  { intros msg why. apply keeps_then; [apply keeps_frame, frame_log | intros].
    apply keeps_then; [apply deleteRound_keeps | intros; apply keeps_notify]. }
  intros [roundState |]; [| apply Hdelete].
  destruct (negb _); [apply Hdelete |].
  apply keeps_then; [apply keeps_complete | intros; apply keeps_frame, frame_ret].
Qed.

Lemma keeps_handleCollectionFailure env roundId reason details :
  keeps P (HandleFailure.handleCollectionFailure env roundId reason details).
Proof.
  unfold HandleFailure.handleCollectionFailure.
  apply keeps_then; [apply keeps_frame, frame_log | intros _].
  apply keeps_then.
  - destruct roundId as [r |]; [| apply keeps_frame, frame_ret].
    apply keeps_try; [| intros e; apply keeps_frame, frame_log].
    apply keeps_then; [apply deleteRound_keeps | intros deleted].
    apply keeps_frame. destruct deleted; [apply frame_log | apply frame_ret].
  - intros _. apply keeps_try; [apply keeps_notify | intros e; apply keeps_frame, frame_log].
Qed.

Lemma perform_keeps env op w : P (db w) -> P (db (perform env op w)).
Proof.
  destruct op; cbn [perform].
  - apply insertPreFin_keeps.
  - apply completePostFin_keeps.
  - apply deleteRound_keeps.
  - apply keeps_collect.
  - apply keeps_complete.
  - apply keeps_completePending.
  - apply keeps_handleCollectionFailure.
Qed.

Lemma performAll_keeps steps : forall w, P (db w) -> P (db (performAll steps w)).
Proof.
  induction steps as [| [env op] steps IH]; intros w HP; [exact HP |].
  apply IH, perform_keeps, HP.
Qed.

End UseCases.

Lemma wellFormed_empty : wellFormed (db Samples.emptyWorld).
Proof.
  split; [apply InvariantFacts.foreignKeysHold_emptyDb |].
  intros key [row Hrow]. cbn in Hrow. rewrite lookup_empty in Hrow. discriminate.
Qed.

Lemma wellFormed_reached steps w :
  wellFormed (db w) -> wellFormed (db (performAll steps w)).
Proof.
  apply (performAll_keeps wellFormed wellFormed_insertPreFin wellFormed_completePostFin
           wellFormed_deleteRound).
Qed.

(** X30. Every database reached from the empty one by writes of the
    repository and by the use cases (collectPreFin, completePostFin,
    completePendingRounds, handleCollectionFailure), in any order and in any
    environment, has no tile row without its round row, and round ids that
    Number gives back unchanged. *)
Theorem reachable_wellFormed (steps : list (Env * Operation)) :
  let reached := db (performAll steps Samples.emptyWorld) in
  foreignKeysHold reached /\ keysReadBack reached.
Proof. apply wellFormed_reached, wellFormed_empty. Qed.

End ReachFacts.



(** * The properties on sample rounds *)

Module Checks.
Import World Samples StoreSpec.

(** Round 7 is collected from the empty store, then completed. *)
Lemma round7_lifecycle :
  fst (CollectPreFin.collectPreFin env preFinContext None emptyWorld) = Return true
  /\ Sqlite.stmtExistsRound 7 (db collected) = true
  /\ size (Sqlite.tiles (db collected)) = 25%nat
  /\ fst (CompletePostFin.completePostFin env postFinContext collected) = Return true
  /\ option_map Sqlite.winning_tile (Sqlite.rounds (db settled) !! 7) = Some (Some 2)
  /\ outbox settled = [].
Proof. repeat split; vm_compute; reflexivity. Qed.

Lemma present_collected : present 7 (db collected).
Proof. apply StoreFacts.stmtExistsRound_present. vm_compute. reflexivity. Qed.



Lemma foreignKeysHold_empty : Sqlite.foreignKeysHold (db emptyWorld).
Proof. intros rid idx row H. cbn in H. rewrite lookup_empty in H. discriminate. Qed.

Lemma fresh_round7 : ~ present 7 (db emptyWorld).
Proof. intros [row H]. cbn in H. rewrite lookup_empty in H. discriminate. Qed.

Lemma collectPreFin_failure_witness :
  Sqlite.foreignKeysHold (db emptyWorld)
  /\ ~ present 7 (db emptyWorld)
  /\ PreFinSpec.missingPriceData envNoPrice None
  /\ PreFinSpec.storeInsertFails envDiskError
  /\ (exists w' n,
        CollectPreFin.collectPreFin envNoPrice preFinContext None emptyWorld = (Return false, w')
        /\ db w' = db emptyWorld /\ absent 7 (db w') /\ roundId n = Some 7
        /\ outbox w' = (outbox emptyWorld ++ [n])%list)
  /\ (exists w' n,
        CollectPreFin.collectPreFin envDiskError preFinContext None emptyWorld
        = (Return false, w')
        /\ db w' = db emptyWorld /\ absent 7 (db w') /\ roundId n = Some 7
        /\ outbox w' = (outbox emptyWorld ++ [n])%list).
Proof.
  assert (Hprice : PreFinSpec.missingPriceData envNoPrice None)
    by (split; [reflexivity | left; eexists; reflexivity]).
  assert (Hdisk : PreFinSpec.storeInsertFails envDiskError) by (eexists; reflexivity).
  split; [exact foreignKeysHold_empty |]. split; [exact fresh_round7 |].
  split; [exact Hprice |]. split; [exact Hdisk |]. split.
  - apply (PreFinFacts.collectPreFin_failure envNoPrice preFinContext None emptyWorld
             foreignKeysHold_empty fresh_round7).
    left. exact Hprice.
  - apply (PreFinFacts.collectPreFin_failure envDiskError preFinContext None emptyWorld
             foreignKeysHold_empty fresh_round7).
    right. right. right. left. exact Hdisk.
Defined.

Lemma computeWinningTile_witness :
  length seed = 32%nat
  /\ RngCalculator.computeWinningTile seed = Return (Spec.xorOfU64s seed mod 25)
  /\ Spec.xorOfU64s seed mod 25 = 2.
Proof.
  assert (Hlen : length seed = 32%nat) by reflexivity.
  destruct (RngFacts.computeWinningTile_spec seed Hlen) as (Hvalue & _ & _).
  split; [exact Hlen |]. split; [exact Hvalue | reflexivity].
Defined.

Lemma rankTilesByEv_witness :
  length emptyTiles = 25%nat
  /\ map EvCalculator.deployed emptyTiles = repeat 0 25
  /\ map TilePreFin.rankEv (TileRanker.rankTilesByEv emptyTiles) = map Z.of_nat (seq 1 25)
  /\ List.NoDup (map TilePreFin.rankEv (TileRanker.rankTilesByEv emptyTiles)).
Proof.
  assert (Hlen : length emptyTiles = 25%nat) by (vm_compute; reflexivity).
  destruct (RankerFacts.rankTilesByEv_spec emptyTiles Hlen) as (Hranks & Hnodup & _).
  split; [exact Hlen |]. split; [vm_compute; reflexivity |].
  split; [exact Hranks | exact Hnodup].
Defined.

Lemma triggers_once_per_round_witness :
  WatcherSpec.roundIdsNeverDecrease inOrder
  /\ (BoardWatcher.pricesFetchCount 5
        (snd (BoardWatcher.processAll thresholds inOrder BoardWatcher.initial)) <= 1)%nat
  /\ BoardWatcher.evSnapshotCount 5
       (snd (BoardWatcher.processAll thresholds inOrder BoardWatcher.initial)) = 1%nat.
Proof.
  assert (Hmono : WatcherSpec.roundIdsNeverDecrease inOrder).
  { unfold WatcherSpec.roundIdsNeverDecrease, inOrder. cbn. repeat split; lia. }
  destruct (WatcherFacts.triggers_once_per_round thresholds inOrder 5 Hmono)
    as (Hprices & _ & Hexact).
  split; [exact Hmono |]. split; [exact Hprices |].
  apply Hexact. exists (fst (inWindowBoard 5)), (snd (inWindowBoard 5)).
  split; [left; reflexivity |]. split; reflexivity.
Defined.

Lemma out_of_order_fires_twice :
  map (fun update => WatcherSpec.inWindow (BoardWatcher.evSnapshotSlots thresholds)
                       (fst update) (snd update))
      outOfOrder = [true; true; true]
  /\ BoardWatcher.evSnapshotCount 5
       (snd (BoardWatcher.processAll thresholds outOfOrder BoardWatcher.initial))
     = 2%nat
  /\ BoardWatcher.pricesFetchCount 5
       (snd (BoardWatcher.processAll thresholds outOfOrder BoardWatcher.initial))
     = 2%nat.
Proof. repeat split; vm_compute; reflexivity. Qed.

Lemma completed_round7 :
  CompletePostFin.completePostFin env postFinContext collected = (Return true, settled).
Proof.
  unfold settled.
  destruct (CompletePostFin.completePostFin env postFinContext collected) as [r w'] eqn:Hrun.
  assert (Hr : fst (CompletePostFin.completePostFin env postFinContext collected) = Return true)
    by (vm_compute; reflexivity).
  rewrite Hrun in Hr. cbn in Hr. subst r. reflexivity.
Qed.

Lemma splitTopMiner_recorded_witness :
  present 7 (db collected)
  /\ CompletePostFin.completePostFin env postFinContext collected = (Return true, settled)
  /\ exists row,
       Sqlite.rounds (db settled) !! Js.Number 7 = Some row
       /\ (Sqlite.split_top_miner row = Some 1
           <-> RoundDecoder.topMiner round7 = Constants.SPLIT_ADDRESS)
       /\ completed row.
Proof.
  split; [exact present_collected |]. split; [exact completed_round7 |].
  destruct (SplitFacts.splitTopMiner_recorded env postFinContext collected settled
              present_collected completed_round7)
    as (roundState & postFin & row & Hfetch & _ & _ & Hrow & Hflag & Hdone & _).
  injection Hfetch as <-. exists row. split; [exact Hrow |]. split; [exact Hflag | exact Hdone].
Defined.

Lemma split_flag_not_from_seed :
  fst (CompletePostFin.completePostFin env postFinContext collected) = Return true
  /\ RoundDecoder.slotHash round7 = seed
  /\ Z.even (Spec.xorOfU16s seed) = true
  /\ RngCalculator.shouldSplitReward seed = Return true
  /\ PostFinSpec.recordedSplitFlags (calls settled) = [false]
  /\ option_map Sqlite.split_top_miner (Sqlite.rounds (db settled) !! 7) = Some (Some 0).
Proof. repeat split; vm_compute; reflexivity. Qed.

Lemma evRatio_of_produced_tiles_witness :
  EvCalculator.calculateAllTileEvs round7 price = Return tiles7
  /\ List.Forall (fun d => 0 <= d) (RoundDecoder.deployed round7)
  /\ length tiles7 = 25%nat
  /\ List.Forall
       (fun t => NumberSpec.positive (EvSpec.denominator (EvCalculator.deployed t))
                 /\ NumberSpec.nonneg (EvCalculator.evRatio t)) tiles7.
Proof.
  assert (Hrun : EvCalculator.calculateAllTileEvs round7 price = Return tiles7).
  { unfold tiles7. destruct (EvCalculator.calculateAllTileEvs round7 price) eqn:H.
    - reflexivity.
    - exfalso. revert H. vm_compute. discriminate. }
  assert (Hdep : List.Forall (fun d => 0 <= d) (RoundDecoder.deployed round7)).
  { apply List.Forall_forall. intros d Hd. apply repeat_spec in Hd. subst d. lia. }
  split; [exact Hrun |]. split; [exact Hdep |]. split; [vm_compute; reflexivity |].
  apply List.Forall_forall. intros t Ht.
  destruct (EvFacts.evRatio_of_produced_tiles round7 price tiles7 Hrun Hdep t Ht)
    as (Hpos & _ & Hnonneg & _).
  split; [exact Hpos |]. apply (Hnonneg 1%Q); [reflexivity | discriminate].
Defined.

Lemma uncontested_tile_ratio_is_finite :
  RoundDecoder.deployed emptyRound = repeat 0 25
  /\ map Js.isFinite (EvSpec.ratiosOf (EvCalculator.calculateAllTileEvs emptyRound price))
     = repeat true 25
  /\ map (fun ratio => Js.eqb ratio Js.PosInf)
         (EvSpec.ratiosOf (EvCalculator.calculateAllTileEvs emptyRound price))
     = repeat false 25
  /\ map (fun ratio => Js.eqb ratio (Js.Fin (36036 # 1000)))
         (EvSpec.ratiosOf (EvCalculator.calculateAllTileEvs emptyRound price))
     = repeat true 25.
Proof. repeat split; vm_compute; reflexivity. Qed.

Lemma collectPreFin_already_collected_witness :
  present 7 (db collected)
  /\ exists w',
       CollectPreFin.collectPreFin env preFinContext None collected = (Return true, w')
       /\ db w' = db collected
       /\ outbox w' = outbox collected
       /\ calls w' = (calls collected ++ [CallExists 7])%list.
Proof.
  split; [exact present_collected |].
  exact (PreFinFacts.collectPreFin_already_collected env preFinContext None collected
           present_collected).
Defined.

End Checks.

(** * The further properties on sample rounds *)

Module MoreChecks.
Import World Samples Cases StoreSpec RepositorySpec.

Lemma wellFormed_collected : ReachSpec.wellFormed (db collected).
Proof.
  exact (ReachFacts.wellFormed_reached
           [(env, ReachSpec.OpCollect preFinContext None)] emptyWorld
           ReachFacts.wellFormed_empty).
Qed.

Lemma reverseBits64_mirror_witness :
  0 <= 1 < 2 ^ 64
  /\ RngCalculator.reverseBits64 1 = 2 ^ 63
  /\ RngCalculator.reverseBits64 (RngCalculator.reverseBits64 1) = 1.
Proof.
  assert (Hrange : 0 <= 1 < 2 ^ 64) by lia.
  destruct (RngBitFacts.reverseBits64_mirror 1 Hrange) as (_ & _ & Hback).
  split; [exact Hrange |]. split; [reflexivity | exact Hback].
Defined.

Lemma decodeBoardAccount_boardData_witness :
  length (repeat x00 8) = 8%nat
  /\ Layout.isU64 (BoardDecoder.roundId board7)
  /\ Layout.isU64 (BoardDecoder.startSlot board7)
  /\ Layout.isU64 (BoardDecoder.endSlot board7)
  /\ length board7Data = 32%nat
  /\ BoardDecoder.decodeBoardAccount board7Data = Return board7.
Proof.
  assert (Hid : Layout.isU64 (BoardDecoder.roundId board7)) by (unfold Layout.isU64; cbn; lia).
  assert (Hstart : Layout.isU64 (BoardDecoder.startSlot board7))
    by (unfold Layout.isU64; cbn; lia).
  assert (Hend : Layout.isU64 (BoardDecoder.endSlot board7)) by (unfold Layout.isU64; cbn; lia).
  split; [reflexivity |]. split; [exact Hid |]. split; [exact Hstart |]. split; [exact Hend |].
  split; [reflexivity |].
  exact (AccountFacts.decodeBoardAccount_boardData (repeat x00 8) board7 [] eq_refl
           Hid Hstart Hend).
Defined.

Lemma risingRound_u64 : Layout.u64Fields risingRound.
Proof.
  unfold Layout.u64Fields, Layout.isU64. cbn [risingRound RoundDecoder.id RoundDecoder.deployed
    RoundDecoder.counts RoundDecoder.expiresAt RoundDecoder.motherlode
    RoundDecoder.topMinerReward RoundDecoder.totalDeployed RoundDecoder.totalVaulted
    RoundDecoder.totalWinnings].
  repeat split; try lia.
  - apply List.Forall_forall. intros d Hd. apply in_map_iff in Hd.
    destruct Hd as (i & <- & Hi). apply in_seq in Hi. lia.
  - apply List.Forall_forall. intros d Hd. apply repeat_spec in Hd. lia.
Qed.


Lemma price_inRange : StakeSpec.priceInRange 1.
Proof. split; vm_compute; discriminate. Qed.

Lemma calculateAllTileEvs_returns_witness :
  (25 <= length (RoundDecoder.deployed risingRound))%nat
  /\ Layout.u64Fields risingRound
  /\ PriceQuote.oreSol price = Js.Fin 1
  /\ StakeSpec.priceInRange 1
  /\ exists tiles,
       EvCalculator.calculateAllTileEvs risingRound price = Return tiles
       /\ length tiles = 25%nat
       /\ map EvCalculator.deployed tiles = RoundDecoder.deployed risingRound.
Proof.
  assert (Hlen : (25 <= length (RoundDecoder.deployed risingRound))%nat) by (cbn; lia).
  split; [exact Hlen |]. split; [exact risingRound_u64 |]. split; [reflexivity |].
  split; [exact price_inRange |].
  destruct (TileEvFacts.calculateAllTileEvs_returns risingRound price 1 Hlen risingRound_u64
              eq_refl price_inRange)
    as (tiles & Hrun & Hcount & _).
  exists tiles. split; [exact Hrun |]. split; [exact Hcount |].
  revert Hrun. vm_compute. intros [= <-]. reflexivity.
Defined.

Lemma calculateAllTileEvs_throws_witness :
  (length (RoundDecoder.deployed shortRound) < 25)%nat
  /\ PriceQuote.oreSol brokenPrice = Js.NaN
  /\ (exists e, EvCalculator.calculateAllTileEvs shortRound price = Throw e)
  /\ (exists e, EvCalculator.calculateAllTileEvs round7 brokenPrice = Throw e).
Proof.
  assert (Hshort : (length (RoundDecoder.deployed shortRound) < 25)%nat) by (cbn; lia).
  split; [exact Hshort |]. split; [reflexivity |]. split.
  - apply TileEvFacts.calculateAllTileEvs_throws. left. exact Hshort.
  - apply TileEvFacts.calculateAllTileEvs_throws. right. left. reflexivity.
Defined.

Lemma risingTiles_run :
  EvCalculator.calculateAllTileEvs risingRound price = Return risingTiles.
Proof.
  unfold risingTiles. destruct (EvCalculator.calculateAllTileEvs risingRound price) eqn:H.
  - reflexivity.
  - exfalso. revert H. vm_compute. discriminate.
Qed.

Lemma risingRound_deployed :
  List.Forall (fun d => 0 <= d) (RoundDecoder.deployed risingRound).
Proof.
  apply List.Forall_forall. intros d Hd. cbn [risingRound RoundDecoder.deployed] in Hd.
  apply in_map_iff in Hd. destruct Hd as (i & <- & _). lia.
Qed.

Lemma evRatio_decreases_with_deployed_witness :
  EvCalculator.calculateAllTileEvs risingRound price = Return risingTiles
  /\ List.Forall (fun d => 0 <= d) (RoundDecoder.deployed risingRound)
  /\ PriceQuote.oreSol price = Js.Fin 1
  /\ (0 <= 1)%Q
  /\ List.Forall
       (fun t1 =>
          List.Forall
            (fun t2 =>
               EvCalculator.deployed t1 <= EvCalculator.deployed t2 ->
               Js.leb (EvCalculator.evRatio t2) (EvCalculator.evRatio t1) = true)
            risingTiles) risingTiles.
Proof.
  assert (Hp : (0 <= 1)%Q) by discriminate.
  split; [exact risingTiles_run |]. split; [exact risingRound_deployed |].
  split; [reflexivity |]. split; [exact Hp |].
  apply List.Forall_forall. intros t1 H1. apply List.Forall_forall. intros t2 H2.
  exact (TileEvFacts.evRatio_decreases_with_deployed risingRound price 1 risingTiles
           risingTiles_run risingRound_deployed eq_refl Hp t1 t2 H1 H2).
Defined.

Lemma ranking_follows_deployed_witness :
  EvCalculator.calculateAllTileEvs risingRound price = Return risingTiles
  /\ List.Forall (fun d => 0 <= d) (RoundDecoder.deployed risingRound)
  /\ map TilePreFin.tileIndex (TileRanker.rankTilesByEv risingTiles) = map Z.of_nat (seq 0 25)
  /\ List.Forall
       (fun a =>
          List.Forall
            (fun b =>
               TilePreFin.rankEv a < TilePreFin.rankEv b ->
               Js.Number (TilePreFin.deployed a) <= Js.Number (TilePreFin.deployed b)
               \/ Js.eqb (TilePreFin.evRatio a) (TilePreFin.evRatio b) = true)
            (TileRanker.rankTilesByEv risingTiles)) (TileRanker.rankTilesByEv risingTiles).
Proof.
  assert (Hp : (0 <= 1)%Q) by discriminate.
  split; [exact risingTiles_run |]. split; [exact risingRound_deployed |].
  split; [vm_compute; reflexivity |].
  apply List.Forall_forall. intros a Ha. apply List.Forall_forall. intros b Hb.
  exact (RankingFacts.ranking_follows_deployed risingRound price 1 risingTiles
           risingTiles_run risingRound_deployed eq_refl Hp a b Ha Hb).
Defined.

Lemma risingTiles_numbers :
  List.Forall (fun t => EvCalculator.evRatio t <> Js.NaN /\ EvCalculator.evRatio t <> Js.NegInf)
    risingTiles.
Proof.
  apply List.Forall_forall. intros t Ht.
  assert (Hfinite : Js.isFinite (EvCalculator.evRatio t) = true).
  { assert (Hall : forallb (fun t => Js.isFinite (EvCalculator.evRatio t)) risingTiles = true)
      by (vm_compute; reflexivity).
    rewrite forallb_forall in Hall. apply Hall, Ht. }
  destruct (EvCalculator.evRatio t); try discriminate. split; discriminate.
Qed.

Lemma getTilesAboveThreshold_prefix_witness :
  List.Forall (fun t => EvCalculator.evRatio t <> Js.NaN /\ EvCalculator.evRatio t <> Js.NegInf)
    risingTiles
  /\ (exists n,
        TileRanker.getTilesAboveThreshold (TileRanker.rankTilesByEv risingTiles) (Js.ofZ 1)
        = firstn n (TileRanker.rankTilesByEv risingTiles))
  /\ length (TileRanker.getTilesAboveThreshold (TileRanker.rankTilesByEv risingTiles) (Js.ofZ 1))
     = 11%nat.
Proof.
  split; [exact risingTiles_numbers |]. split; [| vm_compute; reflexivity].
  exact (RankingFacts.getTilesAboveThreshold_prefix risingTiles (Js.ofZ 1) risingTiles_numbers).
Defined.

Lemma prices_before_snapshot_witness :
  BoardWatcher.evSnapshotSlots thresholds <= BoardWatcher.preFinThresholdSlots thresholds
  /\ TriggerSpec.pricesComeFirst []
       (snd (BoardWatcher.processAll thresholds inOrder BoardWatcher.initial)) = true
  /\ length (snd (BoardWatcher.processAll thresholds inOrder BoardWatcher.initial)) = 9%nat.
Proof.
  assert (Hle : BoardWatcher.evSnapshotSlots thresholds
                <= BoardWatcher.preFinThresholdSlots thresholds) by (cbn; lia).
  split; [exact Hle |]. split; [| vm_compute; reflexivity].
  exact (TriggerFacts.prices_before_snapshot thresholds inOrder Hle).
Defined.

Lemma deleteRound_removes_witness :
  Sqlite.foreignKeysHold (db collected)
  /\ (exists w',
        Repository.deleteRound env 7 collected = (Return true, w')
        /\ absent 7 (db w')
        /\ outbox w' = outbox collected
        /\ fst (Repository.deleteRound env 7 w') = Return false)
  /\ (exists w',
        Repository.deleteRound envLocked 7 collected = (Throw "database is locked"%string, w')
        /\ db w' = db collected).
Proof.
  pose proof (proj1 wellFormed_collected) as Hfk. split; [exact Hfk |]. split.
  - destruct (proj1 (RepositoryFacts.deleteRound_removes env 7 collected Hfk) eq_refl)
      as (deleted & w' & Hrun & Hdeleted & Habsent & _ & Hout & Hagain).
    exists w'. rewrite (proj2 Hdeleted Checks.present_collected) in Hrun. auto.
  - destruct (proj2 (RepositoryFacts.deleteRound_removes envLocked 7 collected Hfk)
                "database is locked"%string eq_refl)
      as (w' & Hrun & Hdb & _).
    exists w'. auto.
Defined.

Lemma insertPreFin_existing_witness :
  present 7 (db collected)
  /\ Sqlite.fitsRowid (Js.Number 7) = true
  /\ exists w',
       Repository.insertPreFin env preFin7 collected
       = (Throw "UNIQUE constraint failed: rounds.round_id"%string, w')
       /\ db w' = db collected
       /\ outbox w' = outbox collected.
Proof.
  split; [exact Checks.present_collected |]. split; [reflexivity |].
  destruct (RepositoryFacts.insertPreFin_existing env preFin7 collected Checks.present_collected)
    as (e & w' & Hrun & Hdb & Hout & He & _).
  exists w'. rewrite (He eq_refl eq_refl eq_refl eq_refl eq_refl eq_refl) in Hrun. auto.
Defined.

Lemma inserted_round7 :
  Repository.insertPreFin env preFin7 emptyWorld = (Return tt, inserted7).
Proof.
  unfold inserted7.
  destruct (Repository.insertPreFin env preFin7 emptyWorld) as [r w'] eqn:Hrun.
  assert (Hr : fst (Repository.insertPreFin env preFin7 emptyWorld) = Return tt)
    by (vm_compute; reflexivity).
  rewrite Hrun in Hr. cbn in Hr. subst r. reflexivity.
Qed.

Lemma insertPreFin_stored_witness :
  Repository.insertPreFin env preFin7 emptyWorld = (Return tt, inserted7)
  /\ length (RoundPreFin.tiles preFin7) = 25%nat
  /\ pending (Js.Number 7) (db inserted7)
  /\ List.Forall (fun tile => tileStored 7 tile (db inserted7)) (RoundPreFin.tiles preFin7)
  /\ fst (Repository.exists_ 7 inserted7) = Return true.
Proof.
  split; [exact inserted_round7 |]. split; [vm_compute; reflexivity |].
  destruct (RepositoryFacts.insertPreFin_stored env preFin7 emptyWorld inserted7 inserted_round7)
    as (_ & Hexists & Hpending & Hstored & _).
  split; [exact Hpending |]. split; [| exact Hexists].
  apply List.Forall_forall. exact Hstored.
Defined.

Lemma completePostFin_missing_witness :
  Sqlite.foreignKeysHold (db emptyWorld)
  /\ ~ present (RoundPostFin.roundId postFin7) (db emptyWorld)
  /\ completeFault env = None
  /\ exists w',
       Repository.completePostFin env postFin7 emptyWorld = (Return tt, w')
       /\ db w' = db emptyWorld
       /\ outbox w' = outbox emptyWorld.
Proof.
  split; [exact Checks.foreignKeysHold_empty |]. split; [exact Checks.fresh_round7 |].
  split; [reflexivity |].
  exact (RepositoryFacts.completePostFin_missing env postFin7 emptyWorld
           Checks.foreignKeysHold_empty Checks.fresh_round7 eq_refl).
Defined.

Lemma handleCollectionFailure_handles_witness :
  Sqlite.foreignKeysHold (db collected)
  /\ (exists w',
        HandleFailure.handleCollectionFailure env (Some 7) "EV snapshot failed" [] collected
        = (Return tt, w')
        /\ outbox w'
           = (outbox collected
              ++ [{| World.roundId := Some 7; reason := "EV snapshot failed"; details := [] |}])%list
        /\ absent 7 (db w'))
  /\ (exists w',
        HandleFailure.handleCollectionFailure envLocked (Some 7) "EV snapshot failed" [] collected
        = (Return tt, w')
        /\ outbox w'
           = (outbox collected
              ++ [{| World.roundId := Some 7; reason := "EV snapshot failed"; details := [] |}])%list
        /\ db w' = db collected)
  /\ (exists w',
        HandleFailure.handleCollectionFailure env None "Unknown round" [] collected
        = (Return tt, w')
        /\ db w' = db collected).
Proof.
  pose proof (proj1 wellFormed_collected) as Hfk. split; [exact Hfk |]. split; [| split].
  - destruct (UseCaseFacts.handleCollectionFailure_handles env (Some 7) "EV snapshot failed" []
                collected Hfk) as (w' & Hrun & Hout & Hdeleted & _).
    exists w'. destruct (Hdeleted eq_refl) as [Habsent _]. auto.
  - destruct (UseCaseFacts.handleCollectionFailure_handles envLocked (Some 7)
                "EV snapshot failed" [] collected Hfk) as (w' & Hrun & Hout & _ & Hkept).
    exists w'. destruct (Hkept "database is locked"%string eq_refl) as [Hdb _]. auto.
  - destruct (UseCaseFacts.handleCollectionFailure_handles env None "Unknown round" []
                collected Hfk) as (w' & Hrun & _ & Hdb & _).
    exists w'. auto.
Defined.

Lemma completePostFin_completes_witness :
  present 7 (db collected)
  /\ World.fetchRoundState env 7 = Return round7
  /\ RoundDecoder.isSlotHashValid (RoundDecoder.slotHash round7) = true
  /\ length (RoundDecoder.slotHash round7) = 32%nat
  /\ (25 <= length (RoundDecoder.counts round7))%nat
  /\ completeFault env = None
  /\ exists w' row,
       CompletePostFin.completePostFin env postFinContext collected = (Return true, w')
       /\ Sqlite.rounds (db w') !! Js.Number 7 = Some row
       /\ completed row
       /\ Sqlite.winning_tile row = Some 2
       /\ outbox w' = outbox collected.
Proof.
  assert (Hcounts : (25 <= length (RoundDecoder.counts round7))%nat) by (cbn; lia).
  split; [exact Checks.present_collected |]. split; [reflexivity |]. split; [reflexivity |].
  split; [reflexivity |]. split; [exact Hcounts |]. split; [reflexivity |].
  destruct (UseCaseFacts.completePostFin_completes env postFinContext collected round7
              Checks.present_collected eq_refl eq_refl eq_refl Hcounts eq_refl)
    as (w' & row & Hrun & Hrow & Hdone & _ & Hwin & Hout & _).
  exists w', row. auto 10.
Defined.





Lemma withRetry_returns_witness :
  2 < Retry.retries Retry.defaults
  /\ (forall attempt, 1 <= attempt <= 2 -> exists e, flaky attempt = Throw e)
  /\ flaky 3 = Return 42
  /\ exists steps,
       Retry.withRetry flaky Retry.defaults = (Retry.Returned 42, steps)
       /\ Retry.callsOf steps = [1; 2; 3]
       /\ Retry.sleepsOf steps = [5000; 5000]
       /\ BaseFetcher.fetch "JupiterPrice" Retry.defaults flaky = (Return 42, steps).
Proof.
  assert (Hlt : Z.of_nat 2 < Retry.retries Retry.defaults) by (cbn; lia).
  assert (Hfail : forall attempt, 1 <= attempt <= Z.of_nat 2 -> exists e, flaky attempt = Throw e).
  { intros attempt Hattempt. exists "timeout"%string. unfold flaky.
    destruct (Z.ltb_spec attempt 3); [reflexivity | lia]. }
  split; [exact Hlt |]. split; [exact Hfail |]. split; [reflexivity |].
  exact (RetryFacts.withRetry_returns flaky Retry.defaults 2 42 "JupiterPrice" Hlt Hfail eq_refl).
Defined.

Lemma withRetry_exhausted_witness :
  (forall attempt, 1 <= attempt <= Retry.retries Retry.defaults ->
     exists e, failing attempt = Throw e)
  /\ exists steps,
       Retry.withRetry failing Retry.defaults = (Retry.Threw (Some "timeout"%string), steps)
       /\ Retry.callsOf steps = [1; 2; 3]
       /\ Retry.sleepsOf steps = [5000; 5000]
       /\ BaseFetcher.fetch "JupiterPrice" Retry.defaults failing
          = (Throw "[JupiterPrice] timeout"%string, steps).
Proof.
  assert (Hfail : forall attempt, 1 <= attempt <= Retry.retries Retry.defaults ->
                    exists e, failing attempt = Throw e).
  { intros attempt _. exists "timeout"%string. reflexivity. }
  split; [exact Hfail |].
  destruct (RetryFacts.withRetry_exhausted failing Retry.defaults "JupiterPrice" Hfail)
    as (last & steps & Hrun & Hcalls & Hsleeps & _ & Hlast & Hfetch).
  destruct (Hlast ltac:(cbn; lia)) as (e & He & ->).
  injection He as <-. exists steps. auto.
Defined.

End MoreChecks.
